(** * ExpertAI: the team-task engine of [TeamTasks] and its delegation protocol

    A shallow embedding of [executeSingleTask], [handleExecuteBatchTasks],
    [handleStopExecution], [handleClearPending] and [handleDeleteResult]
    (component [TeamTasks]) and of [runExpertTask] (service [aiService]),
    followed by the properties of the delegation parser, of the marker
    bookkeeping and of the active-task counter.  Around them come the
    other handlers of the component (the selection, the mention list),
    the handlers of [TeamBuilder] and [App] that build the team it is
    given, and, from the service, [withRetry], the routing of
    [callAIProvider] and the text [runTeamAnalysis] hands to the JSON
    parser.

    The component is an event-driven program: a call of
    [executeSingleTask] runs up to its [await], is resumed later with the
    outcome of the adapter, and may leave a timer behind.  It is modelled
    as a transition system over the React state, the ref
    [stopAutoExecutionRef], the suspended calls and the pending timers;
    every functional state update is applied where the source queues it.
    The outcome of the adapter, the readings of the clock and the order
    in which suspended calls and timers are resumed belong to the
    environment, and the properties hold for all of them. *)

From Stdlib Require Import String Ascii DecimalString.
From Stdlib Require Import List Bool Arith ZArith NArith Lia.
From Stdlib Require Import Relations Wellfounded.
Import ListNotations.

Set Implicit Arguments.

(** ** JavaScript strings

    A JavaScript string is a sequence of UTF-16 code units; the regular
    expression of the delegation protocol (no [u] flag), [trim] and
    [includes] all work on code units. *)

Definition char16 := N.
Definition jsstring := list char16.

(** ASCII literals of the source, as code units. *)
Definition js (s : string) : jsstring :=
  List.map N_of_ascii (list_ascii_of_string s).

Fixpoint jsstring_eqb (a b : jsstring) : bool :=
  match a, b with
  | [], [] => true
  | x :: a', y :: b' => N.eqb x y && jsstring_eqb a' b'
  | _, _ => false
  end.

(** [p] is a prefix of [s]: the rest of [s] after it. *)
Fixpoint starts_with (p s : jsstring) : option jsstring :=
  match p, s with
  | [], _ => Some s
  | a :: p', b :: s' => if N.eqb a b then starts_with p' s' else None
  | _ :: _, [] => None
  end.

(** [String.prototype.includes]. *)
Fixpoint includes (s sub : jsstring) : bool :=
  match starts_with sub s with
  | Some _ => true
  | None => match s with
            | [] => false
            | _ :: s' => includes s' sub
            end
  end.

(** ECMAScript LineTerminator: LF, CR, LS, PS. *)
Definition isLineTerminator (c : char16) : bool :=
  N.eqb c 10 || N.eqb c 13 || N.eqb c 8232 || N.eqb c 8233.

(** ECMAScript WhiteSpace: TAB, VT, FF, SP, NBSP, ZWNBSP and category Zs. *)
Definition isWhiteSpace (c : char16) : bool :=
  N.eqb c 9 || N.eqb c 11 || N.eqb c 12 || N.eqb c 32 || N.eqb c 160
  || N.eqb c 5760 || (N.leb 8192 c && N.leb c 8202)
  || N.eqb c 8239 || N.eqb c 8287 || N.eqb c 12288 || N.eqb c 65279.

Definition isTrimmed (c : char16) : bool := isWhiteSpace c || isLineTerminator c.

Fixpoint trimStart (s : jsstring) : jsstring :=
  match s with
  | c :: s' => if isTrimmed c then trimStart s' else s
  | [] => []
  end.

(** [String.prototype.trim]. *)
Definition trim (s : jsstring) : jsstring :=
  rev (trimStart (rev (trimStart s))).

(** Truthiness of a string: the empty string is falsy. *)
Definition truthy (s : jsstring) : bool :=
  match s with [] => false | _ :: _ => true end.

(** ** The delegation directive [/:::DELEGATE:::(.+?):::(.+?):::/g] *)

Definition sentinel : jsstring := js ":::DELEGATE:::".
Definition sep : jsstring := js ":::".

(** The atom [.]: any code unit but a line terminator. *)
Definition dot (c : char16) : bool := negb (isLineTerminator c).

(** One match of the expression: the text matched and its two groups. *)
Record RegExpMatch := mkMatch {
  fullMatch : jsstring;
  targetNamePartial : jsstring;
  nextInstruction : jsstring
}.

(** The tail [(.+?):::] of the expression, its lazy group already holding
    [acc]: the group stops at the first [:::], and grows by one [.] else.
    The result is the group and the text left after the closing [:::]. *)
Fixpoint grow2 (acc s : jsstring) {struct s} : option (jsstring * jsstring) :=
  match starts_with sep s with
  | Some rest => Some (acc, rest)
  | None =>
      match s with
      | c :: s' => if dot c then grow2 (acc ++ [c]) s' else None
      | [] => None
      end
  end.

Definition group2 (s : jsstring) : option (jsstring * jsstring) :=
  match s with
  | c :: s' => if dot c then grow2 [c] s' else None
  | [] => None
  end.

(** The tail [(.+?):::(.+?):::], the first lazy group already holding
    [acc]: at a [:::] the rest of the expression is tried, and when it
    fails the matcher backtracks and lets the first group grow. *)
Fixpoint grow1 (acc s : jsstring) {struct s}
  : option (jsstring * jsstring * jsstring) :=
  match starts_with sep s with
  | Some rest =>
      match group2 rest with
      | Some (g2, rest') => Some (acc, g2, rest')
      | None =>
          match s with
          | c :: s' => if dot c then grow1 (acc ++ [c]) s' else None
          | [] => None
          end
      end
  | None =>
      match s with
      | c :: s' => if dot c then grow1 (acc ++ [c]) s' else None
      | [] => None
      end
  end.

(** The expression matched at the very start of [s]. *)
Definition match_at (s : jsstring) : option RegExpMatch :=
  match starts_with sentinel s with
  | Some (c :: r) =>
      if dot c then
        match grow1 [c] r with
        | Some (g1, g2, rest) =>
            Some (mkMatch (firstn (length s - length rest) s) g1 g2)
        | None => None
        end
      else None
  | _ => None
  end.

(** The loop [while ((match = delegateRegex.exec(text)) !== null)]: with
    the [g] flag every call resumes at [lastIndex], the end of the
    previous match, and tries each later position in turn.  [skip] is the
    number of code units still covered by the previous match. *)
Fixpoint exec_from (skip : nat) (s : jsstring) : list RegExpMatch :=
  match s with
  | [] => []
  | _ :: s' =>
      match skip with
      | S k => exec_from k s'
      | O =>
          match match_at s with
          | Some m => m :: exec_from (length (fullMatch m) - 1) s'
          | None => exec_from 0 s'
          end
      end
  end.

Definition exec_all (s : jsstring) : list RegExpMatch := exec_from 0 s.

(** [text.replace(delegateRegex, '')]: the same successive matches, each
    replaced by the empty string. *)
Fixpoint replace_from (skip : nat) (s : jsstring) : jsstring :=
  match s with
  | [] => []
  | c :: s' =>
      match skip with
      | S k => replace_from k s'
      | O =>
          match match_at s with
          | Some m => replace_from (length (fullMatch m) - 1) s'
          | None => c :: replace_from 0 s'
          end
      end
  end.

Definition replace_all (s : jsstring) : jsstring := replace_from 0 s.


(** ** The data of the component *)

Inductive ExpertRole :=
| BusinessConsulting | Finance | VentureCapital | Operations | Legal
| Technology | Construction | Marketing | CustomRole.

Record Expert := mkExpert {
  id : jsstring;
  name : jsstring;
  role : ExpertRole;
  avatar : jsstring;
  description : jsstring;
  isCustom : bool
}.

Record TaskResult := mkTaskResult {
  tr_id : jsstring;
  tr_expertId : jsstring;
  tr_expertName : jsstring;
  tr_expertAvatar : jsstring;
  taskDescription : jsstring;
  resultContent : jsstring;
  timestamp : N;
  tr_triggerBy : option jsstring
}.

Inductive Status := pending | success | error.

Record PendingTask := mkPendingTask {
  pt_id : jsstring;
  pt_expertId : jsstring;
  pt_expertName : jsstring;
  pt_expertAvatar : jsstring;
  status : Status;
  errorMessage : option jsstring;
  pt_triggerBy : option jsstring
}.

(** An entry of [followUpTasks]. *)
Record FollowUp := mkFollowUp {
  target : Expert;
  instruction : jsstring
}.

(** The arguments of one call of [executeSingleTask]. *)
Record Invocation := mkInvocation {
  inv_expert : Expert;
  inv_instruction : jsstring;
  inv_triggerBy : option jsstring;
  inv_depth : nat
}.

(** The callback handed to [setTimeout]: it closes over [followUpTasks],
    [expert] and [depth]. *)
Record Timer := mkTimer {
  tm_tasks : list FollowUp;
  tm_expert : Expert;
  tm_depth : nat
}.

(** What the environment supplies to a successful [runExpertTask]: the
    text of the model, the two readings of [Date.now()] and the random
    suffix of the result id. *)
Record Completion := mkCompletion {
  responseText : jsstring;
  idClock : N;
  randomSuffix : jsstring;
  stampClock : N
}.

(** A value thrown by the adapter, seen through [error?.message]. *)
Record JsError := mkJsError { message : option jsstring }.

(** The React state of the component, the ref [stopAutoExecutionRef], and
    the two pieces of the runtime the engine lives in: the calls of
    [executeSingleTask] suspended at their [await], and the timers set
    and not yet fired. *)
Record State := mkState {
  selectedExpertIds : list jsstring;
  taskInput : jsstring;
  taskResults : list TaskResult;
  pendingTasks : list PendingTask;
  activeTaskCount : Z;
  terminationMessage : option jsstring;
  showMentionList : bool;
  stopAutoExecutionRef : bool;
  inflight : list Invocation;
  timers : list Timer
}.

Definition setSelectedExpertIds (v : list jsstring) (st : State) : State :=
  mkState v (taskInput st) (taskResults st) (pendingTasks st)
    (activeTaskCount st) (terminationMessage st) (showMentionList st)
    (stopAutoExecutionRef st) (inflight st) (timers st).

Definition setTaskInput (v : jsstring) (st : State) : State :=
  mkState (selectedExpertIds st) v (taskResults st) (pendingTasks st)
    (activeTaskCount st) (terminationMessage st) (showMentionList st)
    (stopAutoExecutionRef st) (inflight st) (timers st).

(** [setTaskResults(prev => f(prev))]. *)
Definition setTaskResults (f : list TaskResult -> list TaskResult)
  (st : State) : State :=
  mkState (selectedExpertIds st) (taskInput st) (f (taskResults st))
    (pendingTasks st) (activeTaskCount st) (terminationMessage st)
    (showMentionList st) (stopAutoExecutionRef st) (inflight st) (timers st).

(** [setPendingTasks(prev => f(prev))]. *)
Definition setPendingTasks (f : list PendingTask -> list PendingTask)
  (st : State) : State :=
  mkState (selectedExpertIds st) (taskInput st) (taskResults st)
    (f (pendingTasks st)) (activeTaskCount st) (terminationMessage st)
    (showMentionList st) (stopAutoExecutionRef st) (inflight st) (timers st).

(** [setActiveTaskCount(prev => f(prev))]. *)
Definition setActiveTaskCount (f : Z -> Z) (st : State) : State :=
  mkState (selectedExpertIds st) (taskInput st) (taskResults st)
    (pendingTasks st) (f (activeTaskCount st)) (terminationMessage st)
    (showMentionList st) (stopAutoExecutionRef st) (inflight st) (timers st).

Definition setTerminationMessage (v : option jsstring) (st : State) : State :=
  mkState (selectedExpertIds st) (taskInput st) (taskResults st)
    (pendingTasks st) (activeTaskCount st) v (showMentionList st)
    (stopAutoExecutionRef st) (inflight st) (timers st).

Definition setShowMentionList (v : bool) (st : State) : State :=
  mkState (selectedExpertIds st) (taskInput st) (taskResults st)
    (pendingTasks st) (activeTaskCount st) (terminationMessage st) v
    (stopAutoExecutionRef st) (inflight st) (timers st).

Definition setStop (v : bool) (st : State) : State :=
  mkState (selectedExpertIds st) (taskInput st) (taskResults st)
    (pendingTasks st) (activeTaskCount st) (terminationMessage st)
    (showMentionList st) v (inflight st) (timers st).

Definition setInflight (f : list Invocation -> list Invocation)
  (st : State) : State :=
  mkState (selectedExpertIds st) (taskInput st) (taskResults st)
    (pendingTasks st) (activeTaskCount st) (terminationMessage st)
    (showMentionList st) (stopAutoExecutionRef st) (f (inflight st))
    (timers st).

Definition setTimers (f : list Timer -> list Timer) (st : State) : State :=
  mkState (selectedExpertIds st) (taskInput st) (taskResults st)
    (pendingTasks st) (activeTaskCount st) (terminationMessage st)
    (showMentionList st) (stopAutoExecutionRef st) (inflight st)
    (f (timers st)).

(** The list without its [i]-th element. *)
Definition remove_at {A} (i : nat) (l : list A) : list A :=
  firstn i l ++ skipn (S i) l.

(** ** Literals of the source *)

(** The decimal digits of a number in a template literal. *)
Definition decimal (n : N) : jsstring :=
  js (NilEmpty.string_of_uint (N.to_uint n)).

(** The fallback of [error?.message || ...]. *)
Definition unknownError : jsstring := [26410; 30693; 38169; 35823]%N.

(** The three validation messages of [handleExecuteBatchTasks]. *)
Definition alertNoExpert : jsstring :=
  [35831; 33267; 23569; 36873; 25321; 19968; 20301; 19987; 23478]%N.
Definition alertNoTask : jsstring :=
  [35831; 36755; 20837; 20219; 21153; 20869; 23481]%N.
Definition alertNoProject : jsstring :=
  [35831; 20808; 22312; 8220; 19987; 23478; 22242; 32452; 24314; 8221;
   39029; 38754; 23436; 21892; 39033; 30446; 32972; 26223]%N.

(** The notice of [handleStopExecution]. *)
Definition terminationNotice : jsstring :=
  [9888; 65039; 32; 29992; 25143; 24050; 25163; 21160; 32456; 27490; 20114;
   21160; 65281; 24403; 21069; 27491; 22312; 36827; 34892; 30340; 20219;
   21153; 22238; 22797; 23436; 25104; 21518; 65292; 23558; 19981; 20877;
   35302; 21457; 26032; 30340; 33258; 21160; 25351; 20196; 12290]%N.

(** [const MAX_DEPTH = 2]. *)
Definition MAX_DEPTH : nat := 2.

(** [prev => Math.max(0, prev - 1)]. *)
Definition decrement (prev : Z) : Z := Z.max 0 (prev - 1).

(** [Set.prototype.has], [delete] and [add] on the selection, kept as the
    list of its members. *)
Definition has (l : list jsstring) (x : jsstring) : bool :=
  existsb (jsstring_eqb x) l.

Definition set_delete (l : list jsstring) (x : jsstring) : list jsstring :=
  filter (fun y => negb (jsstring_eqb x y)) l.

Definition set_add (l : list jsstring) (x : jsstring) : list jsstring :=
  if has l x then l else l ++ [x].

(** [val.endsWith('@')]. *)
Definition endsWithAt (val : jsstring) : bool :=
  match rev val with
  | c :: _ => N.eqb c 64
  | [] => false
  end.

(** ** [runExpertTask]: the record built around the text of the model *)

Definition runExpertTask (expert : Expert) (taskDescription : jsstring)
  (c : Completion) : TaskResult :=
  mkTaskResult
    (js "task_" ++ decimal (idClock c) ++ js "_" ++ randomSuffix c)
    (id expert) (name expert) (avatar expert)
    taskDescription (responseText c) (stampClock c) None.

Definition withTriggerBy (r : TaskResult) (t : jsstring) : TaskResult :=
  mkTaskResult (tr_id r) (tr_expertId r) (tr_expertName r)
    (tr_expertAvatar r) (taskDescription r) (resultContent r)
    (timestamp r) (Some t).

Definition withResultContent (r : TaskResult) (t : jsstring) : TaskResult :=
  mkTaskResult (tr_id r) (tr_expertId r) (tr_expertName r)
    (tr_expertAvatar r) (taskDescription r) t (timestamp r) (tr_triggerBy r).

(** [{ ...p, status: 'error', errorMessage: errMessage }]. *)
Definition withError (p : PendingTask) (errMessage : jsstring) : PendingTask :=
  mkPendingTask (pt_id p) (pt_expertId p) (pt_expertName p)
    (pt_expertAvatar p) error (Some errMessage) (pt_triggerBy p).

(** The marker of step 1 of [executeSingleTask], its id read off the
    clock: [pending_${Date.now()}_${expert.id}]. *)
Definition newPending (now : N) (inv : Invocation) : PendingTask :=
  let expert := inv_expert inv in
  let pendingId := js "pending_" ++ decimal now ++ js "_" ++ id expert in
  mkPendingTask pendingId (id expert) (name expert) (avatar expert)
    pending None (inv_triggerBy inv).

(** [error?.message || unknownError]. *)
Definition errMessage (e : JsError) : jsstring :=
  match message e with
  | Some m => if truthy m then m else unknownError
  | None => unknownError
  end.

(** ** A team of three, to run the engine on *)

(** Lower case on the letters A to Z. *)
Definition lowerUnit (c : char16) : char16 :=
  if N.leb 65 c && N.leb c 90 then (c + 32)%N else c.

Definition asciiLower (s : jsstring) : jsstring := map lowerUnit s.

Definition alice : Expert :=
  mkExpert (js "exp_1") (js "Alice") VentureCapital (js "alice.png")
    (js "investor") false.
Definition bob : Expert :=
  mkExpert (js "exp_2") (js "Bob") Legal (js "bob.png") (js "lawyer") false.
Definition carol : Expert :=
  mkExpert (js "exp_3") (js "Carol") Technology (js "carol.png")
    (js "engineer") false.

Definition sampleTeam : list Expert := [alice; bob; carol].
Definition sampleProject : jsstring := js "A marketplace for used books".

Definition sampleClock (k : nat) : N := (1700000000000 + N.of_nat k)%N.

Definition reply (text : string) : Completion :=
  mkCompletion (js text) 1700000000500%N (js "k3x9z") 1700000000501%N.

Definition unauthorized : JsError := mkJsError (Some (js "401 Unauthorized")).

(** Alice and Carol selected, an instruction typed in. *)
Definition sampleReady : State :=
  mkState [js "exp_1"; js "exp_3"] (js "Review the budget") [] [] 0%Z None
    false false [] [].

(** Replies of the model: plain, with one directive, with two directives
    naming the same teammate. *)
Definition plainReply : Completion := reply "The budget holds.".
Definition toBob : Completion :=
  reply "I will ask counsel. :::DELEGATE:::Bob:::check the contract:::".
Definition toBobTwice : Completion :=
  reply ":::DELEGATE:::Bob:::check the contract::: :::DELEGATE:::bob:::check the lease:::".

(** Bob running twice at depth 1 on behalf of Alice, both markers
    pending, Carol's marker in error from an earlier batch. *)
Definition bobFirst : Invocation :=
  mkInvocation bob (js "check the contract") (Some (js "Alice")) 1.
Definition bobSecond : Invocation :=
  mkInvocation bob (js "check the lease") (Some (js "Alice")) 1.
Definition carolFailed : PendingTask :=
  mkPendingTask (js "pending_1690000000000_exp_3") (js "exp_3") (js "Carol")
    (js "carol.png") error (Some (js "quota exceeded")) None.
Definition bobTwice : State :=
  mkState [js "exp_1"] [] [] 
    [carolFailed; newPending 1700000001000 bobFirst;
     newPending 1700000001001 bobSecond]
    2%Z None false false [bobFirst; bobSecond] [].

(** Alice running at depth 0. *)
Definition aliceRoot : Invocation :=
  mkInvocation alice (js "Review the budget") None 0.
Definition aliceRunning : State :=
  mkState [js "exp_1"] [] [] [newPending 1700000000000 aliceRoot]
    1%Z None false false [aliceRoot] [].

(** A team on which one name contains another. *)
Definition bobby : Expert :=
  mkExpert (js "exp_4") (js "Bobby") Marketing (js "bobby.png")
    (js "marketer") false.

(** A directive nested around another one. *)
Definition nestedText : jsstring :=
  js ":::DELE:::DELEGATE:::a:::b:::GATE:::x:::y:::".

(** ** The callers: the team as [TeamBuilder] and [App] hand it over *)

(** [handleToggleExpert] of [TeamBuilder]: an expert on the team leaves
    it, with every record of the same id; another one joins at the end. *)
Definition handleToggleExpert (team : list Expert) (expert : Expert)
  : list Expert :=
  match find (fun e => jsstring_eqb (id e) (id expert)) team with
  | Some _ => filter (fun e => negb (jsstring_eqb (id e) (id expert))) team
  | None => team ++ [expert]
  end.

(** [handleExpertUpdate] of [App], on one of the two lists it maps over:
    [prev.map(e => e.id === updatedExpert.id ? updatedExpert : e)]. *)
Definition handleExpertUpdate (updatedExpert : Expert) (prev : list Expert)
  : list Expert :=
  map (fun e => if jsstring_eqb (id e) (id updatedExpert)
                then updatedExpert else e) prev.

(** [new Set(ids)]: the members in the order they first come. *)
Definition newSet (ids : list jsstring) : list jsstring :=
  fold_left set_add ids [].

(** ** [withRetry]

    The operation is seen through the outcome of its successive calls;
    an error is seen through [error?.message] and
    [error?.error?.message]. *)

Record RetryError := mkRetryError {
  re_message : option jsstring;
  re_inner : option jsstring
}.

Inductive Outcome (T : Type) :=
| Resolved (v : T)
| Rejected (e : RetryError).

Arguments Resolved {T} v.
Arguments Rejected {T} e.

(** What [withRetry] ends with: a value returned, or [lastError] thrown,
    which is [undefined] when no call was made. *)
Inductive RetryEnd (T : Type) :=
| Returned (v : T)
| Thrown (lastError : option RetryError).

Arguments Returned {T} v.
Arguments Thrown {T} lastError.

(** The end, the number of calls made and the [waitTime] of every wait,
    in order (each wait lasts a random jitter below one second more). *)
Record RetryRun (T : Type) := mkRetryRun {
  rr_end : RetryEnd T;
  rr_calls : nat;
  rr_waits : list N
}.

Arguments mkRetryRun {T} rr_end rr_calls rr_waits.
Arguments rr_end {T} r.
Arguments rr_calls {T} r.
Arguments rr_waits {T} r.

Definition orElse (a : option jsstring) (b : jsstring) : jsstring :=
  match a with
  | Some m => if truthy m then m else b
  | None => b
  end.

(** [error?.message || error?.error?.message || '']. *)
Definition retryMessage (e : RetryError) : jsstring :=
  orElse (re_message e) (orElse (re_inner e) []).

(** [isRateLimit || isOverloaded || isFetchError]. *)
Definition retryable (e : RetryError) : bool :=
  let errorMessage := retryMessage e in
  (includes errorMessage (js "429")
   || includes errorMessage (js "Quota exceeded"))
  || (includes errorMessage (js "503")
      || includes errorMessage (js "Overloaded"))
  || includes errorMessage (js "Failed to fetch").

(** The [for] loop with [remaining] attempts left, at [attempt].  The
    [waitTime] is the exact product, which the floating point of the
    source gives as long as it stays below 2^53; the jitter added to
    each wait is drawn at random and belongs to no run. *)
Fixpoint retryLoop {T} (operation : nat -> Outcome T) (baseDelay : N)
  (remaining attempt : nat) (lastError : option RetryError) : RetryRun T :=
  match remaining with
  | O => mkRetryRun (Thrown lastError) 0 []
  | S remaining' =>
      match operation attempt with
      | Resolved v => mkRetryRun (Returned v) 1 []
      | Rejected err =>
          if retryable err then
            let waitTime := (baseDelay * 2 ^ N.of_nat attempt)%N in
            let r := retryLoop operation baseDelay remaining' (S attempt)
                       (Some err) in
            mkRetryRun (rr_end r) (S (rr_calls r)) (waitTime :: rr_waits r)
          else mkRetryRun (Thrown (Some err)) 1 []
      end
  end.

Definition withRetry {T} (operation : nat -> Outcome T) (maxRetries : nat)
  (baseDelay : N) : RetryRun T :=
  retryLoop operation baseDelay maxRetries 0 None.

(** The [k] calls from [attempt] on all fail with an error worth a
    retry. *)
Definition fail_retryably {T} (operation : nat -> Outcome T)
  (attempt k : nat) : Prop :=
  forall j, j < k ->
  exists e, operation (attempt + j) = Rejected e /\ retryable e = true.

(** The [waitTime] of the waits that follow the attempts [attempt] to
    [attempt + k - 1]. *)
Definition backoff (baseDelay : N) (attempt k : nat) : list N :=
  map (fun j => (baseDelay * 2 ^ N.of_nat j)%N) (seq attempt k).

(** ** [callAIProvider]: where a request goes *)

Inductive Provider :=
| Google | DeepSeek | OpenAI | Aliyun | ByteDance | Zhipu | Moonshot.

Record AIModelConfig := mkAIModelConfig {
  m_id : jsstring;
  m_name : jsstring;
  provider : Provider;
  modelId : jsstring;
  isEnabled : bool;
  apiKey : option jsstring;
  baseUrl : option jsstring;
  corsProxy : option jsstring;
  isVerified : option bool
}.

(** Truthiness of an optional string. *)
Definition present (s : option jsstring) : bool :=
  match s with
  | Some t => truthy t
  | None => false
  end.

(** [s.endsWith('/')]. *)
Definition endsWithSlash (s : jsstring) : bool :=
  match rev s with
  | c :: _ => N.eqb c 47
  | [] => false
  end.

Definition chatPath : jsstring := js "/chat/completions".
Definition generatePath : jsstring := js "generateContent".

(** The block "Fix Endpoint": the chat path is appended, after one
    trailing slash is dropped, unless the endpoint already names a path. *)
Definition fixEndpoint (endpoint : jsstring) : jsstring :=
  if negb (includes endpoint chatPath) && negb (includes endpoint generatePath)
  then (if endsWithSlash endpoint then removelast endpoint else endpoint)
       ++ chatPath
  else endpoint.

(** [proxyUrl]: the trimmed proxy, with a slash at its end. *)
Definition proxyUrl (corsProxy : jsstring) : jsstring :=
  if endsWithSlash (trim corsProxy) then trim corsProxy
  else trim corsProxy ++ js "/".

Definition isMoonshot (p : Provider) : bool :=
  match p with
  | Moonshot => true
  | _ => false
  end.

(** What [callAIProvider] does with a configuration, up to the request:
    it throws for want of a key, hands over to [callBackendProxy], or
    posts to an endpoint of its own. *)
Inductive Route :=
| MissingKey (errorMessage : jsstring)
| Backend (jsonMode : bool)
| Direct (endpoint : jsstring) (model : jsstring) (jsonObject : bool)
    (authorization : jsstring) (xRequestedWith : bool).

Definition callAIProvider_route (config : AIModelConfig) (jsonMode : bool)
  : Route :=
  if negb (present (apiKey config))
  then MissingKey (js "Model " ++ m_name config ++ js " is missing API Key")
  else
    let hasCustomProxy := present (corsProxy config) in
    if negb hasCustomProxy then Backend jsonMode
    else
      let endpoint :=
        match baseUrl config with
        | Some b => if truthy (trim b) then trim b else []
        | None => []
        end in
      let endpoint := fixEndpoint endpoint in
      let endpoint :=
        match corsProxy config with
        | Some p => if truthy p then proxyUrl p ++ endpoint else endpoint
        | None => endpoint
        end in
      Direct endpoint (trim (modelId config))
        (jsonMode && negb (isMoonshot (provider config)))
        (js "Bearer "
         ++ trim (match apiKey config with Some k => k | None => [] end))
        (present (corsProxy config)).

(** ** [runTeamAnalysis]: the text handed to [JSON.parse] *)

(** The longest prefix of [s] that ends with a closing brace: what
    [[\s\S]*\}] matches at the start of [s]. *)
Fixpoint upToLastBrace (s : jsstring) : option jsstring :=
  match s with
  | [] => None
  | c :: s' =>
      match upToLastBrace s' with
      | Some p => Some (c :: p)
      | None => if N.eqb c 125 then Some [c] else None
      end
  end.

(** [responseText.match(/\{[\s\S]*\}/)]: the first position where the
    expression matches, and the longest match there. *)
Fixpoint jsonMatch (s : jsstring) : option jsstring :=
  match s with
  | [] => None
  | c :: s' =>
      if N.eqb c 123 then
        match upToLastBrace s' with
        | Some p => Some (c :: p)
        | None => jsonMatch s'
        end
      else jsonMatch s'
  end.

(** [jsonMatch ? jsonMatch[0] : responseText]. *)
Definition jsonStr (responseText : jsstring) : jsstring :=
  match jsonMatch responseText with
  | Some m => m
  | None => responseText
  end.

(** ** Samples for the service *)

(** An operation that is rate-limited twice and then answers. *)
Definition rateLimited : RetryError :=
  mkRetryError (Some (js "429 Too Many Requests")) None.
Definition flaky (k : nat) : Outcome jsstring :=
  match k with
  | 0 | 1 => Rejected rateLimited
  | _ => Resolved (js "ok")
  end.

(** An operation that is refused once and for all. *)
Definition refused : RetryError :=
  mkRetryError (Some (js "401 Unauthorized")) None.
Definition denied (k : nat) : Outcome jsstring := Rejected refused.

(** An operation that is overloaded for ever. *)
Definition overloaded : RetryError :=
  mkRetryError None (Some (js "The model is Overloaded")).
Definition swamped (k : nat) : Outcome jsstring := Rejected overloaded.

(** A model reached through a CORS proxy, and the same without a key. *)
Definition proxied : AIModelConfig :=
  mkAIModelConfig (js "m_1") (js "DeepSeek V3") DeepSeek (js " deepseek-chat ")
    true (Some (js " sk-1 ")) (Some (js " https://api.deepseek.com/ "))
    (Some (js "https://cors.example.org")) None.
Definition keyless : AIModelConfig :=
  mkAIModelConfig (js "m_1") (js "DeepSeek V3") DeepSeek (js "deepseek-chat")
    true (Some []) (Some (js "https://api.deepseek.com")) None None.

(** A reply that wraps its JSON in a Markdown fence. *)
Definition fencedReply : jsstring :=
  js "```json {overallScore: 70} ``` and {more: 1} done".

Section TeamTasks.

(** [String.prototype.toLowerCase], a function of the platform. *)
Variable toLowerCase : jsstring -> jsstring.

(** The props of the component. *)
Variable team : list Expert.
Variable projectDescription : jsstring.

(** *** Step 4 of [executeSingleTask]: the delegation protocol *)

(** [team.find(e => e.name.toLowerCase().includes(
      targetNamePartial.trim().toLowerCase()))]. *)
Definition findTarget (targetNamePartial : jsstring) : option Expert :=
  find (fun e => includes (toLowerCase (name e))
                   (toLowerCase (trim targetNamePartial))) team.

(** The body of the [while] loop over the successive matches. *)
Fixpoint collect (expert : Expert) (ms : list RegExpMatch) : list FollowUp :=
  match ms with
  | [] => []
  | m :: ms' =>
      match findTarget (targetNamePartial m) with
      | Some targetExpert =>
          if negb (jsstring_eqb (id targetExpert) (id expert))
          then mkFollowUp targetExpert (nextInstruction m) :: collect expert ms'
          else collect expert ms'
      | None => collect expert ms'
      end
  end.

(** [followUpTasks] after the guarded loop. *)
Definition followUpTasks (expert : Expert) (depth : nat) (text : jsstring)
  : list FollowUp :=
  if depth <? MAX_DEPTH then collect expert (exec_all text) else [].

(** The parser as one function: the follow-up list and the cleaned text. *)
Definition extractDelegations (expert : Expert) (depth : nat)
  (text : jsstring) : jsstring * list FollowUp :=
  (replace_all text, followUpTasks expert depth text).

(** *** [executeSingleTask] *)

(** From the call to the [await]: the stop check, the pending marker, and
    the call left suspended on the adapter. *)
Definition executeSingleTask (now : N) (inv : Invocation) (st : State) : State :=
  if stopAutoExecutionRef st then setActiveTaskCount decrement st
  else
    setInflight (fun l => l ++ [inv])
      (setPendingTasks (fun prev => prev ++ [newPending now inv]) st).

(** [followUpTasks.forEach(...)] and [selectedExperts.forEach(...)]: the
    calls in order, the [k]-th one reading the clock at [clock k]. *)
Fixpoint launch (clock : nat -> N) (k : nat) (invs : list Invocation)
  (st : State) : State :=
  match invs with
  | [] => st
  | inv :: rest => launch clock (S k) rest (executeSingleTask (clock k) inv st)
  end.

(** After the [await], the adapter having returned: steps 3 to 6 and the
    [finally] block. *)
Definition executeSingleTask_fulfilled (inv : Invocation) (c : Completion)
  (st : State) : State :=
  let expert := inv_expert inv in
  let depth := inv_depth inv in
  let result := runExpertTask expert (inv_instruction inv) c in
  let result :=
    match inv_triggerBy inv with
    | Some t => if truthy t then withTriggerBy result t else result
    | None => result
    end in
  let tasks := followUpTasks expert depth (resultContent result) in
  let result := withResultContent result (replace_all (resultContent result)) in
  let st := setTaskResults (fun prev => result :: prev) st in
  let st :=
    setPendingTasks
      (filter (fun p => negb (jsstring_eqb (pt_expertId p) (id expert)))) st in
  let willContinue :=
    (0 <? length tasks) && (depth <? MAX_DEPTH)
    && negb (stopAutoExecutionRef st) in
  let st :=
    if willContinue then
      setTimers (fun l => l ++ [mkTimer tasks expert depth])
        (setActiveTaskCount (fun prev => prev + Z.of_nat (length tasks))%Z st)
    else st in
  setActiveTaskCount decrement st.

(** After the [await], the adapter having thrown: the [catch] and the
    [finally] blocks. *)
Definition executeSingleTask_rejected (inv : Invocation) (e : JsError)
  (st : State) : State :=
  let expert := inv_expert inv in
  let st :=
    setPendingTasks
      (map (fun p => if jsstring_eqb (pt_expertId p) (id expert)
                     then withError p (errMessage e) else p)) st in
  setActiveTaskCount decrement st.

(** The timer callback. *)
Definition timeout (clock : nat -> N) (tm : Timer) (st : State) : State :=
  launch clock 0
    (map (fun task => mkInvocation (target task) (instruction task)
                        (Some (name (tm_expert tm))) (S (tm_depth tm)))
       (tm_tasks tm))
    st.

(** *** The handlers *)

Definition handleStopExecution (st : State) : State :=
  setTerminationMessage (Some terminationNotice) (setStop true st).

(** The new state and the message handed to [alert], if any. *)
Definition handleExecuteBatchTasks (clock : nat -> N) (st : State)
  : State * option jsstring :=
  if (length (selectedExpertIds st) =? 0)%nat then (st, Some alertNoExpert)
  else if negb (truthy (trim (taskInput st))) then (st, Some alertNoTask)
  else if negb (truthy (trim projectDescription)) then (st, Some alertNoProject)
  else
    let selectedExperts :=
      filter (fun e => has (selectedExpertIds st) (id e)) team in
    let st1 :=
      setActiveTaskCount (fun _ => Z.of_nat (length selectedExperts))
        (setShowMentionList false
           (setTaskInput []
              (setTerminationMessage None (setStop false st)))) in
    (launch clock 0
       (map (fun expert => mkInvocation expert (taskInput st) None 0)
          selectedExperts)
       st1,
     None).

Definition handleDeleteResult (rid : jsstring) (st : State) : State :=
  setTaskResults (filter (fun r => negb (jsstring_eqb (tr_id r) rid))) st.

Definition handleClearPending (expertId : jsstring) (st : State) : State :=
  setPendingTasks
    (filter (fun p => negb (jsstring_eqb (pt_expertId p) expertId))) st.

Definition handleInputStringChange (val : jsstring) (st : State) : State :=
  let st := setTaskInput val st in
  if endsWithAt val then setShowMentionList true st
  else if showMentionList st && negb (includes val [64%N])
       then setShowMentionList false st
       else st.

Definition toggleExpertSelection (i : jsstring) (st : State) : State :=
  if has (selectedExpertIds st) i
  then setSelectedExpertIds (set_delete (selectedExpertIds st) i) st
  else setSelectedExpertIds (set_add (selectedExpertIds st) i) st.

(** [const isProcessing = activeTaskCount > 0]. *)
Definition isProcessing (st : State) : bool := (0 <? activeTaskCount st)%Z.

(** The [disabled] attribute of the execute button. *)
Definition executeDisabled (st : State) : bool :=
  isProcessing st || negb (truthy (trim (taskInput st)))
  || (length (selectedExpertIds st) =? 0)%nat.

(** *** The component as a transition system

    What can happen next: the user acts on a control the page shows, a
    suspended call is resumed with the outcome of the adapter, or a timer
    fires.  [selectAllExperts] and [handleMentionSelect] only change the
    selection and the input, which [EvToggle] and [EvInput] already do. *)
Inductive Event :=
| EvInput (val : jsstring)
| EvToggle (k : nat)
| EvExecute (clock : nat -> N)
| EvStop
| EvClearPending (k : nat)
| EvDeleteResult (k : nat)
| EvClearResults
| EvDismissNotice
| EvFulfilled (i : nat) (c : Completion)
| EvRejected (i : nat) (e : JsError)
| EvTimeout (j : nat) (clock : nat -> N).

(** An event takes place only when it can: the execute button is not
    disabled, the stop button is rendered while [isProcessing], a clear
    button sits on an error marker and passes the expert id of that
    marker, a delete button sits on a result, a suspended call or a timer
    is there to be resumed.  A suspended call leaves [inflight] when it is
    resumed, a timer leaves [timers] when it fires. *)
Definition step (ev : Event) (st : State) : option State :=
  match ev with
  | EvInput val => Some (handleInputStringChange val st)
  | EvToggle k =>
      match nth_error team k with
      | Some expert => Some (toggleExpertSelection (id expert) st)
      | None => None
      end
  | EvExecute clock =>
      if executeDisabled st then None
      else Some (fst (handleExecuteBatchTasks clock st))
  | EvStop =>
      if isProcessing st then Some (handleStopExecution st) else None
  | EvClearPending k =>
      match nth_error (pendingTasks st) k with
      | Some task =>
          match status task with
          | error => Some (handleClearPending (pt_expertId task) st)
          | _ => None
          end
      | None => None
      end
  | EvDeleteResult k =>
      match nth_error (taskResults st) k with
      | Some result => Some (handleDeleteResult (tr_id result) st)
      | None => None
      end
  | EvClearResults =>
      match taskResults st with
      | [] => None
      | _ :: _ => Some (setTaskResults (fun _ => []) st)
      end
  | EvDismissNotice =>
      match terminationMessage st with
      | Some _ => Some (setTerminationMessage None st)
      | None => None
      end
  | EvFulfilled i c =>
      match nth_error (inflight st) i with
      | Some inv =>
          Some (executeSingleTask_fulfilled inv c
                  (setInflight (remove_at i) st))
      | None => None
      end
  | EvRejected i e =>
      match nth_error (inflight st) i with
      | Some inv =>
          Some (executeSingleTask_rejected inv e
                  (setInflight (remove_at i) st))
      | None => None
      end
  | EvTimeout j clock =>
      match nth_error (timers st) j with
      | Some tm => Some (timeout clock tm (setTimers (remove_at j) st))
      | None => None
      end
  end.

(** The [useState] initial values: the first expert of the team selected. *)
Definition initialState : State :=
  mkState (match team with e :: _ => [id e] | [] => [] end)
    [] [] [] 0%Z None false false [] [].

Inductive reachable : State -> Prop :=
| reachable_init : reachable initialState
| reachable_step ev st st' :
    reachable st -> step ev st = Some st' -> reachable st'.

(** Running a list of events, stopping at the first one not enabled. *)
Fixpoint run (evs : list Event) (st : State) : option State :=
  match evs with
  | [] => Some st
  | ev :: evs' =>
      match step ev st with
      | Some st' => run evs' st'
      | None => None
      end
  end.

(** ** Notions used to state the properties *)

(** The text [t] is the text [s] with the successive matches [ms] cut out:
    reading [s] from the left, a code unit at which the expression does
    not match is kept, and a match is removed whole, the reading resuming
    right after it. *)
Inductive Removed : jsstring -> list RegExpMatch -> jsstring -> Prop :=
| Removed_nil : Removed [] [] []
| Removed_keep c s ms t :
    match_at (c :: s) = None -> Removed s ms t ->
    Removed (c :: s) ms (c :: t)
| Removed_cut m rest ms t :
    match_at (fullMatch m ++ rest) = Some m -> Removed rest ms t ->
    Removed (fullMatch m ++ rest) (m :: ms) t.

(** The markers a [forEach] of calls appends when the flag is clear. *)
Fixpoint launchMarkers (clock : nat -> N) (k : nat) (invs : list Invocation)
  : list PendingTask :=
  match invs with
  | [] => []
  | inv :: rest => newPending (clock k) inv :: launchMarkers clock (S k) rest
  end.

(** The invocations a timer holds, as its callback will start them. *)
Definition timerInvocations (tm : Timer) : list Invocation :=
  map (fun task => mkInvocation (target task) (instruction task)
                     (Some (name (tm_expert tm))) (S (tm_depth tm)))
    (tm_tasks tm).

(** Invocations waiting in timers. *)
Definition scheduled (l : list Timer) : nat :=
  list_sum (map (fun tm => length (tm_tasks tm)) l).

(** Invocations not yet settled: suspended on the adapter or waiting in a
    timer. *)
Definition outstanding (st : State) : nat :=
  length (inflight st) + scheduled (timers st).

(** The events of the engine itself, as opposed to the acts of the user. *)
Definition engine_event (ev : Event) : bool :=
  match ev with
  | EvFulfilled _ _ | EvRejected _ _ | EvTimeout _ _ => true
  | _ => false
  end.

Definition is_execute (ev : Event) : bool :=
  match ev with
  | EvExecute _ => true
  | _ => false
  end.

(** Delegation hops an invocation at depth [d] can still be followed by. *)
Definition hops_left (d : nat) : nat := MAX_DEPTH - d.

(** Invocations, started or scheduled, with [r] hops left. *)
Definition with_hops (r : nat) (st : State) : nat :=
  list_sum (map (fun inv => if hops_left (inv_depth inv) =? r then 1 else 0)
              (inflight st))
  + list_sum (map (fun tm => if hops_left (S (tm_depth tm)) =? r
                             then length (tm_tasks tm) else 0)
                (timers st)).

Definition measure (st : State) : nat * (nat * (nat * nat)) :=
  (with_hops 2 st, (with_hops 1 st, (with_hops 0 st, length (timers st)))).

Definition measure_lt : relation (nat * (nat * (nat * nat))) :=
  slexprod _ _ lt (slexprod _ _ lt (slexprod _ _ lt lt)).

(** One step of the engine. *)
Definition engine_step (st st' : State) : Prop :=
  exists ev, engine_event ev = true /\ step ev st = Some st'.

(** The result [executeSingleTask] stores on success. *)
Definition storedResult (inv : Invocation) (c : Completion) : TaskResult :=
  let r := runExpertTask (inv_expert inv) (inv_instruction inv) c in
  let r := match inv_triggerBy inv with
           | Some t => if truthy t then withTriggerBy r t else r
           | None => r
           end in
  withResultContent r (replace_all (responseText c)).

Definition willContinue (inv : Invocation) (c : Completion) (st : State) : bool :=
  (0 <? length (followUpTasks (inv_expert inv) (inv_depth inv) (responseText c)))
  && (inv_depth inv <? MAX_DEPTH) && negb (stopAutoExecutionRef st).


(** The counter counts the invocations not yet settled. *)
Definition counter_inv (st : State) : Prop :=
  activeTaskCount st = Z.of_nat (outstanding st).

(** A marker still [pending] has an invocation of its expert suspended on
    the adapter. *)
Definition marker_inv (st : State) : Prop :=
  forall p, In p (pendingTasks st) -> status p = pending ->
  exists inv, In inv (inflight st) /\ id (inv_expert inv) = pt_expertId p.

(** No invocation, started or scheduled, lies deeper than [MAX_DEPTH]. *)
Definition depth_inv (st : State) : Prop :=
  (forall inv, In inv (inflight st) -> inv_depth inv <= MAX_DEPTH)
  /\ (forall tm, In tm (timers st) -> S (tm_depth tm) <= MAX_DEPTH).


(** *** The other handlers of the selection *)

(** [selectAllExperts]. *)
Definition selectAllExperts (st : State) : State :=
  if length (selectedExpertIds st) =? length team
  then setSelectedExpertIds [] st
  else setSelectedExpertIds (newSet (map id team)) st.

(** [handleMentionSelect]. *)
Definition handleMentionSelect (expert : Expert) (st : State) : State :=
  setShowMentionList false
    (setSelectedExpertIds (set_add (selectedExpertIds st) (id expert))
       (setTaskInput (taskInput st ++ name expert ++ [32%N]) st)).

(** The effect run when the team changes: the selection keeps the ids
    still on the team. *)
Definition syncSelection (prev : list jsstring) : list jsstring :=
  let currentTeamIds := newSet (map id team) in
  fold_left (fun next i => if has currentTeamIds i then set_add next i
                           else next)
    prev [].

(** The selection holds each id once, and ids of the team only. *)
Definition selection_ok (sel : list jsstring) : Prop :=
  NoDup sel /\ forall i, In i sel -> exists e, In e team /\ id e = i.

(** The text holds a well-formed directive: the sentinel, a name and an
    instruction, neither empty nor broken by a line terminator, each
    followed by [:::]. *)
Definition has_directive (s : jsstring) : Prop :=
  exists pre g1 g2 post,
    s = pre ++ sentinel ++ g1 ++ sep ++ g2 ++ sep ++ post
    /\ g1 <> [] /\ g2 <> []
    /\ forallb dot g1 = true /\ forallb dot g2 = true.

(** The events of a run that store a result. *)
Definition is_fulfilled (ev : Event) : bool :=
  match ev with
  | EvFulfilled _ _ => true
  | _ => false
  end.

(** The events by which the user takes results away. *)
Definition removes_results (ev : Event) : bool :=
  match ev with
  | EvDeleteResult _ | EvClearResults => true
  | _ => false
  end.

(** The second group stops at the first [:::] that follows its first
    code unit. *)
Definition lazy_instruction (g2 post : jsstring) : Prop :=
  forall x1 x2, g2 = x1 ++ x2 -> x1 <> [] -> x2 <> [] ->
  starts_with sep (x2 ++ sep ++ post) = None.

(** The lower-cased name of [e] holds the lower-cased, trimmed target
    name as a run of consecutive code units. *)
Definition name_holds (e : Expert) (targetName : jsstring) : Prop :=
  exists pre post,
    toLowerCase (name e) = pre ++ toLowerCase (trim targetName) ++ post.

(** Everything the engine holds belongs to a member of the team: the
    suspended invocations, the timers with their tasks, which are never
    empty and never name the delegating expert, the markers and the
    results. *)
Definition on_team (st : State) : Prop :=
  (forall inv, In inv (inflight st) -> In (inv_expert inv) team)
  /\ (forall tm, In tm (timers st) ->
        In (tm_expert tm) team /\ tm_tasks tm <> []
        /\ forall t, In t (tm_tasks tm) ->
             In (target t) team /\ id (target t) <> id (tm_expert tm))
  /\ (forall p, In p (pendingTasks st) ->
        exists e, In e team /\ pt_expertId p = id e
                  /\ pt_expertName p = name e)
  /\ (forall r, In r (taskResults st) ->
        exists e, In e team /\ tr_expertId r = id e
                  /\ tr_expertName r = name e).

(** * Properties *)

(** ** Strings and the directive expression *)

Lemma jsstring_eqb_eq a b : jsstring_eqb a b = true <-> a = b.
Proof.
  revert b; induction a as [|x a IH]; intros [|y b]; simpl;
    try (split; congruence).
  rewrite andb_true_iff, N.eqb_eq, IH. split.
  - intros [-> ->]; reflexivity.
  - intros E; injection E; auto.
Qed.

Lemma jsstring_eqb_refl a : jsstring_eqb a a = true.
Proof. apply jsstring_eqb_eq; reflexivity. Qed.

Lemma jsstring_eqb_neq a b : jsstring_eqb a b = false <-> a <> b.
Proof.
  rewrite <- jsstring_eqb_eq. destruct (jsstring_eqb a b); split; congruence.
Qed.

Lemma starts_with_app p s r : starts_with p s = Some r -> s = p ++ r.
Proof.
  revert s; induction p as [|a p IH]; intros s H; simpl in H.
  - injection H as ->; reflexivity.
  - destruct s as [|b s]; [discriminate|].
    destruct (N.eqb a b) eqn:E; [|discriminate].
    apply N.eqb_eq in E; subst b. simpl. f_equal. auto.
Qed.

Lemma starts_with_length p s r :
  starts_with p s = Some r -> length s = length p + length r.
Proof.
  intros H. apply starts_with_app in H. subst s. apply length_app.
Qed.

Lemma grow2_length s : forall acc g r,
  grow2 acc s = Some (g, r) -> length r < length s.
Proof.
  induction s as [|c s IH]; intros acc g r H.
  - simpl in H. discriminate.
  - cbn [grow2] in H.
    destruct (starts_with sep (c :: s)) as [rest|] eqn:E.
    + injection H as _ <-. apply starts_with_length in E.
      rewrite E. simpl. lia.
    + destruct (dot c); [|discriminate].
      apply IH in H. simpl. lia.
Qed.

Lemma group2_length s g r : group2 s = Some (g, r) -> length r < length s.
Proof.
  destruct s as [|c s]; simpl; [discriminate|].
  destruct (dot c); [|discriminate].
  intros H. apply grow2_length in H. lia.
Qed.

Lemma grow1_length s : forall acc g1 g2 r,
  grow1 acc s = Some (g1, g2, r) -> length r < length s.
Proof.
  induction s as [|c s IH]; intros acc g1 g2 r H.
  - simpl in H. discriminate.
  - cbn [grow1] in H.
    assert (K : (if dot c then grow1 (acc ++ [c]) s else None)
                = Some (g1, g2, r) -> length r < length (c :: s)).
    { destruct (dot c); [|discriminate].
      intros K. apply IH in K. simpl. lia. }
    destruct (starts_with sep (c :: s)) as [rest|] eqn:E; auto.
    destruct (group2 rest) as [[g r']|] eqn:G; auto.
    injection H as _ _ <-.
    apply group2_length in G. apply starts_with_length in E. lia.
Qed.

Lemma match_at_span s m :
  match_at s = Some m ->
  exists n, 1 <= n <= length s /\ fullMatch m = firstn n s
            /\ length (fullMatch m) = n.
Proof.
  unfold match_at. intros H.
  destruct (starts_with sentinel s) as [[|c r]|] eqn:E; try discriminate.
  destruct (dot c); [|discriminate].
  destruct (grow1 [c] r) as [[[g1 g2] rest]|] eqn:G; [|discriminate].
  injection H as <-. cbn [fullMatch].
  apply grow1_length in G. apply starts_with_length in E. simpl in E.
  exists (length s - length rest). repeat split; try lia.
  rewrite length_firstn. lia.
Qed.

Lemma exec_from_skipn k : forall s,
  k <= length s -> exec_from k s = exec_all (skipn k s).
Proof.
  induction k as [|k IH]; intros s H.
  - reflexivity.
  - destruct s as [|c s]; simpl in H; [lia|].
    simpl. apply IH. lia.
Qed.

Lemma replace_from_skipn k : forall s,
  k <= length s -> replace_from k s = replace_all (skipn k s).
Proof.
  induction k as [|k IH]; intros s H.
  - reflexivity.
  - destruct s as [|c s]; simpl in H; [lia|].
    simpl. apply IH. lia.
Qed.

(** The two unfoldings the source reads as: a match is taken where it
    starts and the scan resumes after it. *)
Lemma exec_all_cons c s :
  exec_all (c :: s) =
  match match_at (c :: s) with
  | Some m => m :: exec_all (skipn (length (fullMatch m)) (c :: s))
  | None => exec_all s
  end.
Proof.
  unfold exec_all at 1. cbn [exec_from].
  destruct (match_at (c :: s)) as [m|] eqn:E; [|reflexivity].
  destruct (match_at_span _ E) as (n & Hn & _ & L). rewrite L.
  simpl in Hn. rewrite exec_from_skipn by lia.
  destruct n as [|n]; [lia|]. simpl. rewrite Nat.sub_0_r. reflexivity.
Qed.

Lemma replace_all_cons c s :
  replace_all (c :: s) =
  match match_at (c :: s) with
  | Some m => replace_all (skipn (length (fullMatch m)) (c :: s))
  | None => c :: replace_all s
  end.
Proof.
  unfold replace_all at 1. cbn [replace_from].
  destruct (match_at (c :: s)) as [m|] eqn:E; [|reflexivity].
  destruct (match_at_span _ E) as (n & Hn & _ & L). rewrite L.
  simpl in Hn. rewrite replace_from_skipn by lia.
  destruct n as [|n]; [lia|]. simpl. rewrite Nat.sub_0_r. reflexivity.
Qed.

Lemma Removed_exec_replace_aux n : forall s,
  length s <= n -> Removed s (exec_all s) (replace_all s).
Proof.
  induction n as [|n IH]; intros s H.
  - destruct s; [constructor | simpl in H; lia].
  - destruct s as [|c s]; [constructor|].
    rewrite exec_all_cons, replace_all_cons.
    destruct (match_at (c :: s)) as [m|] eqn:E.
    + destruct (match_at_span _ E) as (k & Hk & F & L).
      rewrite L.
      rewrite <- (firstn_skipn k (c :: s)) at 1.
      rewrite <- F.
      apply Removed_cut.
      * rewrite F, firstn_skipn. exact E.
      * apply IH. rewrite length_skipn. cbn [length] in *. lia.
    + apply Removed_keep; [exact E|]. apply IH. simpl in H. lia.
Qed.

Lemma Removed_exec_replace s : Removed s (exec_all s) (replace_all s).
Proof. apply (Removed_exec_replace_aux (n := length s)). lia. Qed.

Lemma Removed_length s ms t :
  Removed s ms t ->
  length s = length t + list_sum (map (fun m => length (fullMatch m)) ms).
Proof.
  induction 1; simpl; try lia.
  rewrite length_app. lia.
Qed.

Lemma Removed_none s t : Removed s [] t -> t = s.
Proof.
  remember [] as ms eqn:E. induction 1; try reflexivity.
  - f_equal; auto.
  - discriminate.
Qed.

Lemma match_at_nonempty s m : match_at s = Some m -> 1 <= length (fullMatch m).
Proof.
  intros E. destruct (match_at_span _ E) as (n & Hn & _ & L). lia.
Qed.

Lemma exec_all_nil_iff s : exec_all s = [] <-> replace_all s = s.
Proof.
  pose proof (Removed_exec_replace s) as R. split; intros H.
  - rewrite H in R. apply Removed_none in R. exact R.
  - apply Removed_length in R. rewrite H in R.
    destruct (exec_all s) as [|m ms] eqn:E; [reflexivity|exfalso].
    assert (In m (exec_all s)) as I by (rewrite E; left; reflexivity).
    clear E. simpl in R.
    assert (1 <= length (fullMatch m)); [|lia].
    clear R H. revert I.
    generalize (Removed_exec_replace s).
    generalize (replace_all s). generalize (exec_all s).
    intros l t R. induction R; simpl; intros I; auto.
    + contradiction.
    + destruct I as [<-|I]; auto. eapply match_at_nonempty; eauto.
Qed.

(** ** The calls of a [forEach] *)

Lemma launch_running clock invs : forall k st,
  stopAutoExecutionRef st = false ->
  launch clock k invs st =
  setInflight (fun l => l ++ invs)
    (setPendingTasks (fun p => p ++ launchMarkers clock k invs) st).
Proof.
  induction invs as [|inv invs IH]; intros k st H; simpl.
  - destruct st; unfold setInflight, setPendingTasks; simpl.
    rewrite !app_nil_r. reflexivity.
  - unfold executeSingleTask. rewrite H. rewrite IH by exact H.
    destruct st; unfold setInflight, setPendingTasks; simpl.
    rewrite <- !app_assoc. reflexivity.
Qed.

Lemma launch_stopped clock invs : forall k st,
  stopAutoExecutionRef st = true ->
  launch clock k invs st =
  setActiveTaskCount (Nat.iter (length invs) decrement) st.
Proof.
  induction invs as [|inv invs IH]; intros k st H; simpl launch.
  - destruct st; reflexivity.
  - unfold executeSingleTask. rewrite H. rewrite IH by exact H.
    destruct st; unfold setActiveTaskCount.
    cbn [activeTaskCount selectedExpertIds taskInput taskResults pendingTasks
         terminationMessage showMentionList stopAutoExecutionRef inflight
         timers length].
    f_equal. symmetry. apply Nat.iter_succ_r.
Qed.

Lemma iter_decrement k : forall n,
  (Z.of_nat k <= n)%Z -> Nat.iter k decrement n = (n - Z.of_nat k)%Z.
Proof.
  induction k as [|k IH]; intros n H.
  - simpl. lia.
  - rewrite Nat.iter_succ, IH by lia. unfold decrement. lia.
Qed.

Lemma iter_decrement_nonneg k n : (0 <= n)%Z -> (0 <= Nat.iter k decrement n)%Z.
Proof.
  intros H. destruct k; [exact H|]. rewrite Nat.iter_succ. unfold decrement. lia.
Qed.

(** ** Lists with one element taken out *)

Lemma remove_at_app {A} (l1 l2 : list A) x :
  remove_at (length l1) (l1 ++ x :: l2) = l1 ++ l2.
Proof.
  unfold remove_at. induction l1 as [|y l1 IH]; simpl.
  - reflexivity.
  - f_equal. exact IH.
Qed.

Lemma remove_at_split {A} i (l : list A) x :
  nth_error l i = Some x ->
  exists l1 l2, l = l1 ++ x :: l2 /\ remove_at i l = l1 ++ l2.
Proof.
  intros H. apply nth_error_split in H as (l1 & l2 & -> & <-).
  exists l1, l2. split; [reflexivity|apply remove_at_app].
Qed.

Lemma remove_at_length {A} i (l : list A) x :
  nth_error l i = Some x -> S (length (remove_at i l)) = length l.
Proof.
  intros H. destruct (remove_at_split _ _ H) as (l1 & l2 & -> & ->).
  rewrite !length_app. simpl. lia.
Qed.

Lemma remove_at_incl {A} i : forall (l : list A), incl (remove_at i l) l.
Proof.
  unfold remove_at, incl. induction i as [|i IH]; intros [|y l] x; simpl; auto.
  intros [H|H]; [left; exact H|right; apply IH; exact H].
Qed.

Lemma remove_at_sum {A} (f : A -> nat) i l x :
  nth_error l i = Some x ->
  list_sum (map f l) = f x + list_sum (map f (remove_at i l)).
Proof.
  intros H. destruct (remove_at_split _ _ H) as (l1 & l2 & -> & ->).
  rewrite !map_app, !list_sum_app. simpl. lia.
Qed.

Lemma fulfilled_eq inv c st :
  executeSingleTask_fulfilled inv c st =
  let tasks := followUpTasks (inv_expert inv) (inv_depth inv) (responseText c) in
  mkState (selectedExpertIds st) (taskInput st)
    (storedResult inv c :: taskResults st)
    (filter (fun p => negb (jsstring_eqb (pt_expertId p) (id (inv_expert inv))))
       (pendingTasks st))
    (decrement (if willContinue inv c st
                then activeTaskCount st + Z.of_nat (length tasks)
                else activeTaskCount st))
    (terminationMessage st) (showMentionList st) (stopAutoExecutionRef st)
    (inflight st)
    (if willContinue inv c st
     then timers st ++ [mkTimer tasks (inv_expert inv) (inv_depth inv)]
     else timers st).
Proof.
  unfold executeSingleTask_fulfilled, willContinue, storedResult.
  destruct (inv_triggerBy inv) as [t|]; [destruct (truthy t)|];
    cbn [resultContent runExpertTask withTriggerBy withResultContent
         tr_id tr_expertId tr_expertName tr_expertAvatar taskDescription
         timestamp tr_triggerBy setTaskResults setPendingTasks
         stopAutoExecutionRef];
    match goal with |- context [if ?b then _ else _] => destruct b end;
    reflexivity.
Qed.

Lemma rejected_eq inv e st :
  executeSingleTask_rejected inv e st =
  mkState (selectedExpertIds st) (taskInput st) (taskResults st)
    (map (fun p => if jsstring_eqb (pt_expertId p) (id (inv_expert inv))
                   then withError p (errMessage e) else p)
       (pendingTasks st))
    (decrement (activeTaskCount st))
    (terminationMessage st) (showMentionList st) (stopAutoExecutionRef st)
    (inflight st) (timers st).
Proof. reflexivity. Qed.


(** ** What the acts of the user leave alone *)

Lemma user_step ev st st' :
  step ev st = Some st' -> engine_event ev = false -> is_execute ev = false ->
  inflight st' = inflight st /\ timers st' = timers st
  /\ activeTaskCount st' = activeTaskCount st
  /\ (stopAutoExecutionRef st = true -> stopAutoExecutionRef st' = true)
  /\ (pendingTasks st' = pendingTasks st
      \/ exists k q, ev = EvClearPending k
           /\ nth_error (pendingTasks st) k = Some q /\ status q = error
           /\ pendingTasks st' =
              filter (fun p => negb (jsstring_eqb (pt_expertId p) (pt_expertId q)))
                (pendingTasks st)).
Proof.
  intros H E X. destruct ev; try discriminate; simpl in H.
  - injection H as <-. unfold handleInputStringChange.
    destruct (endsWithAt val); [|destruct (_ && _)]; simpl; auto 10.
  - destruct (nth_error team k); [|discriminate]. injection H as <-.
    unfold toggleExpertSelection. destruct (has _ _); simpl; auto 10.
  - destruct (isProcessing st); [|discriminate]. injection H as <-.
    simpl; auto 10.
  - destruct (nth_error (pendingTasks st) k) as [q|] eqn:Q; [|discriminate].
    destruct (status q) eqn:S; try discriminate. injection H as <-.
    simpl. repeat split; auto. right. exists k, q. auto.
  - destruct (nth_error (taskResults st) k); [|discriminate].
    injection H as <-. simpl; auto 10.
  - destruct (taskResults st); [discriminate|]. injection H as <-.
    simpl; auto 10.
  - destruct (terminationMessage st); [|discriminate]. injection H as <-.
    simpl; auto 10.
Qed.

(** ** The execute button *)

Lemma execute_cases clock st :
  (exists msg, handleExecuteBatchTasks clock st = (st, Some msg))
  \/ handleExecuteBatchTasks clock st =
     (let selectedExperts :=
        filter (fun e => has (selectedExpertIds st) (id e)) team in
      let invs :=
        map (fun expert => mkInvocation expert (taskInput st) None 0)
          selectedExperts in
      mkState (selectedExpertIds st) [] (taskResults st)
        (pendingTasks st ++ launchMarkers clock 0 invs)
        (Z.of_nat (length selectedExperts)) None false false
        (inflight st ++ invs) (timers st),
      None).
Proof.
  unfold handleExecuteBatchTasks.
  destruct (length (selectedExpertIds st) =? 0); [left; eauto|].
  destruct (negb (truthy (trim (taskInput st)))); [left; eauto|].
  destruct (negb (truthy (trim projectDescription))); [left; eauto|].
  right. cbv zeta. rewrite launch_running by reflexivity. reflexivity.
Qed.

Lemma launchMarkers_in clock invs : forall k p,
  In p (launchMarkers clock k invs) ->
  status p = pending /\
  exists inv, In inv invs /\ pt_expertId p = id (inv_expert inv).
Proof.
  induction invs as [|inv invs IH]; intros k p H; simpl in H; [contradiction|].
  destruct H as [<-|H].
  - split; [reflexivity|]. exists inv. split; [left|]; reflexivity.
  - apply IH in H as (S & inv' & I & E). split; [exact S|].
    exists inv'. split; [right; exact I|exact E].
Qed.

Lemma launchMarkers_length clock invs : forall k,
  length (launchMarkers clock k invs) = length invs.
Proof. induction invs; intros k; simpl; auto. Qed.

Lemma scheduled_app l1 l2 : scheduled (l1 ++ l2) = scheduled l1 + scheduled l2.
Proof. unfold scheduled. rewrite map_app, list_sum_app. reflexivity. Qed.

Lemma scheduled_single tm : scheduled [tm] = length (tm_tasks tm).
Proof. unfold scheduled. simpl. lia. Qed.

Lemma scheduled_remove_at j l tm :
  nth_error l j = Some tm ->
  scheduled l = length (tm_tasks tm) + scheduled (remove_at j l).
Proof.
  intros H. unfold scheduled.
  exact (@remove_at_sum Timer (fun t => length (tm_tasks t)) j l tm H).
Qed.

Lemma timeout_eq clock tm st :
  timeout clock tm st = launch clock 0 (timerInvocations tm) st.
Proof. reflexivity. Qed.

Lemma timerInvocations_length tm :
  length (timerInvocations tm) = length (tm_tasks tm).
Proof. apply length_map. Qed.

(** ** The counter counts the invocations not yet settled *)

Lemma counter_inv_step ev st st' :
  counter_inv st -> step ev st = Some st' -> counter_inv st'.
Proof.
  unfold counter_inv, outstanding. intros I H.
  destruct (engine_event ev) eqn:E; [|destruct (is_execute ev) eqn:X].
  - destruct ev; try discriminate; simpl in H.
    + destruct (nth_error (inflight st) i) as [inv|] eqn:N; [|discriminate].
      injection H as <-. rewrite fulfilled_eq. cbv zeta.
      cbn [activeTaskCount inflight timers setInflight stopAutoExecutionRef].
      apply remove_at_length in N.
      destruct (willContinue _ _ _);
        rewrite ?scheduled_app, ?scheduled_single; cbn [tm_tasks];
        unfold decrement; lia.
    + destruct (nth_error (inflight st) i) as [inv|] eqn:N; [|discriminate].
      injection H as <-. rewrite rejected_eq.
      cbn [activeTaskCount inflight timers setInflight].
      apply remove_at_length in N. unfold decrement. lia.
    + destruct (nth_error (timers st) j) as [tm|] eqn:N; [|discriminate].
      injection H as <-. rewrite timeout_eq.
      apply scheduled_remove_at in N.
      destruct (stopAutoExecutionRef st) eqn:S.
      * rewrite launch_stopped by exact S.
        cbn [activeTaskCount inflight timers setTimers setActiveTaskCount].
        rewrite timerInvocations_length, iter_decrement; lia.
      * rewrite launch_running by exact S.
        cbn [activeTaskCount inflight timers setTimers setInflight
             setPendingTasks].
        rewrite length_app, timerInvocations_length. lia.
  - destruct ev; try discriminate; simpl in H.
    destruct (executeDisabled st) eqn:D; [discriminate|]. injection H as <-.
    unfold executeDisabled in D. apply orb_false_elim in D as [D _].
    apply orb_false_elim in D as [D _]. unfold isProcessing in D.
    apply Z.ltb_ge in D.
    destruct (execute_cases clock st) as [[msg ->]| ->]; simpl; [exact I|].
    rewrite length_app, length_map. lia.
  - destruct (user_step _ _ H E X) as (-> & -> & -> & _). exact I.
Qed.

Lemma counter_inv_reachable st : reachable st -> counter_inv st.
Proof.
  induction 1 as [|ev st st' _ IH H].
  - reflexivity.
  - eapply counter_inv_step; eauto.
Qed.

(** ** Markers still pending belong to running invocations *)

Lemma in_remove_at_other {A} i (l : list A) x y :
  nth_error l i = Some x -> In y l -> y = x \/ In y (remove_at i l).
Proof.
  intros H I. destruct (remove_at_split _ _ H) as (l1 & l2 & -> & ->).
  apply in_app_or in I as [I|[I|I]]; auto using in_or_app.
Qed.

Lemma marker_inv_step ev st st' :
  marker_inv st -> step ev st = Some st' -> marker_inv st'.
Proof.
  unfold marker_inv. intros I H.
  destruct (engine_event ev) eqn:E; [|destruct (is_execute ev) eqn:X].
  - destruct ev; try discriminate; simpl in H.
    + destruct (nth_error (inflight st) i) as [inv|] eqn:N; [|discriminate].
      injection H as <-. rewrite fulfilled_eq. cbv zeta.
      cbn [pendingTasks inflight setInflight].
      intros p P S. apply filter_In in P as [P F].
      apply negb_true_iff, jsstring_eqb_neq in F.
      destruct (I p P S) as (inv' & I' & Q).
      destruct (@in_remove_at_other _ _ _ _ _ N I') as [->|R]; [congruence|].
      exists inv'. auto.
    + destruct (nth_error (inflight st) i) as [inv|] eqn:N; [|discriminate].
      injection H as <-. rewrite rejected_eq.
      cbn [pendingTasks inflight setInflight].
      intros p P S. apply in_map_iff in P as (q & <- & P).
      destruct (jsstring_eqb (pt_expertId q) (id (inv_expert inv))) eqn:F;
        [discriminate|].
      apply jsstring_eqb_neq in F.
      destruct (I q P S) as (inv' & I' & Q).
      destruct (@in_remove_at_other _ _ _ _ _ N I') as [->|R]; [congruence|].
      exists inv'. auto.
    + destruct (nth_error (timers st) j) as [tm|] eqn:N; [|discriminate].
      injection H as <-. rewrite timeout_eq.
      destruct (stopAutoExecutionRef st) eqn:S.
      * rewrite launch_stopped by exact S. exact I.
      * rewrite launch_running by exact S.
        cbn [pendingTasks inflight setTimers setInflight setPendingTasks].
        intros p P Sp. apply in_app_or in P as [P|P].
        -- destruct (I p P Sp) as (inv' & I' & Q). exists inv'.
           split; [apply in_or_app; left; exact I'|exact Q].
        -- apply launchMarkers_in in P as (_ & inv' & I' & Q). exists inv'.
           split; [apply in_or_app; right; exact I'|symmetry; exact Q].
  - destruct ev; try discriminate; simpl in H.
    destruct (executeDisabled st) eqn:D; [discriminate|]. injection H as <-.
    destruct (execute_cases clock st) as [[msg ->]| ->]; simpl; [exact I|].
    intros p P Sp. apply in_app_or in P as [P|P].
    + destruct (I p P Sp) as (inv' & I' & Q). exists inv'.
      split; [apply in_or_app; left; exact I'|exact Q].
    + apply launchMarkers_in in P as (_ & inv' & I' & Q). exists inv'.
      split; [apply in_or_app; right; exact I'|symmetry; exact Q].
  - destruct (user_step _ _ H E X) as (-> & _ & _ & _ & [-> | P]);
      [exact I|].
    destruct P as (k & q & _ & _ & _ & ->).
    intros p P. apply filter_In in P as [P _]. auto.
Qed.

Lemma marker_inv_reachable st : reachable st -> marker_inv st.
Proof.
  induction 1 as [|ev st st' _ IH H].
  - intros p [].
  - eapply marker_inv_step; eauto.
Qed.

(** ** No invocation lies deeper than [MAX_DEPTH] *)

Lemma willContinue_depth inv c st :
  willContinue inv c st = true -> inv_depth inv < MAX_DEPTH.
Proof.
  unfold willContinue. intros H.
  apply andb_true_iff in H as [H _]. apply andb_true_iff in H as [_ H].
  apply Nat.ltb_lt in H. exact H.
Qed.

Lemma timerInvocations_depth tm inv :
  In inv (timerInvocations tm) ->
  inv_depth inv = S (tm_depth tm)
  /\ inv_triggerBy inv = Some (name (tm_expert tm))
  /\ In (mkFollowUp (inv_expert inv) (inv_instruction inv)) (tm_tasks tm).
Proof.
  unfold timerInvocations. intros H.
  apply in_map_iff in H as ([t i] & <- & H). simpl. auto.
Qed.

Lemma depth_inv_step ev st st' :
  depth_inv st -> step ev st = Some st' -> depth_inv st'.
Proof.
  unfold depth_inv. intros [I T] H.
  destruct (engine_event ev) eqn:E; [|destruct (is_execute ev) eqn:X].
  - destruct ev; try discriminate; simpl in H.
    + destruct (nth_error (inflight st) i) as [inv|] eqn:N; [|discriminate].
      injection H as <-. rewrite fulfilled_eq. cbv zeta.
      cbn [timers inflight setInflight stopAutoExecutionRef]. split.
      * intros inv' R. apply I. eapply remove_at_incl; eauto.
      * destruct (willContinue inv c _) eqn:W; [|exact T].
        apply willContinue_depth in W.
        intros tm R. apply in_app_or in R as [R|[<-|[]]]; [auto|].
        simpl. lia.
    + destruct (nth_error (inflight st) i) as [inv|] eqn:N; [|discriminate].
      injection H as <-. rewrite rejected_eq.
      cbn [timers inflight setInflight]. split; [|exact T].
      intros inv' R. apply I. eapply remove_at_incl; eauto.
    + destruct (nth_error (timers st) j) as [tm|] eqn:N; [|discriminate].
      injection H as <-. rewrite timeout_eq.
      assert (T' : forall tm', In tm' (remove_at j (timers st)) ->
                               S (tm_depth tm') <= MAX_DEPTH).
      { intros tm' R. apply T. eapply remove_at_incl; eauto. }
      destruct (stopAutoExecutionRef st) eqn:S.
      * rewrite launch_stopped by exact S. split; [exact I|exact T'].
      * rewrite launch_running by exact S.
        cbn [timers inflight setTimers setInflight setPendingTasks].
        split; [|exact T'].
        intros inv R. apply in_app_or in R as [R|R]; [auto|].
        apply timerInvocations_depth in R as (-> & _).
        apply T. eapply nth_error_In; eauto.
  - destruct ev; try discriminate; simpl in H.
    destruct (executeDisabled st) eqn:D; [discriminate|]. injection H as <-.
    destruct (execute_cases clock st) as [[msg ->]| ->]; simpl; [auto|].
    split; [|exact T].
    intros inv R. apply in_app_or in R as [R|R]; [auto|].
    apply in_map_iff in R as (e & <- & _). simpl. unfold MAX_DEPTH. lia.
  - destruct (user_step _ _ H E X) as (-> & -> & _). auto.
Qed.

Lemma depth_inv_reachable st : reachable st -> depth_inv st.
Proof.
  induction 1 as [|ev st st' _ IH H].
  - split; intros ? [].
  - eapply depth_inv_step; eauto.
Qed.

(** ** The engine stops by itself *)

Lemma measure_lt_wf : well_founded measure_lt.
Proof.
  unfold measure_lt. repeat apply wf_slexprod; apply lt_wf.
Qed.

Lemma measure_lt_intro a b c d a' b' c' d' :
  a' < a \/ (a' = a /\ (b' < b \/ (b' = b /\ (c' < c \/ (c' = c /\ d' < d))))) ->
  measure_lt (a', (b', (c', d'))) (a, (b, (c, d))).
Proof.
  unfold measure_lt.
  intros [H|[-> [H|[-> [H|[-> H]]]]]].
  - apply left_slex; exact H.
  - apply right_slex, left_slex; exact H.
  - apply right_slex, right_slex, left_slex; exact H.
  - apply right_slex, right_slex, right_slex; exact H.
Qed.

Lemma started_sum r tm :
  list_sum (map (fun inv => if hops_left (inv_depth inv) =? r then 1 else 0)
              (timerInvocations tm))
  = if hops_left (S (tm_depth tm)) =? r then length (tm_tasks tm) else 0.
Proof.
  unfold timerInvocations. rewrite map_map. cbn [inv_depth].
  induction (tm_tasks tm) as [|t l IH]; simpl.
  - destruct (_ =? r); reflexivity.
  - rewrite IH. destruct (_ =? r); reflexivity.
Qed.

Lemma with_hops_settle r i inv st st1 :
  nth_error (inflight st) i = Some inv ->
  inflight st1 = remove_at i (inflight st) ->
  timers st1 = timers st ->
  with_hops r st =
  (if hops_left (inv_depth inv) =? r then 1 else 0) + with_hops r st1.
Proof.
  intros N I T. unfold with_hops. rewrite I, T.
  rewrite (@remove_at_sum _
             (fun inv => if hops_left (inv_depth inv) =? r then 1 else 0)
             _ _ _ N).
  lia.
Qed.

Lemma with_hops_spawn r i inv tasks st st1 :
  nth_error (inflight st) i = Some inv ->
  inflight st1 = remove_at i (inflight st) ->
  timers st1 = timers st ++ [mkTimer tasks (inv_expert inv) (inv_depth inv)] ->
  with_hops r st + (if hops_left (S (inv_depth inv)) =? r
                    then length tasks else 0) =
  (if hops_left (inv_depth inv) =? r then 1 else 0) + with_hops r st1.
Proof.
  intros N I T. unfold with_hops. rewrite I, T.
  rewrite (@remove_at_sum _
             (fun inv => if hops_left (inv_depth inv) =? r then 1 else 0)
             _ _ _ N).
  rewrite map_app, list_sum_app. simpl. lia.
Qed.

Lemma hops_cases d :
  (d = 0 /\ hops_left d = 2 /\ hops_left (S d) = 1)
  \/ (d = 1 /\ hops_left d = 1 /\ hops_left (S d) = 0)
  \/ (MAX_DEPTH <= d /\ hops_left d = 0 /\ hops_left (S d) = 0).
Proof.
  unfold hops_left, MAX_DEPTH.
  destruct d as [|[|d]]; [left|right; left|right; right]; simpl; lia.
Qed.

Lemma engine_step_decreases st st' :
  engine_step st st' -> measure_lt (measure st') (measure st).
Proof.
  intros (ev & E & H). unfold measure. apply measure_lt_intro.
  destruct ev; try discriminate; simpl in H.
  - destruct (nth_error (inflight st) i) as [inv|] eqn:N; [|discriminate].
    injection H as <-. rewrite fulfilled_eq. cbv zeta.
    cbn [setInflight stopAutoExecutionRef inflight timers].
    destruct (willContinue inv c _) eqn:W.
    + apply willContinue_depth in W. unfold MAX_DEPTH in W.
      match goal with |- context [with_hops 2 ?s] => set (st1 := s) end.
      pose proof (fun r => @with_hops_spawn r i inv _ st st1 N eq_refl eq_refl)
        as S.
      pose proof (S 0) as S0. pose proof (S 1) as S1. pose proof (S 2) as S2.
      clear S. clearbody st1. destruct (hops_cases (inv_depth inv)) as [C|[C|C]];
        destruct C as (C & C1 & C2); rewrite C1, C2 in S0, S1, S2;
        simpl in S0, S1, S2; unfold MAX_DEPTH in *; lia.
    + match goal with |- context [with_hops 2 ?s] => set (st1 := s) end.
      pose proof (fun r => @with_hops_settle r i inv st st1 N eq_refl eq_refl)
        as S.
      pose proof (S 0) as S0. pose proof (S 1) as S1. pose proof (S 2) as S2.
      clear S. clearbody st1. destruct (hops_cases (inv_depth inv)) as [C|[C|C]];
        destruct C as (C & C1 & _); rewrite C1 in S0, S1, S2;
        simpl in S0, S1, S2; unfold MAX_DEPTH in *; lia.
  - destruct (nth_error (inflight st) i) as [inv|] eqn:N; [|discriminate].
    injection H as <-. rewrite rejected_eq.
    cbn [setInflight inflight timers].
    match goal with |- context [with_hops 2 ?s] => set (st1 := s) end.
    pose proof (fun r => @with_hops_settle r i inv st st1 N eq_refl eq_refl)
      as S.
    pose proof (S 0) as S0. pose proof (S 1) as S1. pose proof (S 2) as S2.
    clear S. clearbody st1. destruct (hops_cases (inv_depth inv)) as [C|[C|C]];
      destruct C as (C & C1 & _); rewrite C1 in S0, S1, S2;
        simpl in S0, S1, S2; unfold MAX_DEPTH in *; lia.
  - destruct (nth_error (timers st) j) as [tm|] eqn:N; [|discriminate].
    injection H as <-. rewrite timeout_eq.
    pose proof (remove_at_length _ _ N) as L.
    assert (S : forall r,
      list_sum (map (fun tm => if hops_left (S (tm_depth tm)) =? r
                               then length (tm_tasks tm) else 0) (timers st))
      = (if hops_left (S (tm_depth tm)) =? r then length (tm_tasks tm) else 0)
        + list_sum (map (fun tm => if hops_left (S (tm_depth tm)) =? r
                                   then length (tm_tasks tm) else 0)
                      (remove_at j (timers st)))).
    { intros r.
      exact (@remove_at_sum _
               (fun tm => if hops_left (S (tm_depth tm)) =? r
                          then length (tm_tasks tm) else 0) _ _ _ N). }
    pose proof (S 0) as S0. pose proof (S 1) as S1. pose proof (S 2) as S2.
    clear S. unfold with_hops.
    destruct (stopAutoExecutionRef st) eqn:Stop.
    + rewrite launch_stopped by exact Stop.
      cbn [setTimers setActiveTaskCount inflight timers].
      destruct (hops_left (S (tm_depth tm)) =? 0),
               (hops_left (S (tm_depth tm)) =? 1),
               (hops_left (S (tm_depth tm)) =? 2); lia.
    + rewrite launch_running by exact Stop.
      cbn [setTimers setInflight setPendingTasks inflight timers].
      rewrite !map_app, !list_sum_app, !started_sum.
      destruct (hops_left (S (tm_depth tm)) =? 0),
               (hops_left (S (tm_depth tm)) =? 1),
               (hops_left (S (tm_depth tm)) =? 2); lia.
Qed.

Lemma engine_step_wf : well_founded (fun st' st => engine_step st st').
Proof.
  apply wf_incl with (R2 := fun a b => measure_lt (measure a) (measure b)).
  - intros a b H. apply engine_step_decreases. exact H.
  - apply wf_inverse_image. apply measure_lt_wf.
Qed.

(** ** Runs *)

Lemma run_reachable evs : forall st st',
  reachable st -> run evs st = Some st' -> reachable st'.
Proof.
  induction evs as [|ev evs IH]; intros st st' R H; simpl in H.
  - injection H as <-. exact R.
  - destruct (step ev st) as [st1|] eqn:E; [|discriminate].
    apply (IH st1); [|exact H]. eapply reachable_step; eauto.
Qed.

Lemma followUpTasks_at_ceiling expert depth text :
  MAX_DEPTH <= depth -> followUpTasks expert depth text = [].
Proof.
  intros H. unfold followUpTasks.
  destruct (depth <? MAX_DEPTH) eqn:E; [|reflexivity].
  apply Nat.ltb_lt in E. lia.
Qed.

(** C1: from a root dispatch on, no invocation, started or waiting in a
    timer, lies deeper than [MAX_DEPTH] = 2; the invocations a timer
    starts lie one deeper than the response they come from; a response at
    depth 2 or more yields no follow-up and sets no timer; and the engine
    cannot go on for ever: the relation "one engine step later" is
    well founded, whatever the texts the model returns. *)
Theorem delegation_depth_ceiling :
  (forall st, reachable st ->
     (forall inv, In inv (inflight st) -> inv_depth inv <= MAX_DEPTH)
     /\ (forall tm inv, In tm (timers st) -> In inv (timerInvocations tm) ->
           inv_depth inv <= MAX_DEPTH))
  /\ (forall inv c st tm,
        In tm (timers (executeSingleTask_fulfilled inv c st)) ->
        In tm (timers st)
        \/ (inv_depth inv < MAX_DEPTH /\ tm_depth tm = inv_depth inv))
  /\ (forall tm inv, In inv (timerInvocations tm) ->
        inv_depth inv = S (tm_depth tm))
  /\ (forall expert depth text, MAX_DEPTH <= depth ->
        followUpTasks expert depth text = [])
  /\ well_founded (fun st' st => engine_step st st').
Proof.
  split; [|split; [|split; [|split]]].
  - intros st R. destruct (depth_inv_reachable R) as [I T]. split; [exact I|].
    intros tm inv Htm Hinv. apply timerInvocations_depth in Hinv as (-> & _).
    apply T. exact Htm.
  - intros inv c st tm. rewrite fulfilled_eq. cbv zeta. cbn [timers].
    destruct (willContinue inv c st) eqn:W; [|auto].
    intros H. apply in_app_or in H as [H|[<-|[]]]; [auto|].
    right. split; [eapply willContinue_depth; eauto|reflexivity].
  - intros tm inv H. apply timerInvocations_depth in H as (H & _). exact H.
  - apply followUpTasks_at_ceiling.
  - apply engine_step_wf.
Qed.

(** C4: in every state the component can reach, whatever the order in
    which the invocations settle, the active counter is not negative; it
    equals the number of invocations not yet settled (suspended on the
    adapter or waiting in a timer), so it is 0 once all of them have
    settled, and only then; and when it is 0 no marker has status
    [pending]. *)
Theorem active_counter_drains st :
  reachable st ->
  (0 <= activeTaskCount st)%Z
  /\ activeTaskCount st = Z.of_nat (outstanding st)
  /\ (inflight st = [] -> timers st = [] -> activeTaskCount st = 0%Z)
  /\ (activeTaskCount st = 0%Z ->
      inflight st = [] /\ scheduled (timers st) = 0
      /\ forall p, In p (pendingTasks st) -> status p <> pending).
Proof.
  intros R. pose proof (counter_inv_reachable R) as C.
  pose proof (marker_inv_reachable R) as M.
  unfold counter_inv, outstanding in *.
  split; [lia|]. split; [exact C|]. split.
  - intros I T. rewrite C, I, T. reflexivity.
  - intros Z. assert (L : length (inflight st) = 0) by lia.
    apply length_zero_iff_nil in L. split; [exact L|]. split; [lia|].
    intros p P S. destruct (M p P S) as (inv & I & _).
    rewrite L in I. exact I.
Qed.

(** ** While the flag is set *)

Lemma stopped_step ev st st' :
  stopAutoExecutionRef st = true -> is_execute ev = false ->
  step ev st = Some st' ->
  stopAutoExecutionRef st' = true
  /\ incl (inflight st') (inflight st)
  /\ length (inflight st') <= length (inflight st)
  /\ incl (timers st') (timers st)
  /\ length (pendingTasks st') <= length (pendingTasks st).
Proof.
  intros S X H. destruct (engine_event ev) eqn:E.
  - destruct ev; try discriminate; simpl in H.
    + destruct (nth_error (inflight st) i) as [inv|] eqn:N; [|discriminate].
      injection H as <-. rewrite fulfilled_eq. cbv zeta.
      unfold willContinue.
      cbn [setInflight stopAutoExecutionRef inflight timers pendingTasks].
      rewrite S, andb_false_r. apply remove_at_length in N.
      repeat split; auto using remove_at_incl, incl_refl, filter_length_le.
      lia.
    + destruct (nth_error (inflight st) i) as [inv|] eqn:N; [|discriminate].
      injection H as <-. rewrite rejected_eq.
      cbn [setInflight stopAutoExecutionRef inflight timers pendingTasks].
      apply remove_at_length in N. rewrite length_map.
      repeat split; auto using remove_at_incl, incl_refl. lia.
    + destruct (nth_error (timers st) j) as [tm|] eqn:N; [|discriminate].
      injection H as <-. rewrite timeout_eq, launch_stopped by exact S.
      cbn [setTimers setActiveTaskCount stopAutoExecutionRef inflight timers
           pendingTasks].
      repeat split; auto using remove_at_incl, incl_refl.
  - destruct (user_step _ _ H E X) as (-> & -> & _ & K & P).
    repeat split; auto using incl_refl.
    destruct P as [->|(k & q & _ & _ & _ & ->)];
      auto using filter_length_le.
Qed.

Lemma stopped_run evs : forall st st',
  stopAutoExecutionRef st = true -> existsb is_execute evs = false ->
  run evs st = Some st' ->
  stopAutoExecutionRef st' = true
  /\ incl (inflight st') (inflight st)
  /\ length (inflight st') <= length (inflight st)
  /\ incl (timers st') (timers st)
  /\ length (pendingTasks st') <= length (pendingTasks st).
Proof.
  induction evs as [|ev evs IH]; intros st st' S X H; simpl in H.
  - injection H as <-. repeat split; auto using incl_refl.
  - simpl in X. apply orb_false_elim in X as [X1 X2].
    destruct (step ev st) as [st1|] eqn:E; [|discriminate].
    destruct (@stopped_step _ _ _ S X1 E) as (S1 & A1 & B1 & C1 & D1).
    destruct (IH _ _ S1 X2 H) as (S2 & A2 & B2 & C2 & D2).
    repeat split; eauto using incl_tran; lia.
Qed.

Lemma execute_enabled_idle clock st st' :
  counter_inv st -> step (EvExecute clock) st = Some st' -> outstanding st = 0.
Proof.
  unfold counter_inv. intros C H. simpl in H.
  destruct (executeDisabled st) eqn:D; [discriminate|].
  unfold executeDisabled in D. apply orb_false_elim in D as [D _].
  apply orb_false_elim in D as [D _]. unfold isProcessing in D.
  apply Z.ltb_ge in D. lia.
Qed.

(** C5, amended: in a state the component can reach with the stop flag
    set, a call of [executeSingleTask] does nothing but decrement the
    counter; a timer that fires abandons each invocation it holds, the
    counter going down by one for each, with no marker added, no result
    stored and nothing started; until the execute button is pressed
    again no event starts an invocation, sets a timer or adds a marker,
    and the button cannot be pressed while an invocation is still
    queued.  The invocations already started are resumed as ever, the
    counter going down by one and nothing being scheduled.  A success
    stores its result, under the id of its expert and with the cleaned
    text.  A failure stores no result and is written on the markers of
    its expert that are still in the collection: each gets status
    [error] and the message of the failure, or the fixed text when the
    failure has no message; the other markers are kept.  When no marker
    of the expert is left the markers are unchanged: the failure is
    recorded nowhere. *)
Theorem cancellation_abandons_queued st :
  reachable st -> stopAutoExecutionRef st = true ->
  (forall now inv, executeSingleTask now inv st = setActiveTaskCount decrement st)
  /\ (forall j clock tm, nth_error (timers st) j = Some tm ->
        exists st', step (EvTimeout j clock) st = Some st'
          /\ inflight st' = inflight st
          /\ pendingTasks st' = pendingTasks st
          /\ taskResults st' = taskResults st
          /\ timers st' = remove_at j (timers st)
          /\ activeTaskCount st'
             = (activeTaskCount st - Z.of_nat (length (tm_tasks tm)))%Z)
  /\ (forall evs st', run evs st = Some st' ->
        existsb is_execute evs = false ->
        stopAutoExecutionRef st' = true
        /\ incl (inflight st') (inflight st)
        /\ length (inflight st') <= length (inflight st)
        /\ incl (timers st') (timers st)
        /\ length (pendingTasks st') <= length (pendingTasks st))
  /\ (forall clock st', step (EvExecute clock) st = Some st' ->
        outstanding st = 0)
  /\ (forall i inv c, nth_error (inflight st) i = Some inv ->
        exists st', step (EvFulfilled i c) st = Some st'
          /\ taskResults st' = storedResult inv c :: taskResults st
          /\ tr_expertId (storedResult inv c) = id (inv_expert inv)
          /\ resultContent (storedResult inv c)
             = replace_all (responseText c)
          /\ (forall p, In p (pendingTasks st') <->
                In p (pendingTasks st)
                /\ pt_expertId p <> id (inv_expert inv))
          /\ timers st' = timers st
          /\ inflight st' = remove_at i (inflight st)
          /\ activeTaskCount st' = (activeTaskCount st - 1)%Z)
  /\ (forall i inv e, nth_error (inflight st) i = Some inv ->
        exists st', step (EvRejected i e) st = Some st'
          /\ taskResults st' = taskResults st
          /\ pendingTasks st'
             = map (fun p => if jsstring_eqb (pt_expertId p) (id (inv_expert inv))
                             then withError p (errMessage e) else p)
                 (pendingTasks st)
          /\ map pt_id (pendingTasks st') = map pt_id (pendingTasks st)
          /\ map pt_expertId (pendingTasks st')
             = map pt_expertId (pendingTasks st)
          /\ (forall p', In p' (pendingTasks st') ->
                pt_expertId p' = id (inv_expert inv) ->
                status p' = error
                /\ (forall msg, message e = Some msg -> msg <> [] ->
                      errorMessage p' = Some msg)
                /\ (message e = None \/ message e = Some [] ->
                    errorMessage p' = Some unknownError))
          /\ (forall p, In p (pendingTasks st) ->
                pt_expertId p <> id (inv_expert inv) ->
                In p (pendingTasks st'))
          /\ ((exists p, In p (pendingTasks st)
                         /\ pt_expertId p = id (inv_expert inv)) ->
              exists p', In p' (pendingTasks st')
                         /\ pt_expertId p' = id (inv_expert inv)
                         /\ status p' = error)
          /\ ((forall p, In p (pendingTasks st) ->
                 pt_expertId p <> id (inv_expert inv)) ->
              pendingTasks st' = pendingTasks st)
          /\ timers st' = timers st
          /\ inflight st' = remove_at i (inflight st)
          /\ activeTaskCount st' = (activeTaskCount st - 1)%Z).
Proof.
  intros R S. pose proof (counter_inv_reachable R) as C.
  assert (P : forall i inv, nth_error (inflight st) i = Some inv ->
              decrement (activeTaskCount st) = (activeTaskCount st - 1)%Z).
  { intros i inv N. apply remove_at_length in N.
    unfold counter_inv, outstanding in C. unfold decrement. lia. }
  assert (W : forall inv c, willContinue inv c st = false).
  { intros inv c. unfold willContinue. rewrite S. apply andb_false_r. }
  split; [|split; [|split; [|split; [|split]]]].
  - intros now inv. unfold executeSingleTask. rewrite S. reflexivity.
  - intros j clock tm N. simpl. rewrite N. eexists. split; [reflexivity|].
    rewrite timeout_eq, launch_stopped by exact S.
    cbn [setTimers setActiveTaskCount inflight timers pendingTasks taskResults
         activeTaskCount].
    repeat split. rewrite timerInvocations_length.
    apply iter_decrement. apply scheduled_remove_at in N.
    unfold counter_inv, outstanding in C. lia.
  - intros evs st' H X. eapply stopped_run; eauto.
  - intros clock st' H. eapply execute_enabled_idle; eauto.
  - intros i inv c N. unfold step. rewrite N. eexists.
    split; [reflexivity|].
    split; [rewrite fulfilled_eq; reflexivity|].
    split; [unfold storedResult; destruct (inv_triggerBy inv) as [t|];
            [destruct (truthy t)|]; reflexivity|].
    split; [unfold storedResult; destruct (inv_triggerBy inv) as [t|];
            [destruct (truthy t)|]; reflexivity|].
    split.
    { intros p. rewrite fulfilled_eq. cbv zeta. cbn [pendingTasks setInflight].
      rewrite filter_In, negb_true_iff, jsstring_eqb_neq. reflexivity. }
    rewrite fulfilled_eq. cbv zeta.
    assert (W' : willContinue inv c (setInflight (remove_at i) st) = false).
    { unfold willContinue. cbn [stopAutoExecutionRef setInflight].
      rewrite S. apply andb_false_r. }
    rewrite W'. cbn [timers inflight activeTaskCount setInflight].
    split; [reflexivity|]. split; [reflexivity|]. exact (P i inv N).
  - intros i inv e N. unfold step. rewrite N. eexists.
    split; [reflexivity|]. rewrite rejected_eq.
    cbn [taskResults pendingTasks timers inflight activeTaskCount setInflight].
    split; [reflexivity|]. split; [reflexivity|].
    split.
    { rewrite map_map. apply map_ext. intros p.
      destruct (jsstring_eqb (pt_expertId p) (id (inv_expert inv)));
        reflexivity. }
    split.
    { rewrite map_map. apply map_ext. intros p.
      destruct (jsstring_eqb (pt_expertId p) (id (inv_expert inv)));
        reflexivity. }
    split.
    { intros p' I E. apply in_map_iff in I as (q & <- & _).
      destruct (jsstring_eqb (pt_expertId q) (id (inv_expert inv))) eqn:F.
      - cbn [status errorMessage withError]. split; [reflexivity|]. split.
        + intros msg M H. unfold errMessage. rewrite M.
          destruct msg; [congruence|reflexivity].
        + intros [M|M]; unfold errMessage; rewrite M; reflexivity.
      - apply jsstring_eqb_neq in F. contradiction. }
    split.
    { intros p I E. apply in_map_iff. exists p. split; [|exact I].
      apply jsstring_eqb_neq in E. rewrite E. reflexivity. }
    split.
    { intros (p & I & E). exists (withError p (errMessage e)).
      split; [|split; [exact E|reflexivity]].
      apply in_map_iff. exists p. split; [|exact I].
      apply jsstring_eqb_eq in E. rewrite E. reflexivity. }
    split.
    { intros H. rewrite <- (map_id (pendingTasks st)) at 2.
      apply map_ext_in. intros p I. apply H in I.
      apply jsstring_eqb_neq in I. rewrite I. reflexivity. }
    split; [reflexivity|]. split; [reflexivity|]. exact (P i inv N).
Qed.

(** ** Blank texts and the selection *)

Lemma trimStart_nil s : trimStart s = [] <-> forallb isTrimmed s = true.
Proof.
  induction s as [|c s IH]; simpl.
  - split; reflexivity.
  - destruct (isTrimmed c); simpl; [exact IH|]. split; discriminate.
Qed.

Lemma trimStart_head s :
  match trimStart s with
  | [] => True
  | c :: _ => isTrimmed c = false
  end.
Proof.
  induction s as [|c s IH]; simpl; [exact I|].
  destruct (isTrimmed c) eqn:E; [exact IH|exact E].
Qed.

Lemma forallb_rev {A} (f : A -> bool) l :
  forallb f (rev l) = true <-> forallb f l = true.
Proof.
  rewrite !forallb_forall. split; intros H x I; apply H.
  - apply in_rev in I. exact I.
  - apply in_rev. exact I.
Qed.

Lemma trim_nil s : trim s = [] <-> forallb isTrimmed s = true.
Proof.
  unfold trim. rewrite <- trimStart_nil. split.
  - intros H. apply (f_equal (@rev _)) in H. rewrite rev_involutive in H.
    simpl in H. apply trimStart_nil in H.
    apply (proj1 (forallb_rev _ _)) in H.
    pose proof (trimStart_head s) as K.
    destruct (trimStart s) as [|c r]; [reflexivity|].
    cbn [forallb] in H. rewrite K in H. discriminate.
  - intros ->. reflexivity.
Qed.

Lemma truthy_false s : truthy s = false <-> s = [].
Proof. destruct s; simpl; split; congruence. Qed.

Lemma has_In l x : has l x = true <-> In x l.
Proof.
  unfold has. rewrite existsb_exists. split.
  - intros (y & I & E). apply jsstring_eqb_eq in E. subst y. exact I.
  - intros I. exists x. split; [exact I|apply jsstring_eqb_refl].
Qed.

Lemma NoDup_map_filter {A B} (g : A -> B) (f : A -> bool) l :
  NoDup (map g l) -> NoDup (map g (filter f l)).
Proof.
  induction l as [|a l IH]; simpl; intros H; [constructor|].
  inversion H as [|? ? N D]; subst.
  destruct (f a); simpl; auto. constructor; auto.
  intros I. apply N. apply in_map_iff in I as (b & E & I).
  apply filter_In in I as [I _]. apply in_map_iff. eauto.
Qed.

Lemma selected_count sel :
  NoDup (map id team) -> NoDup sel ->
  (forall i, In i sel -> exists e, In e team /\ id e = i) ->
  length (filter (fun e => has sel (id e)) team) = length sel.
Proof.
  intros Dt Ds Hs.
  rewrite <- (length_map id (filter _ team)).
  apply Nat.le_antisymm; apply NoDup_incl_length; auto.
  - apply NoDup_map_filter. exact Dt.
  - intros i I. apply in_map_iff in I as (e & <- & I).
    apply filter_In in I as [_ I]. apply has_In. exact I.
  - intros i I. destruct (Hs i I) as (e & T & <-).
    apply in_map_iff. exists e. split; [reflexivity|].
    apply filter_In. split; [exact T|]. apply has_In. exact I.
Qed.

(** C6: pressed with no expert selected, with a blank instruction or
    with a blank project context, [handleExecuteBatchTasks] hands a
    message to [alert] and returns the state it was given, untouched;
    otherwise it clears the stop flag, sets the counter to the number of
    selected experts and starts one invocation per selected expert, at
    depth 0 and with no trigger, each with its pending marker.  A text
    is blank when [trim] leaves nothing of it, that is when it holds
    only white space and line terminators; the selected experts are
    the members of the team whose id is in the selection, as many as
    the selection has ids when ids are unique. *)
Theorem dispatch_validates clock st :
  let selectedExperts :=
    filter (fun e => has (selectedExpertIds st) (id e)) team in
  let roots :=
    map (fun expert => mkInvocation expert (taskInput st) None 0)
      selectedExperts in
  (selectedExpertIds st = [] \/ trim (taskInput st) = []
   \/ trim projectDescription = [] ->
   exists msg, handleExecuteBatchTasks clock st = (st, Some msg))
  /\ (selectedExpertIds st <> [] -> trim (taskInput st) <> [] ->
      trim projectDescription <> [] ->
      exists st', handleExecuteBatchTasks clock st = (st', None)
        /\ stopAutoExecutionRef st' = false
        /\ activeTaskCount st' = Z.of_nat (length selectedExperts)
        /\ inflight st' = inflight st ++ roots
        /\ pendingTasks st' = pendingTasks st ++ launchMarkers clock 0 roots
        /\ length (launchMarkers clock 0 roots) = length selectedExperts
        /\ taskResults st' = taskResults st
        /\ timers st' = timers st)
  /\ (forall inv, In inv roots ->
        inv_depth inv = 0 /\ inv_triggerBy inv = None
        /\ In (inv_expert inv) team
        /\ In (id (inv_expert inv)) (selectedExpertIds st))
  /\ (NoDup (map id team) -> NoDup (selectedExpertIds st) ->
      (forall i, In i (selectedExpertIds st) ->
         exists e, In e team /\ id e = i) ->
      length selectedExperts = length (selectedExpertIds st))
  /\ (forall s, trim s = [] <-> forallb isTrimmed s = true).
Proof.
  cbv zeta. split; [|split; [|split; [|split]]].
  - intros H. unfold handleExecuteBatchTasks.
    destruct (length (selectedExpertIds st) =? 0) eqn:L; [eauto|].
    destruct (negb (truthy (trim (taskInput st)))) eqn:T; [eauto|].
    destruct (negb (truthy (trim projectDescription))) eqn:P; [eauto|].
    exfalso. apply negb_false_iff in T, P.
    destruct H as [H|[H|H]]; rewrite H in *; discriminate.
  - intros H1 H2 H3.
    destruct (execute_cases clock st) as [[msg E]|E].
    + exfalso. unfold handleExecuteBatchTasks in E.
      destruct (selectedExpertIds st) as [|i l] eqn:L; [congruence|].
      cbn [length Nat.eqb] in E.
      destruct (trim (taskInput st)) as [|a t] eqn:T; [congruence|].
      destruct (trim projectDescription) as [|b p] eqn:P; [congruence|].
      cbn [truthy negb] in E. discriminate.
    + eexists. split; [exact E|]. cbn.
      rewrite launchMarkers_length, !length_map. repeat split.
  - intros inv H. apply in_map_iff in H as (e & <- & H).
    apply filter_In in H as [T S]. apply has_In in S. simpl. auto.
  - apply selected_count.
  - apply trim_nil.
Qed.

(** ** Settling: the markers of one expert *)

Lemma errMessage_message e m :
  message e = Some m -> m <> [] -> errMessage e = m.
Proof.
  unfold errMessage. intros -> H. destruct m; [congruence|reflexivity].
Qed.

Lemma rejected_markers inv e st p :
  In p (pendingTasks (executeSingleTask_rejected inv e st)) ->
  pt_expertId p = id (inv_expert inv) ->
  status p = error /\ errorMessage p = Some (errMessage e).
Proof.
  rewrite rejected_eq. cbn [pendingTasks]. intros H E.
  apply in_map_iff in H as (q & <- & _).
  destruct (jsstring_eqb (pt_expertId q) (id (inv_expert inv))) eqn:F.
  - split; reflexivity.
  - apply jsstring_eqb_neq in F. contradiction.
Qed.

Lemma rejected_keeps_others inv e st p :
  In p (pendingTasks st) -> pt_expertId p <> id (inv_expert inv) ->
  In p (pendingTasks (executeSingleTask_rejected inv e st)).
Proof.
  rewrite rejected_eq. cbn [pendingTasks]. intros H E.
  apply in_map_iff. exists p. split; [|exact H].
  apply jsstring_eqb_neq in E. rewrite E. reflexivity.
Qed.

Lemma rejected_marks_same inv e st p :
  In p (pendingTasks st) -> pt_expertId p = id (inv_expert inv) ->
  In (withError p (errMessage e))
    (pendingTasks (executeSingleTask_rejected inv e st)).
Proof.
  rewrite rejected_eq. cbn [pendingTasks]. intros H E.
  apply in_map_iff. exists p. split; [|exact H].
  apply jsstring_eqb_eq in E. rewrite E. reflexivity.
Qed.

Lemma fulfilled_markers inv c st p :
  In p (pendingTasks (executeSingleTask_fulfilled inv c st)) <->
  In p (pendingTasks st) /\ pt_expertId p <> id (inv_expert inv).
Proof.
  rewrite fulfilled_eq. cbv zeta. cbn [pendingTasks].
  rewrite filter_In, negb_true_iff, jsstring_eqb_neq. reflexivity.
Qed.

(** C7, amended: when the adapter call of a started invocation fails,
    every marker then in the collection that carries the expert id of
    the invocation is given status [error] and the message of the
    failure (a fixed text when the failure has none): its own marker if
    it is still there, and those of other invocations of the same
    expert.  The markers of other experts are kept as they are, no
    result is stored, no timer is set, the other suspended invocations
    stay suspended, the stop flag is untouched, and the counter goes
    down by one, never below zero. *)
Theorem failure_is_contained i inv e st :
  nth_error (inflight st) i = Some inv ->
  exists st', step (EvRejected i e) st = Some st'
    /\ pendingTasks st'
       = map (fun p => if jsstring_eqb (pt_expertId p) (id (inv_expert inv))
                       then withError p (errMessage e) else p)
           (pendingTasks st)
    /\ (forall p, In p (pendingTasks st') ->
          pt_expertId p = id (inv_expert inv) ->
          status p = error /\ errorMessage p = Some (errMessage e))
    /\ (forall p, In p (pendingTasks st) ->
          pt_expertId p <> id (inv_expert inv) -> In p (pendingTasks st'))
    /\ length (pendingTasks st') = length (pendingTasks st)
    /\ taskResults st' = taskResults st
    /\ timers st' = timers st
    /\ inflight st' = remove_at i (inflight st)
    /\ stopAutoExecutionRef st' = stopAutoExecutionRef st
    /\ activeTaskCount st' = Z.max 0 (activeTaskCount st - 1)
    /\ (reachable st -> activeTaskCount st' = (activeTaskCount st - 1)%Z)
    /\ (forall m, message e = Some m -> m <> [] -> errMessage e = m).
Proof.
  intros N. simpl. rewrite N. eexists. split; [reflexivity|].
  split; [reflexivity|]. split; [apply rejected_markers|].
  split; [intros p;
          apply (@rejected_keeps_others inv e (setInflight (remove_at i) st) p)|].
  rewrite rejected_eq.
  cbn [pendingTasks taskResults timers inflight stopAutoExecutionRef
       activeTaskCount setInflight].
  split; [apply length_map|]. repeat split.
  - intros R. apply counter_inv_reachable in R.
    unfold counter_inv, outstanding in R. apply remove_at_length in N.
    unfold decrement. lia.
  - apply errMessage_message.
Qed.

(** C10: at settlement the markers are found by expert id.  A success
    removes every marker carrying the expert id of the settling
    invocation, whatever its own id and its status, and keeps the
    others in order; a failure gives every marker carrying that expert
    id the status [error] and the message of the failure, and leaves
    the others as they are. *)
Theorem settlement_keyed_by_expert inv st :
  (forall c,
     pendingTasks (executeSingleTask_fulfilled inv c st)
     = filter (fun p => negb (jsstring_eqb (pt_expertId p) (id (inv_expert inv))))
         (pendingTasks st)
     /\ (forall p, In p (pendingTasks (executeSingleTask_fulfilled inv c st)) <->
           In p (pendingTasks st) /\ pt_expertId p <> id (inv_expert inv)))
  /\ (forall e,
        pendingTasks (executeSingleTask_rejected inv e st)
        = map (fun p => if jsstring_eqb (pt_expertId p) (id (inv_expert inv))
                        then withError p (errMessage e) else p)
            (pendingTasks st)
        /\ (forall p, In p (pendingTasks st) ->
              pt_expertId p = id (inv_expert inv) ->
              In (withError p (errMessage e))
                (pendingTasks (executeSingleTask_rejected inv e st)))
        /\ (forall p, In p (pendingTasks (executeSingleTask_rejected inv e st)) ->
              pt_expertId p = id (inv_expert inv) ->
              status p = error /\ errorMessage p = Some (errMessage e))
        /\ (forall p, In p (pendingTasks st) ->
              pt_expertId p <> id (inv_expert inv) ->
              In p (pendingTasks (executeSingleTask_rejected inv e st)))).
Proof.
  split.
  - intros c. split; [rewrite fulfilled_eq; reflexivity|].
    apply fulfilled_markers.
  - intros e. split; [reflexivity|].
    split; [apply rejected_marks_same|].
    split; [apply rejected_markers|apply rejected_keeps_others].
Qed.


(** ** The parser *)



(** C2, amended: for a response processed at depth 2 or more the list
    of follow-up targets is empty, no timer is set, and the text stored
    as result content is the response with the successive matches of
    the directive expression cut out: the matches one scan from the left
    finds, each taken where it starts and the scan resuming after it,
    the same ones as at smaller depths. *)
Theorem ceiling_strips_without_extracting expert depth text :
  MAX_DEPTH <= depth ->
  snd (extractDelegations expert depth text) = []
  /\ fst (extractDelegations expert depth text) = replace_all text
  /\ Removed text (exec_all text) (replace_all text)
  /\ length text
     = length (replace_all text)
       + list_sum (map (fun m => length (fullMatch m)) (exec_all text))
  /\ (forall inv c st, inv_expert inv = expert -> inv_depth inv = depth ->
        responseText c = text ->
        timers (executeSingleTask_fulfilled inv c st) = timers st
        /\ taskResults (executeSingleTask_fulfilled inv c st)
           = storedResult inv c :: taskResults st
        /\ resultContent (storedResult inv c) = replace_all text).
Proof.
  intros H. split; [apply followUpTasks_at_ceiling; exact H|].
  split; [reflexivity|]. split; [apply Removed_exec_replace|].
  split; [apply Removed_length, Removed_exec_replace|].
  intros inv c st <- <- <-. rewrite fulfilled_eq. cbv zeta.
  cbn [timers taskResults]. unfold willContinue.
  rewrite followUpTasks_at_ceiling by exact H. simpl. repeat split.
Qed.

(** C9, amended: the cleaning is one pass.  A text in which the scan
    finds no match is returned unchanged, and only such a text is; so
    cleaning a cleaned text again changes nothing exactly when the
    scan of the cleaned text finds no match.  The cleaning never makes
    a text longer. *)
Theorem cleaning_fixed_points text :
  (exec_all text = [] <-> replace_all text = text)
  /\ (exec_all (replace_all text) = [] <->
      replace_all (replace_all text) = replace_all text)
  /\ length (replace_all text) <= length text.
Proof.
  split; [apply exec_all_nil_iff|]. split; [apply exec_all_nil_iff|].
  pose proof (Removed_length (Removed_exec_replace text)). lia.
Qed.


(** * The rest of the component and what it calls *)

(** ** Sets of ids kept as lists *)

Lemma set_add_In l x y : In y (set_add l x) <-> In y l \/ y = x.
Proof.
  unfold set_add. destruct (has l x) eqn:H.
  - apply has_In in H. split; [auto|]. intros [I| ->]; assumption.
  - rewrite in_app_iff. simpl. split.
    + intros [I|[<-|[]]]; auto.
    + intros [I| ->]; auto.
Qed.

Lemma set_add_NoDup l x : NoDup l -> NoDup (set_add l x).
Proof.
  intros D. unfold set_add. destruct (has l x) eqn:H; [exact D|].
  assert (N : ~ In x l).
  { intros I. apply has_In in I. congruence. }
  apply NoDup_app; [exact D|constructor; [intros []|constructor]|].
  intros a I [<-|[]]. contradiction.
Qed.

Lemma set_delete_In l x y : In y (set_delete l x) <-> In y l /\ y <> x.
Proof.
  unfold set_delete. rewrite filter_In, negb_true_iff, jsstring_eqb_neq.
  split; intros [A B]; split; auto.
Qed.

Lemma set_delete_NoDup l x : NoDup l -> NoDup (set_delete l x).
Proof. apply NoDup_filter. Qed.

Lemma fold_add_In (f : jsstring -> bool) l : forall acc y,
  In y (fold_left (fun next i => if f i then set_add next i else next) l acc)
  <-> In y acc \/ (In y l /\ f y = true).
Proof.
  try clear projectDescription; try clear toLowerCase; try clear team.
  induction l as [|a l IH]; intros acc y; simpl.
  - tauto.
  - rewrite IH. destruct (f a) eqn:F.
    + rewrite set_add_In. split.
      * intros [[I| ->]|[I E]]; auto.
      * intros [I|[[<-|I] E]]; auto.
    + split.
      * intros [I|[I E]]; auto.
      * intros [I|[[<-|I] E]]; auto. congruence.
Qed.

Lemma fold_add_NoDup (f : jsstring -> bool) l : forall acc,
  NoDup acc ->
  NoDup (fold_left (fun next i => if f i then set_add next i else next) l acc).
Proof.
  induction l as [|a l IH]; intros acc D; simpl; [exact D|].
  apply IH. destruct (f a); [apply set_add_NoDup|]; exact D.
Qed.

Lemma fold_add_fixed (f : jsstring -> bool) l : forall acc,
  NoDup (acc ++ l) -> (forall i, In i l -> f i = true) ->
  fold_left (fun next i => if f i then set_add next i else next) l acc
  = acc ++ l.
Proof.
  induction l as [|a l IH]; intros acc D F; simpl.
  - rewrite app_nil_r. reflexivity.
  - rewrite (F a (or_introl eq_refl)).
    assert (H : has acc a = false).
    { destruct (has acc a) eqn:H; [|reflexivity]. apply has_In in H.
      apply NoDup_remove_2 in D. exfalso. apply D.
      apply in_or_app. left. exact H. }
    unfold set_add. rewrite H.
    rewrite IH; rewrite <- ?app_assoc; simpl; auto.
    intros i I. apply F. right. exact I.
Qed.

Lemma newSet_as_fold ids acc :
  fold_left set_add ids acc
  = fold_left (fun next i => if (fun _ : jsstring => true) i
                             then set_add next i else next) ids acc.
Proof.
  revert acc. induction ids as [|a ids IH]; intros acc; simpl;
    [reflexivity|apply IH].
Qed.

Lemma newSet_In ids y : In y (newSet ids) <-> In y ids.
Proof.
  try clear projectDescription; try clear toLowerCase; try clear team.
  unfold newSet. rewrite newSet_as_fold.
  rewrite (fold_add_In (fun _ => true) ids [] y). simpl. tauto.
Qed.

Lemma newSet_NoDup ids : NoDup (newSet ids).
Proof.
  unfold newSet. rewrite newSet_as_fold.
  apply (fold_add_NoDup (fun _ => true)). constructor.
Qed.

Lemma newSet_fixed ids : NoDup ids -> newSet ids = ids.
Proof.
  intros D. unfold newSet. rewrite newSet_as_fold.
  apply (fold_add_fixed (fun _ => true) ids []); auto.
Qed.

(** ** The team of [TeamBuilder] and [App] *)

Lemma find_id_some (l : list Expert) x :
  (exists e, find (fun e => jsstring_eqb (id e) x) l = Some e)
  <-> In x (map id l).
Proof.
  split.
  - intros (e & H). apply find_some in H as [I E].
    apply jsstring_eqb_eq in E. subst x. apply in_map. exact I.
  - intros I. apply in_map_iff in I as (e & <- & I).
    destruct (find (fun e0 => jsstring_eqb (id e0) (id e)) l) as [e'|] eqn:F;
      [eauto|].
    exfalso. pose proof (find_none _ _ F e I) as N. simpl in N.
    rewrite jsstring_eqb_refl in N. discriminate.
Qed.

Lemma filter_all {A} (f : A -> bool) l :
  (forall x, In x l -> f x = true) -> filter f l = l.
Proof.
  induction l as [|a l IH]; intros H; simpl; [reflexivity|].
  rewrite (H a (or_introl eq_refl)). f_equal. apply IH.
  intros x I. apply H. right. exact I.
Qed.

(** X1: [handleToggleExpert] never puts two experts of one id on the
    team: from a team whose ids are all different it gives such a team
    again.  An expert whose id is on the team leaves with every record of
    that id, one whose id is not joins; the other members stay; and
    toggling twice an expert who was not on the team gives the team
    back. *)
Theorem toggle_expert_keeps_ids_unique (members : list Expert) expert :
  (NoDup (map id members) ->
   NoDup (map id (handleToggleExpert members expert)))
  /\ (In (id expert) (map id members) <->
      ~ In (id expert) (map id (handleToggleExpert members expert)))
  /\ (forall e, id e <> id expert ->
        (In e (handleToggleExpert members expert) <-> In e members))
  /\ (~ In (id expert) (map id members) ->
      handleToggleExpert members expert = members ++ [expert]
      /\ handleToggleExpert (handleToggleExpert members expert) expert
         = members).
Proof.
  try clear projectDescription; try clear toLowerCase; try clear team.
  destruct (find (fun e => jsstring_eqb (id e) (id expert)) members)
    as [e0|] eqn:F.
  - assert (E : handleToggleExpert members expert
                = filter (fun e => negb (jsstring_eqb (id e) (id expert)))
                    members)
      by (unfold handleToggleExpert; rewrite F; reflexivity).
    rewrite E.
    assert (I : In (id expert) (map id members))
      by (apply find_id_some; eauto).
    split; [intros D; apply NoDup_map_filter; exact D|].
    split; [|split].
    + split; [|intros _; exact I]. intros _ H.
      apply in_map_iff in H as (e & Q & H). apply filter_In in H as [_ H].
      apply negb_true_iff, jsstring_eqb_neq in H. congruence.
    + intros e N. rewrite filter_In, negb_true_iff, jsstring_eqb_neq. tauto.
    + intros N. contradiction.
  - assert (E : handleToggleExpert members expert = members ++ [expert])
      by (unfold handleToggleExpert; rewrite F; reflexivity).
    rewrite E.
    assert (I : ~ In (id expert) (map id members)).
    { intros I. apply find_id_some in I as (e & Q). congruence. }
    split; [|split; [|split]].
    + intros D. rewrite map_app. simpl.
      apply NoDup_app; [exact D|constructor; [intros []|constructor]|].
      intros a A [<-|[]]. contradiction.
    + split; [contradiction|]. intros N. exfalso. apply N.
      rewrite map_app. apply in_or_app. right. left. reflexivity.
    + intros e N. rewrite in_app_iff. simpl. split; [|auto].
      intros [H|[<-|[]]]; [exact H|congruence].
    + intros _. split; [reflexivity|].
      unfold handleToggleExpert.
      destruct (find (fun e => jsstring_eqb (id e) (id expert))
                  (members ++ [expert])) as [e1|] eqn:F1.
      * rewrite filter_app. simpl. rewrite jsstring_eqb_refl. simpl.
        rewrite app_nil_r. apply filter_all. intros x X.
        apply negb_true_iff, jsstring_eqb_neq. intros Q. apply I.
        rewrite <- Q. apply in_map. exact X.
      * exfalso. pose proof (find_none _ _ F1 expert) as N. simpl in N.
        rewrite jsstring_eqb_refl in N.
        assert (true = false); [|discriminate]. apply N.
        apply in_or_app. right. left. reflexivity.
Qed.

(** X2: [handleExpertUpdate] changes records, never the membership: the
    list keeps its ids in the same order, so its length and the
    uniqueness of its ids; every record of the updated id is the new
    record, the others are untouched; an update for an id that is not
    on the list changes nothing, and updating twice is updating once. *)
Theorem expert_update_keeps_ids updated (prev : list Expert) :
  map id (handleExpertUpdate updated prev) = map id prev
  /\ length (handleExpertUpdate updated prev) = length prev
  /\ (forall e, In e (handleExpertUpdate updated prev) ->
        (id e = id updated -> e = updated)
        /\ (id e <> id updated -> In e prev))
  /\ (~ In (id updated) (map id prev) ->
      handleExpertUpdate updated prev = prev)
  /\ handleExpertUpdate updated (handleExpertUpdate updated prev)
     = handleExpertUpdate updated prev.
Proof.
  unfold handleExpertUpdate. split; [|split; [|split; [|split]]].
  - rewrite map_map. apply map_ext. intros e.
    destruct (jsstring_eqb (id e) (id updated)) eqn:E; [|reflexivity].
    apply jsstring_eqb_eq in E. auto.
  - apply length_map.
  - intros e H. apply in_map_iff in H as (x & <- & H).
    destruct (jsstring_eqb (id x) (id updated)) eqn:E.
    + split; [reflexivity|]. intros N. congruence.
    + apply jsstring_eqb_neq in E. split; [contradiction|auto].
  - intros N. rewrite <- (map_id prev) at 2. apply map_ext_in.
    intros e I. destruct (jsstring_eqb (id e) (id updated)) eqn:E;
      [|reflexivity].
    apply jsstring_eqb_eq in E. exfalso. apply N. rewrite <- E.
    apply in_map. exact I.
  - rewrite map_map. apply map_ext. intros e.
    destruct (jsstring_eqb (id e) (id updated)) eqn:E.
    + rewrite jsstring_eqb_refl. reflexivity.
    + rewrite E. reflexivity.
Qed.

(** ** The selection of [TeamTasks] *)

Lemma team_id_In i : (exists e, In e team /\ id e = i) <-> In i (map id team).
Proof.
  rewrite in_map_iff. split; intros (e & A & B); exists e; auto.
Qed.

Lemma toggle_selection_eq i st :
  selectedExpertIds (toggleExpertSelection i st)
  = if has (selectedExpertIds st) i
    then set_delete (selectedExpertIds st) i
    else selectedExpertIds st ++ [i].
Proof.
  unfold toggleExpertSelection. destruct (has (selectedExpertIds st) i) eqn:H.
  - reflexivity.
  - simpl. unfold set_add. rewrite H. reflexivity.
Qed.

Lemma toggle_selection_ok e st :
  selection_ok (selectedExpertIds st) -> In e team ->
  selection_ok (selectedExpertIds (toggleExpertSelection (id e) st)).
Proof.
  intros [D T] I. rewrite toggle_selection_eq.
  destruct (has (selectedExpertIds st) (id e)) eqn:H.
  - split; [apply set_delete_NoDup; exact D|].
    intros i J. apply set_delete_In in J as [J _]. auto.
  - split.
    + pose proof (set_add_NoDup (id e) D) as K. unfold set_add in K.
      rewrite H in K. exact K.
    + intros i J. apply in_app_or in J as [J|[<-|[]]]; [auto|eauto].
Qed.

Lemma newSet_team_ok : selection_ok (newSet (map id team)).
Proof.
  split; [apply newSet_NoDup|].
  intros i I. apply (proj1 (newSet_In _ _)) in I.
  apply team_id_In. exact I.
Qed.

Lemma selectAll_selection_ok st :
  selection_ok (selectedExpertIds (selectAllExperts st)).
Proof.
  unfold selectAllExperts.
  destruct (length (selectedExpertIds st) =? length team); simpl.
  - split; [constructor|intros i []].
  - apply newSet_team_ok.
Qed.

Lemma syncSelection_In prev i :
  In i (syncSelection prev) <-> In i prev /\ In i (map id team).
Proof.
  try clear projectDescription; try clear toLowerCase; try clear team.
  unfold syncSelection. cbv zeta.
  rewrite (fold_add_In (has (newSet (map id team))) prev [] i).
  rewrite has_In, newSet_In. simpl. tauto.
Qed.

(** X3: the handlers of the selection keep it a set of team ids.  From
    a selection that holds each id once and ids of the team only,
    [toggleExpertSelection] and [handleMentionSelect] of a team member
    and [selectAllExperts] give such a selection again.  A toggle flips
    the membership of its id and of no other; a mention selects its
    expert, deselects nobody, hides the mention list and appends the
    name and a space to the input. *)
Theorem selection_handlers_keep_ok st :
  selection_ok (selectedExpertIds st) ->
  (forall e, In e team ->
     selection_ok (selectedExpertIds (toggleExpertSelection (id e) st))
     /\ (In (id e) (selectedExpertIds st) <->
         ~ In (id e) (selectedExpertIds (toggleExpertSelection (id e) st)))
     /\ (forall i, i <> id e ->
           (In i (selectedExpertIds (toggleExpertSelection (id e) st)) <->
            In i (selectedExpertIds st))))
  /\ selection_ok (selectedExpertIds (selectAllExperts st))
  /\ (forall e, In e team ->
        selection_ok (selectedExpertIds (handleMentionSelect e st))
        /\ In (id e) (selectedExpertIds (handleMentionSelect e st))
        /\ (forall i, In i (selectedExpertIds st) ->
              In i (selectedExpertIds (handleMentionSelect e st)))
        /\ showMentionList (handleMentionSelect e st) = false
        /\ taskInput (handleMentionSelect e st)
           = taskInput st ++ name e ++ [32%N]).
Proof.
  try clear projectDescription; try clear toLowerCase; try clear team.
  intros K. split; [|split].
  - intros e I. split; [apply toggle_selection_ok; assumption|].
    rewrite toggle_selection_eq.
    destruct (has (selectedExpertIds st) (id e)) eqn:H.
    + assert (J : In (id e) (selectedExpertIds st)) by (apply has_In; exact H).
      split.
      * split; [|intros _; exact J]. intros _ Q.
        apply set_delete_In in Q as [_ Q]. congruence.
      * intros i N. rewrite set_delete_In. tauto.
    + assert (J : ~ In (id e) (selectedExpertIds st)).
      { intros J. apply has_In in J. congruence. }
      split.
      * split; [contradiction|]. intros Q. exfalso. apply Q.
        apply in_or_app. right. left. reflexivity.
      * intros i N. rewrite in_app_iff. simpl. split; [|auto].
        intros [Q|[Q|[]]]; [exact Q|congruence].
  - apply selectAll_selection_ok.
  - intros e I. destruct K as [D T]. simpl. split; [split|split; [|split]].
    + apply set_add_NoDup. exact D.
    + intros i J. apply set_add_In in J as [J| ->]; [auto|eauto].
    + apply set_add_In. right. reflexivity.
    + intros i J. apply set_add_In. left. exact J.
    + split; reflexivity.
Qed.

(** X4: the effect that follows a change of the team leaves a selection
    that holds each id once and ids of the team only, whatever the
    selection was: it keeps exactly the ids still on the team, so
    nothing when the team is empty; and it changes nothing when the
    selection already was such a set. *)
Theorem sync_selection_prunes prev :
  selection_ok (syncSelection prev)
  /\ (forall i, In i (syncSelection prev) <->
        In i prev /\ exists e, In e team /\ id e = i)
  /\ (selection_ok prev -> syncSelection prev = prev)
  /\ (team = [] -> syncSelection prev = []).
Proof.
  try clear projectDescription; try clear toLowerCase; try clear team.
  assert (A : forall i, In i (syncSelection prev) <->
                In i prev /\ exists e, In e team /\ id e = i).
  { intros i. rewrite syncSelection_In, team_id_In. reflexivity. }
  split; [|split; [exact A|split]].
  - split.
    + unfold syncSelection. cbv zeta.
      apply (fold_add_NoDup (has (newSet (map id team)))). constructor.
    + intros i I. apply A in I. tauto.
  - intros [D T]. unfold syncSelection. cbv zeta.
    apply (fold_add_fixed (has (newSet (map id team))) prev []); [exact D|].
    intros i I. apply has_In. apply (proj2 (newSet_In _ _)).
    apply team_id_In. auto.
  - intros E. destruct (syncSelection prev) as [|i l]; [reflexivity|].
    destruct (proj1 (A i) (or_introl eq_refl)) as (_ & e & I & _).
    rewrite E in I. destruct I.
Qed.

Lemma step_selection ev st st' :
  step ev st = Some st' ->
  selectedExpertIds st' = selectedExpertIds st
  \/ exists k e, ev = EvToggle k /\ nth_error team k = Some e
       /\ st' = toggleExpertSelection (id e) st.
Proof.
  intros H. destruct ev; simpl in H.
  - injection H as <-. left. unfold handleInputStringChange.
    destruct (endsWithAt val); [|destruct (_ && _)]; reflexivity.
  - destruct (nth_error team k) as [e|] eqn:N; [|discriminate].
    injection H as <-. right. eauto.
  - destruct (executeDisabled st); [discriminate|]. injection H as <-.
    left. destruct (execute_cases clock st) as [[msg ->]| ->]; reflexivity.
  - destruct (isProcessing st); [|discriminate]. injection H as <-.
    left. reflexivity.
  - destruct (nth_error (pendingTasks st) k) as [q|]; [|discriminate].
    destruct (status q); try discriminate. injection H as <-.
    left. reflexivity.
  - destruct (nth_error (taskResults st) k); [|discriminate].
    injection H as <-. left. reflexivity.
  - destruct (taskResults st); [discriminate|]. injection H as <-.
    left. reflexivity.
  - destruct (terminationMessage st); [|discriminate]. injection H as <-.
    left. reflexivity.
  - destruct (nth_error (inflight st) i); [|discriminate].
    injection H as <-. left. rewrite fulfilled_eq. reflexivity.
  - destruct (nth_error (inflight st) i); [|discriminate].
    injection H as <-. left. reflexivity.
  - destruct (nth_error (timers st) j); [|discriminate].
    injection H as <-. left. rewrite timeout_eq.
    destruct (stopAutoExecutionRef st) eqn:S.
    + rewrite launch_stopped by exact S. reflexivity.
    + rewrite launch_running by exact S. reflexivity.
Qed.

Lemma selection_ok_reachable st :
  reachable st -> selection_ok (selectedExpertIds st).
Proof.
  induction 1 as [|ev st st' _ IH H].
  - unfold initialState. simpl. destruct team as [|e l] eqn:T.
    + split; [constructor|intros i []].
    + split; [constructor; [intros []|constructor]|].
      intros i [<-|[]]. exists e.
      split; [rewrite T; left; reflexivity|reflexivity].
  - destruct (step_selection _ _ H) as [->|(k & e & _ & N & ->)];
      [exact IH|].
    apply toggle_selection_ok; [exact IH|]. eapply nth_error_In; eauto.
Qed.

(** X5: in every state the component reaches the selection holds each id
    once and ids of team members only.  So, when the ids of the team
    are all different, the experts a dispatch starts are as many as the
    selection has ids: a dispatch that goes through sets the counter to
    [selectedExpertIds.size]. *)
Theorem selection_within_team st :
  reachable st ->
  NoDup (selectedExpertIds st)
  /\ (forall i, In i (selectedExpertIds st) -> exists e, In e team /\ id e = i)
  /\ (NoDup (map id team) ->
      length (filter (fun e => has (selectedExpertIds st) (id e)) team)
      = length (selectedExpertIds st)
      /\ length (selectedExpertIds st) <= length team
      /\ forall clock st',
           handleExecuteBatchTasks clock st = (st', None) ->
           activeTaskCount st' = Z.of_nat (length (selectedExpertIds st))).
Proof.
  intros R. destruct (selection_ok_reachable R) as [D T].
  split; [exact D|]. split; [exact T|]. intros Dt.
  assert (L : length (filter (fun e => has (selectedExpertIds st) (id e)) team)
              = length (selectedExpertIds st))
    by (apply selected_count; assumption).
  split; [exact L|]. split.
  - rewrite <- L. rewrite <- (length_map id team).
    rewrite <- (length_map id (filter _ team)).
    apply NoDup_incl_length; [apply NoDup_map_filter; exact Dt|].
    intros i I. apply in_map_iff in I as (e & <- & I).
    apply filter_In in I as [I _]. apply in_map. exact I.
  - intros clock st' E.
    destruct (execute_cases clock st) as [[msg Q]|Q]; rewrite Q in E.
    + discriminate.
    + cbv zeta in E. injection E as <-. simpl. rewrite L. reflexivity.
Qed.

Lemma covers_iff_length sel :
  NoDup (map id team) -> selection_ok sel ->
  (length sel = length team <-> forall e, In e team -> In (id e) sel).
Proof.
  intros Dt [D T]. rewrite <- (length_map id team).
  assert (S : incl sel (map id team)).
  { intros i I. apply team_id_In. auto. }
  split.
  - intros L e I.
    apply (NoDup_length_incl D (l' := map id team)); [lia|exact S|].
    apply in_map. exact I.
  - intros C. apply Nat.le_antisymm; apply NoDup_incl_length; auto.
    intros i I. apply in_map_iff in I as (e & <- & I). auto.
Qed.

(** X6: [selectAllExperts], on a team whose ids are all different and a
    selection within it: when every member is selected it clears the
    selection; otherwise it selects every member, and pressed once more
    it clears the selection. *)
Theorem select_all_toggles st :
  NoDup (map id team) -> selection_ok (selectedExpertIds st) ->
  ((forall e, In e team -> In (id e) (selectedExpertIds st)) ->
   selectedExpertIds (selectAllExperts st) = [])
  /\ (~ (forall e, In e team -> In (id e) (selectedExpertIds st)) ->
      selectedExpertIds (selectAllExperts st) = map id team
      /\ selectedExpertIds (selectAllExperts (selectAllExperts st)) = []).
Proof.
  intros Dt K. pose proof (covers_iff_length Dt K) as C. split.
  - intros A. apply (proj2 C) in A. apply Nat.eqb_eq in A.
    unfold selectAllExperts. rewrite A. reflexivity.
  - intros A.
    assert (E : selectAllExperts st = setSelectedExpertIds (map id team) st).
    { unfold selectAllExperts.
      destruct (length (selectedExpertIds st) =? length team) eqn:L.
      - apply Nat.eqb_eq in L. exfalso. exact (A (proj1 C L)).
      - rewrite newSet_fixed by exact Dt. reflexivity. }
    rewrite E. split; [reflexivity|].
    unfold selectAllExperts. simpl. rewrite length_map, Nat.eqb_refl.
    reflexivity.
Qed.

(** ** What the directive expression matches *)

Lemma starts_with_complete p r : starts_with p (p ++ r) = Some r.
Proof.
  induction p as [|a p IH]; simpl; [reflexivity|].
  rewrite N.eqb_refl. exact IH.
Qed.

Lemma firstn_exact {A} (a b : list A) :
  firstn (length (a ++ b) - length b) (a ++ b) = a.
Proof.
  rewrite length_app, Nat.add_sub.
  induction a as [|x a IH]; simpl; [reflexivity|]. f_equal. exact IH.
Qed.

Lemma grow2_eq acc s :
  grow2 acc s =
  match starts_with sep s with
  | Some rest => Some (acc, rest)
  | None =>
      match s with
      | c :: s' => if dot c then grow2 (acc ++ [c]) s' else None
      | [] => None
      end
  end.
Proof. destruct s; reflexivity. Qed.

Lemma grow1_eq acc s :
  grow1 acc s =
  match starts_with sep s with
  | Some rest =>
      match group2 rest with
      | Some (g2, rest') => Some (acc, g2, rest')
      | None =>
          match s with
          | c :: s' => if dot c then grow1 (acc ++ [c]) s' else None
          | [] => None
          end
      end
  | None =>
      match s with
      | c :: s' => if dot c then grow1 (acc ++ [c]) s' else None
      | [] => None
      end
  end.
Proof. destruct s; reflexivity. Qed.

Lemma grow2_shape s : forall acc g r,
  grow2 acc s = Some (g, r) ->
  exists x, g = acc ++ x /\ s = x ++ sep ++ r /\ forallb dot x = true
    /\ forall x1 x2, x = x1 ++ x2 -> x2 <> [] ->
         starts_with sep (x2 ++ sep ++ r) = None.
Proof.
  induction s as [|c s IH]; intros acc g r H; rewrite grow2_eq in H.
  - simpl in H. discriminate.
  - destruct (starts_with sep (c :: s)) as [rest|] eqn:E.
    + injection H as <- <-. exists []. rewrite app_nil_r.
      apply starts_with_app in E. repeat split; auto.
      intros x1 x2 Q N. symmetry in Q. apply app_eq_nil in Q as [_ Q].
      contradiction.
    + destruct (dot c) eqn:D; [|discriminate].
      apply IH in H as (x & -> & -> & F & L). exists (c :: x).
      rewrite <- app_assoc. simpl. rewrite D. repeat split; auto.
      intros x1 x2 Q N. destruct x1 as [|a x1]; simpl in Q.
      * subst x2. exact E.
      * injection Q as _ Q. eapply L; eauto.
Qed.

Lemma group2_shape s g r :
  group2 s = Some (g, r) ->
  s = g ++ sep ++ r /\ g <> [] /\ forallb dot g = true
  /\ lazy_instruction g r.
Proof.
  destruct s as [|c s]; simpl; [discriminate|].
  destruct (dot c) eqn:D; [|discriminate]. intros H.
  apply grow2_shape in H as (x & -> & -> & F & L).
  simpl. rewrite D. repeat split; auto; [discriminate|].
  intros x1 x2 Q N1 N2. destruct x1 as [|a x1]; [congruence|].
  simpl in Q. injection Q as _ Q. eapply L; eauto.
Qed.

Lemma grow1_shape s : forall acc g1 g2 r,
  grow1 acc s = Some (g1, g2, r) ->
  exists x, g1 = acc ++ x /\ forallb dot x = true
    /\ s = x ++ sep ++ g2 ++ sep ++ r
    /\ g2 <> [] /\ forallb dot g2 = true /\ lazy_instruction g2 r.
Proof.
  induction s as [|c s IH]; intros acc g1 g2 r H; rewrite grow1_eq in H.
  - simpl in H. discriminate.
  - assert (K : (if dot c then grow1 (acc ++ [c]) s else None)
                = Some (g1, g2, r) ->
                exists x, g1 = acc ++ x /\ forallb dot x = true
                  /\ c :: s = x ++ sep ++ g2 ++ sep ++ r
                  /\ g2 <> [] /\ forallb dot g2 = true
                  /\ lazy_instruction g2 r).
    { destruct (dot c) eqn:D; [|discriminate]. intros K.
      apply IH in K as (x & -> & F & -> & N & G & L). exists (c :: x).
      rewrite <- app_assoc. simpl. rewrite D. repeat split; auto. }
    destruct (starts_with sep (c :: s)) as [rest|] eqn:E; auto.
    destruct (group2 rest) as [[g r']|] eqn:G; auto.
    injection H as <- <- <-. apply starts_with_app in E.
    apply group2_shape in G as (-> & N & F & L).
    exists []. rewrite app_nil_r. repeat split; auto.
Qed.

Lemma match_at_shape s m :
  match_at s = Some m ->
  exists post,
    s = fullMatch m ++ post
    /\ fullMatch m
       = sentinel ++ targetNamePartial m ++ sep ++ nextInstruction m ++ sep
    /\ targetNamePartial m <> [] /\ nextInstruction m <> []
    /\ forallb dot (targetNamePartial m) = true
    /\ forallb dot (nextInstruction m) = true
    /\ lazy_instruction (nextInstruction m) post.
Proof.
  unfold match_at. intros H.
  destruct (starts_with sentinel s) as [[|c r]|] eqn:E; try discriminate.
  destruct (dot c) eqn:D; [|discriminate].
  destruct (grow1 [c] r) as [[[g1 g2] rest]|] eqn:G; [|discriminate].
  injection H as <-. cbn [fullMatch targetNamePartial nextInstruction].
  apply starts_with_app in E.
  apply grow1_shape in G as (x & -> & F & R & N & F2 & L).
  rewrite R in E. subst s.
  replace (sentinel ++ c :: x ++ sep ++ g2 ++ sep ++ rest)
    with ((sentinel ++ ([c] ++ x) ++ sep ++ g2 ++ sep) ++ rest)
    by (rewrite <- !app_assoc; reflexivity).
  exists rest. rewrite firstn_exact.
  split; [reflexivity|]. split; [reflexivity|]. split; [discriminate|].
  split; [exact N|]. split; [simpl; rewrite D; exact F|].
  split; assumption.
Qed.

Lemma grow2_complete rest g : forall acc,
  forallb dot g = true -> exists res, grow2 acc (g ++ sep ++ rest) = Some res.
Proof.
  induction g as [|c g IH]; intros acc F; rewrite grow2_eq.
  - rewrite app_nil_l, starts_with_complete. eauto.
  - destruct (starts_with sep ((c :: g) ++ sep ++ rest)); [eauto|].
    simpl in F. apply andb_true_iff in F as [D F].
    rewrite <- app_comm_cons, D. apply IH. exact F.
Qed.

Lemma group2_complete rest g :
  g <> [] -> forallb dot g = true ->
  exists res, group2 (g ++ sep ++ rest) = Some res.
Proof.
  destruct g as [|c g]; [congruence|]. intros _ F. simpl in F.
  apply andb_true_iff in F as [D F]. rewrite <- app_comm_cons.
  cbn [group2]. rewrite D. apply grow2_complete. exact F.
Qed.

Lemma grow1_complete rest g2 g1 : forall acc,
  forallb dot g1 = true -> g2 <> [] -> forallb dot g2 = true ->
  exists res, grow1 acc (g1 ++ sep ++ g2 ++ sep ++ rest) = Some res.
Proof.
  induction g1 as [|c g1 IH]; intros acc F N F2; rewrite grow1_eq.
  - rewrite app_nil_l, starts_with_complete.
    destruct (@group2_complete rest g2 N F2) as ([g r] & ->). eauto.
  - simpl in F. apply andb_true_iff in F as [D F].
    assert (K : exists res,
              (if dot c then grow1 (acc ++ [c]) (g1 ++ sep ++ g2 ++ sep ++ rest)
               else None) = Some res).
    { rewrite D. apply IH; assumption. }
    rewrite <- app_comm_cons.
    destruct (starts_with sep (c :: g1 ++ sep ++ g2 ++ sep ++ rest))
      as [r0|]; [|exact K].
    destruct (group2 r0) as [[g r]|]; [eauto|exact K].
Qed.

Lemma match_at_complete g1 g2 post :
  g1 <> [] -> g2 <> [] -> forallb dot g1 = true -> forallb dot g2 = true ->
  exists m, match_at (sentinel ++ g1 ++ sep ++ g2 ++ sep ++ post) = Some m.
Proof.
  intros N1 N2 F1 F2. unfold match_at. rewrite starts_with_complete.
  destruct g1 as [|c g1]; [congruence|]. simpl in F1.
  apply andb_true_iff in F1 as [D F1]. rewrite <- app_comm_cons, D.
  destruct (@grow1_complete post g2 g1 [c] F1 N2 F2) as ([[a b] r] & ->).
  eauto.
Qed.

Lemma exec_all_nil_suffix pre : forall s suf,
  exec_all s = [] -> s = pre ++ suf -> match_at suf = None.
Proof.
  induction pre as [|c pre IH]; intros s suf H E; simpl in E; subst s.
  - destruct suf as [|c suf]; [reflexivity|].
    rewrite exec_all_cons in H.
    destruct (match_at (c :: suf)); [discriminate|reflexivity].
  - rewrite exec_all_cons in H.
    destruct (match_at (c :: pre ++ suf)); [discriminate|].
    eapply IH; eauto.
Qed.

Lemma Removed_occurs s ms t m :
  Removed s ms t -> In m ms ->
  exists pre post, s = pre ++ fullMatch m ++ post
    /\ match_at (fullMatch m ++ post) = Some m.
Proof.
  induction 1 as [|c s ms t N R IH|m0 rest ms t M R IH]; intros I.
  - destruct I.
  - destruct (IH I) as (pre & post & -> & Q). exists (c :: pre), post. auto.
  - destruct I as [<-|I].
    + exists [], rest. auto.
    + destruct (IH I) as (pre & post & -> & Q).
      exists (fullMatch m0 ++ pre), post. rewrite <- app_assoc. auto.
Qed.

Lemma exec_all_shape text m :
  In m (exec_all text) ->
  exists pre post,
    text = pre ++ fullMatch m ++ post
    /\ fullMatch m
       = sentinel ++ targetNamePartial m ++ sep ++ nextInstruction m ++ sep
    /\ targetNamePartial m <> [] /\ nextInstruction m <> []
    /\ forallb dot (targetNamePartial m) = true
    /\ forallb dot (nextInstruction m) = true
    /\ lazy_instruction (nextInstruction m) post.
Proof.
  intros I.
  destruct (@Removed_occurs _ _ _ m (Removed_exec_replace text) I)
    as (pre & post & E & M).
  apply match_at_shape in M as (post' & Q & S & N1 & N2 & F1 & F2 & L).
  apply app_inv_head in Q. subst post'.
  exists pre, post. repeat split; auto.
Qed.

(** X7: every match the scan reports lies in the text, and is the
    sentinel, a target name, [:::], an instruction and [:::]; name and
    instruction are not empty and hold no line terminator, so a match
    is at least 22 code units long and never spans two lines; the
    instruction stops at the first [:::] that follows its first code
    unit. *)
Theorem reported_match_shape text m :
  In m (exec_all text) ->
  exists pre post,
    text = pre ++ fullMatch m ++ post
    /\ fullMatch m
       = sentinel ++ targetNamePartial m ++ sep ++ nextInstruction m ++ sep
    /\ targetNamePartial m <> [] /\ nextInstruction m <> []
    /\ forallb dot (targetNamePartial m) = true
    /\ forallb dot (nextInstruction m) = true
    /\ lazy_instruction (nextInstruction m) post
    /\ 22 <= length (fullMatch m).
Proof.
  intros I.
  destruct (@exec_all_shape text m I) as (pre & post & E & S & N1 & N2 & F1 & F2 & L).
  exists pre, post. repeat split; auto.
  rewrite S, !length_app.
  destruct (targetNamePartial m); [congruence|].
  destruct (nextInstruction m); [congruence|]. simpl. lia.
Qed.

(** X8: the scan finds a match exactly when the text holds a well-formed
    directive; a text that holds none yields no follow-up and is shown
    as it is. *)
Theorem scan_finds_directives text :
  (exec_all text = [] <-> ~ has_directive text)
  /\ (~ has_directive text ->
      replace_all text = text
      /\ forall expert depth, followUpTasks expert depth text = []).
Proof.
  assert (A : exec_all text = [] <-> ~ has_directive text).
  { split.
    - intros H (pre & g1 & g2 & post & E & N1 & N2 & F1 & F2).
      destruct (@match_at_complete g1 g2 post N1 N2 F1 F2) as (m & M).
      rewrite (@exec_all_nil_suffix pre _ _ H E) in M. discriminate.
    - intros H. destruct (exec_all text) as [|m l] eqn:E; [reflexivity|].
      exfalso. apply H.
      destruct (@exec_all_shape text m) as (pre & post & Q & S & R);
        [rewrite E; left; reflexivity|].
      destruct R as (N1 & N2 & F1 & F2 & _).
      exists pre, (targetNamePartial m), (nextInstruction m), post.
      rewrite Q, S, <- !app_assoc. auto. }
  split; [exact A|]. intros H. apply A in H. split.
  - apply exec_all_nil_iff. exact H.
  - intros expert depth. unfold followUpTasks. rewrite H.
    destruct (depth <? MAX_DEPTH); reflexivity.
Qed.

(** ** Looking a name up on the team *)

Lemma includes_eq s sub :
  includes s sub =
  match starts_with sub s with
  | Some _ => true
  | None => match s with
            | [] => false
            | _ :: s' => includes s' sub
            end
  end.
Proof. destruct s; reflexivity. Qed.

Lemma includes_spec s sub :
  includes s sub = true <-> exists pre post, s = pre ++ sub ++ post.
Proof.
  split.
  - induction s as [|c s IH]; rewrite includes_eq.
    + destruct (starts_with sub []) as [r|] eqn:E; [|discriminate].
      intros _. apply starts_with_app in E. exists [], r. exact E.
    + destruct (starts_with sub (c :: s)) as [r|] eqn:E.
      * intros _. apply starts_with_app in E. exists [], r. exact E.
      * intros H. destruct (IH H) as (pre & post & ->).
        exists (c :: pre), post. reflexivity.
  - intros (pre & post & ->). induction pre as [|c pre IH];
      rewrite includes_eq.
    + rewrite app_nil_l, starts_with_complete. reflexivity.
    + rewrite <- app_comm_cons.
      destruct (starts_with sub (c :: pre ++ sub ++ post)); [reflexivity|].
      exact IH.
Qed.

Lemma find_first {A} (f : A -> bool) l e :
  find f l = Some e ->
  exists before after, l = before ++ e :: after /\ f e = true
    /\ forall x, In x before -> f x = false.
Proof.
  induction l as [|a l IH]; simpl; [discriminate|].
  destruct (f a) eqn:F.
  - intros H. injection H as <-. exists [], l. repeat split; auto.
    intros x [].
  - intros H. destruct (IH H) as (before & after & -> & E & B).
    exists (a :: before), after. repeat split; auto.
    intros x [<-|I]; auto.
Qed.

(** X9: a target name resolves to the first member of the team, in team
    order, whose lower-cased name holds the lower-cased, trimmed target
    name as a run of consecutive code units, and to nobody exactly when
    no member's name does.  A name of white space only is trimmed to the
    empty string, which every name holds: it resolves to the first
    member of the team. *)
Theorem target_resolves_to_first_holder targetName :
  (forall e, findTarget targetName = Some e ->
     exists before after,
       team = before ++ e :: after /\ name_holds e targetName
       /\ forall x, In x before -> ~ name_holds x targetName)
  /\ (findTarget targetName = None <->
      forall e, In e team -> ~ name_holds e targetName)
  /\ (toLowerCase [] = [] -> forallb isTrimmed targetName = true ->
      findTarget targetName = hd_error team).
Proof.
  unfold findTarget, name_holds. split; [|split].
  - intros e H. apply find_first in H as (before & after & E & F & B).
    exists before, after. split; [exact E|]. split.
    + apply includes_spec. exact F.
    + intros x I N. apply includes_spec in N. rewrite (B x I) in N.
      discriminate.
  - split.
    + intros H e I N. apply includes_spec in N.
      pose proof (find_none _ _ H e I) as Q. simpl in Q. congruence.
    + intros H.
      destruct (find _ team) as [e|] eqn:F; [|reflexivity].
      apply find_some in F as [I F]. exfalso. apply (H e I).
      apply includes_spec. exact F.
  - intros L B. apply trim_nil in B. rewrite B, L.
    destruct team as [|e l]; [reflexivity|]. simpl.
    rewrite includes_eq. simpl. reflexivity.
Qed.

(** ** The engine goes on until nothing is left *)

Lemma engine_enabled st :
  counter_inv st -> (0 < activeTaskCount st)%Z ->
  (exists inv, nth_error (inflight st) 0 = Some inv)
  \/ (exists tm, nth_error (timers st) 0 = Some tm).
Proof.
  unfold counter_inv, outstanding. intros C P.
  destruct (inflight st) as [|inv l]; [|left; exists inv; reflexivity].
  destruct (timers st) as [|tm l]; [|right; exists tm; reflexivity].
  simpl in C. lia.
Qed.

Lemma drain_exists st :
  counter_inv st ->
  exists evs st', forallb engine_event evs = true /\ run evs st = Some st'
    /\ activeTaskCount st' = 0%Z.
Proof.
  induction (engine_step_wf st) as [st _ IH]. intros C.
  destruct (Z.ltb_spec 0 (activeTaskCount st)) as [P|P].
  - assert (K : exists ev st1, engine_event ev = true
                               /\ step ev st = Some st1).
    { destruct (engine_enabled C P) as [(inv & N)|(tm & N)].
      - exists (EvRejected 0 (mkJsError None)). unfold step. rewrite N. eauto.
      - exists (EvTimeout 0 (fun _ => 0%N)). unfold step. rewrite N. eauto. }
    destruct K as (ev & st1 & E & S).
    destruct (IH st1) as (evs & st' & F & R & Z).
    + exists ev. auto.
    + eapply counter_inv_step; eauto.
    + exists (ev :: evs), st'. simpl. rewrite E, S. auto.
  - exists [], st. unfold counter_inv in C. simpl. repeat split; auto. lia.
Qed.

(** X10: the engine never gets stuck with work counted.  In a state the
    component reaches with the counter above 0, a suspended call can be
    resumed, whatever the adapter answers, or a timer can fire; when
    neither a call nor a timer is left the counter is 0; and from every
    reachable state some run of engine events brings the counter to
    0. *)
Theorem engine_drains st :
  reachable st ->
  ((0 < activeTaskCount st)%Z ->
   (exists inv, forall c e,
      step (EvFulfilled 0 c) st
      = Some (executeSingleTask_fulfilled inv c (setInflight (remove_at 0) st))
      /\ step (EvRejected 0 e) st
         = Some (executeSingleTask_rejected inv e
                   (setInflight (remove_at 0) st)))
   \/ (exists tm, forall clock,
         step (EvTimeout 0 clock) st
         = Some (timeout clock tm (setTimers (remove_at 0) st))))
  /\ (inflight st = [] -> timers st = [] -> activeTaskCount st = 0%Z)
  /\ ((forall ev, engine_event ev = true -> step ev st = None) ->
      activeTaskCount st = 0%Z)
  /\ exists evs st',
       forallb engine_event evs = true /\ run evs st = Some st'
       /\ reachable st' /\ activeTaskCount st' = 0%Z.
Proof.
  intros R. pose proof (counter_inv_reachable R) as C.
  split; [|split; [|split]].
  - intros P. destruct (engine_enabled C P) as [(inv & N)|(tm & N)].
    + left. exists inv. intros c e. unfold step. rewrite N. auto.
    + right. exists tm. intros clock. unfold step. rewrite N. reflexivity.
  - intros I T. unfold counter_inv, outstanding in C. rewrite C, I, T.
    reflexivity.
  - intros H. destruct (Z.ltb_spec 0 (activeTaskCount st)) as [P|P].
    + exfalso. destruct (engine_enabled C P) as [(inv & N)|(tm & N)].
      * pose proof (H (EvRejected 0 (mkJsError None)) eq_refl) as Q.
        unfold step in Q. rewrite N in Q. discriminate.
      * pose proof (H (EvTimeout 0 (fun _ => 0%N)) eq_refl) as Q.
        unfold step in Q. rewrite N in Q. discriminate.
    + unfold counter_inv in C. lia.
  - destruct (drain_exists C) as (evs & st' & F & E & Z).
    exists evs, st'. repeat split; auto. eapply run_reachable; eauto.
Qed.

(** ** The result store grows at its head *)

Lemma step_results ev st st' :
  step ev st = Some st' -> removes_results ev = false ->
  exists new, taskResults st' = new ++ taskResults st
    /\ length new = (if is_fulfilled ev then 1 else 0).
Proof.
  intros H X. destruct ev; try discriminate; simpl in H; simpl.
  - injection H as <-. exists []. unfold handleInputStringChange.
    destruct (endsWithAt val); [|destruct (_ && _)]; auto.
  - destruct (nth_error team k); [|discriminate]. injection H as <-.
    exists []. unfold toggleExpertSelection. destruct (has _ _); auto.
  - destruct (executeDisabled st); [discriminate|]. injection H as <-.
    exists []. destruct (execute_cases clock st) as [[msg ->]| ->]; auto.
  - destruct (isProcessing st); [|discriminate]. injection H as <-.
    exists []. auto.
  - destruct (nth_error (pendingTasks st) k) as [q|]; [|discriminate].
    destruct (status q); try discriminate. injection H as <-.
    exists []. auto.
  - destruct (terminationMessage st); [|discriminate]. injection H as <-.
    exists []. auto.
  - destruct (nth_error (inflight st) i) as [inv|]; [|discriminate].
    injection H as <-. rewrite fulfilled_eq.
    exists [storedResult inv c]. auto.
  - destruct (nth_error (inflight st) i); [|discriminate].
    injection H as <-. exists []. auto.
  - destruct (nth_error (timers st) j); [|discriminate].
    injection H as <-. exists []. rewrite timeout_eq.
    destruct (stopAutoExecutionRef st) eqn:S.
    + rewrite launch_stopped by exact S. auto.
    + rewrite launch_running by exact S. auto.
Qed.

(** X11: as long as the user neither deletes a result nor clears the
    record, the result store only grows at its head: after any run the
    results it held are still there, in place, below one new result for
    each successful invocation of the run; failures, abandoned
    invocations, dispatches and stops add none. *)
Theorem results_grow_at_head evs : forall st st',
  run evs st = Some st' -> existsb removes_results evs = false ->
  exists new, taskResults st' = new ++ taskResults st
    /\ length new = length (filter is_fulfilled evs).
Proof.
  induction evs as [|ev evs IH]; intros st st' H X; simpl in H.
  - injection H as <-. exists []. auto.
  - simpl in X. apply orb_false_elim in X as [X1 X2].
    destruct (step ev st) as [st1|] eqn:E; [|discriminate].
    destruct (step_results _ _ E X1) as (n1 & Q1 & L1).
    destruct (IH _ _ H X2) as (n2 & Q2 & L2).
    exists (n2 ++ n1). rewrite Q2, Q1, app_assoc. split; [reflexivity|].
    rewrite length_app, L1, L2. simpl.
    destruct (is_fulfilled ev); simpl; lia.
Qed.

(** ** Taking results and markers away *)

Lemma filter_filter_comm {A} (f g : A -> bool) l :
  filter f (filter g l) = filter g (filter f l).
Proof.
  induction l as [|a l IH]; simpl; [reflexivity|].
  destruct (f a) eqn:F, (g a) eqn:G; simpl; rewrite ?F, ?G, IH; reflexivity.
Qed.

Lemma filter_idem {A} (f : A -> bool) l : filter f (filter f l) = filter f l.
Proof.
  induction l as [|a l IH]; simpl; [reflexivity|].
  destruct (f a) eqn:F; simpl; rewrite ?F, IH; reflexivity.
Qed.

(** X12: [handleDeleteResult] removes every result that carries the id,
    and nothing else: the other results stay, and the markers,
    the counter, the stop flag, the suspended calls and the timers are
    untouched.  Deleting an id that is not in the store changes nothing,
    deleting twice is deleting once, and two deletions give the same
    store in either order. *)
Theorem delete_result_removes_by_id rid st :
  (forall r, In r (taskResults (handleDeleteResult rid st)) <->
     In r (taskResults st) /\ tr_id r <> rid)
  /\ ((forall r, In r (taskResults st) -> tr_id r <> rid) ->
      handleDeleteResult rid st = st)
  /\ handleDeleteResult rid (handleDeleteResult rid st)
     = handleDeleteResult rid st
  /\ (forall rid',
        handleDeleteResult rid (handleDeleteResult rid' st)
        = handleDeleteResult rid' (handleDeleteResult rid st))
  /\ pendingTasks (handleDeleteResult rid st) = pendingTasks st
  /\ activeTaskCount (handleDeleteResult rid st) = activeTaskCount st
  /\ stopAutoExecutionRef (handleDeleteResult rid st)
     = stopAutoExecutionRef st
  /\ inflight (handleDeleteResult rid st) = inflight st
  /\ timers (handleDeleteResult rid st) = timers st.
Proof.
  try clear projectDescription; try clear toLowerCase; try clear team.
  unfold handleDeleteResult, setTaskResults. simpl.
  split; [|split; [|split; [|split]]]; [| | | |repeat split].
  - intros r. rewrite filter_In, negb_true_iff, jsstring_eqb_neq. tauto.
  - intros H. destruct st; simpl in *. f_equal. apply filter_all.
    intros r I. apply negb_true_iff, jsstring_eqb_neq. auto.
  - rewrite filter_idem. reflexivity.
  - intros rid'. rewrite filter_filter_comm. reflexivity.
Qed.

(** X13: [handleClearPending] removes every marker of the expert,
    pending ones as well as error ones, and nothing else.  It leaves
    the counter, the suspended calls and the timers as they are: an
    invocation whose marker is cleared while it runs stays counted, and
    its success still stores its result.  Clearing twice is clearing
    once, and two clearings give the same markers in either order. *)
Theorem clear_pending_removes_by_expert expertId st :
  (forall p, In p (pendingTasks (handleClearPending expertId st)) <->
     In p (pendingTasks st) /\ pt_expertId p <> expertId)
  /\ handleClearPending expertId (handleClearPending expertId st)
     = handleClearPending expertId st
  /\ (forall expertId',
        handleClearPending expertId (handleClearPending expertId' st)
        = handleClearPending expertId' (handleClearPending expertId st))
  /\ activeTaskCount (handleClearPending expertId st) = activeTaskCount st
  /\ inflight (handleClearPending expertId st) = inflight st
  /\ timers (handleClearPending expertId st) = timers st
  /\ taskResults (handleClearPending expertId st) = taskResults st
  /\ (forall inv c,
        taskResults (executeSingleTask_fulfilled inv c
                       (handleClearPending expertId st))
        = storedResult inv c :: taskResults st).
Proof.
  try clear projectDescription; try clear toLowerCase; try clear team.
  split; [|split; [|split]]; [| | |repeat split].
  - intros p. unfold handleClearPending. simpl.
    rewrite filter_In, negb_true_iff, jsstring_eqb_neq. tauto.
  - unfold handleClearPending, setPendingTasks. simpl.
    rewrite filter_idem. reflexivity.
  - intros e'. unfold handleClearPending, setPendingTasks. simpl.
    rewrite filter_filter_comm. reflexivity.
  - intros inv c. rewrite fulfilled_eq. reflexivity.
Qed.

(** ** The mention list *)

Lemma endsWithAt_includes val :
  endsWithAt val = true -> includes val [64%N] = true.
Proof.
  unfold endsWithAt. intros H. destruct (rev val) as [|c r] eqn:E;
    [discriminate|].
  apply N.eqb_eq in H. subst c. apply includes_spec.
  exists (rev r), []. rewrite <- (rev_involutive val), E. reflexivity.
Qed.

(** X14: [handleInputStringChange] stores the text typed and shows the
    mention list only for a text that holds an at sign: the list is
    shown when the text ends with one, is hidden when the text holds
    none, and otherwise stays as it was.  Nothing else changes. *)
Theorem mention_list_follows_at_sign val st :
  taskInput (handleInputStringChange val st) = val
  /\ (endsWithAt val = true ->
      showMentionList (handleInputStringChange val st) = true)
  /\ (includes val [64%N] = false ->
      showMentionList (handleInputStringChange val st) = false)
  /\ (endsWithAt val = false -> includes val [64%N] = true ->
      showMentionList (handleInputStringChange val st) = showMentionList st)
  /\ (showMentionList st = false ->
      showMentionList (handleInputStringChange val st) = endsWithAt val)
  /\ selectedExpertIds (handleInputStringChange val st) = selectedExpertIds st
  /\ taskResults (handleInputStringChange val st) = taskResults st
  /\ pendingTasks (handleInputStringChange val st) = pendingTasks st
  /\ activeTaskCount (handleInputStringChange val st) = activeTaskCount st.
Proof.
  unfold handleInputStringChange.
  destruct (endsWithAt val) eqn:E.
  - apply endsWithAt_includes in E. simpl. repeat split; auto; congruence.
  - simpl. destruct (showMentionList st) eqn:S;
      destruct (includes val [64%N]) eqn:I; simpl;
      repeat split; auto; congruence.
Qed.

(** ** Follow-ups go to other members of the team *)

Lemma collect_safe expert ms t :
  In t (collect expert ms) ->
  In (target t) team /\ id (target t) <> id expert
  /\ exists m, In m ms /\ instruction t = nextInstruction m
               /\ findTarget (targetNamePartial m) = Some (target t).
Proof.
  try clear projectDescription; try clear toLowerCase; try clear team.
  induction ms as [|m ms IH]; simpl; [intros []|].
  assert (K : In t (collect expert ms) ->
              In (target t) team /\ id (target t) <> id expert
              /\ exists m0, (m = m0 \/ In m0 ms)
                   /\ instruction t = nextInstruction m0
                   /\ findTarget (targetNamePartial m0) = Some (target t)).
  { intros H. destruct (IH H) as (A & B & m0 & I & C & D).
    repeat split; auto. exists m0. auto. }
  destruct (findTarget (targetNamePartial m)) as [e|] eqn:F; [|exact K].
  destruct (jsstring_eqb (id e) (id expert)) eqn:E; [exact K|].
  simpl. intros [<-|H]; [|exact (K H)]. simpl.
  apply jsstring_eqb_neq in E. split; [|split; [exact E|]].
  - unfold findTarget in F. apply find_some in F. tauto.
  - exists m. auto.
Qed.

Lemma collect_length expert ms : length (collect expert ms) <= length ms.
Proof.
  induction ms as [|m ms IH]; simpl; [lia|].
  destruct (findTarget (targetNamePartial m)) as [e|]; [|lia].
  destruct (jsstring_eqb (id e) (id expert)); simpl; lia.
Qed.

Lemma followUpTasks_safe expert depth text t :
  In t (followUpTasks expert depth text) ->
  In (target t) team /\ id (target t) <> id expert.
Proof.
  try clear projectDescription; try clear toLowerCase; try clear team.
  unfold followUpTasks. destruct (depth <? MAX_DEPTH); [|intros []].
  intros H. apply collect_safe in H. tauto.
Qed.

(** X20: a response never delegates to the acting expert nor to anybody
    outside the team: every follow-up comes from a response at depth
    below 2, goes to a member of the team whose id is not the acting
    expert's, and carries the instruction of a match of the scan whose
    name resolves to that member, an instruction that is not empty and
    holds no line terminator.  There are never more follow-ups than
    matches. *)
Theorem follow_ups_stay_on_team expert depth text :
  (forall t, In t (followUpTasks expert depth text) ->
     depth < MAX_DEPTH
     /\ In (target t) team /\ id (target t) <> id expert
     /\ instruction t <> [] /\ forallb dot (instruction t) = true
     /\ exists m, In m (exec_all text) /\ instruction t = nextInstruction m
                  /\ findTarget (targetNamePartial m) = Some (target t))
  /\ length (followUpTasks expert depth text) <= length (exec_all text).
Proof.
  unfold followUpTasks. destruct (depth <? MAX_DEPTH) eqn:D.
  - apply Nat.ltb_lt in D. split; [|apply collect_length].
    intros t H. apply collect_safe in H as (A & B & m & I & Q & F).
    destruct (@exec_all_shape text m I)
      as (pre & post & _ & _ & _ & N & _ & G & _).
    rewrite Q. repeat split; auto. exists m. auto.
  - split; [intros t []|simpl; lia].
Qed.

(** ** Everything the engine holds belongs to the team *)

Lemma launchMarkers_fields clock invs : forall k p,
  In p (launchMarkers clock k invs) ->
  exists inv, In inv invs /\ pt_expertId p = id (inv_expert inv)
              /\ pt_expertName p = name (inv_expert inv).
Proof.
  induction invs as [|inv invs IH]; intros k p H; simpl in H; [contradiction|].
  destruct H as [<-|H].
  - exists inv. repeat split. left. reflexivity.
  - apply IH in H as (inv' & I & A & B). exists inv'.
    split; [right; exact I|auto].
Qed.

Lemma storedResult_expert inv c :
  tr_expertId (storedResult inv c) = id (inv_expert inv)
  /\ tr_expertName (storedResult inv c) = name (inv_expert inv).
Proof.
  unfold storedResult. destruct (inv_triggerBy inv) as [t|];
    [destruct (truthy t)|]; split; reflexivity.
Qed.

Lemma on_team_launch clock k invs st :
  on_team st -> stopAutoExecutionRef st = false ->
  (forall inv, In inv invs -> In (inv_expert inv) team) ->
  on_team (launch clock k invs st).
Proof.
  intros (A & B & C & D) S H. rewrite launch_running by exact S.
  split; [|split; [exact B|split; [|exact D]]]; simpl.
  - intros inv I. apply in_app_or in I as [I|I]; auto.
  - intros p I. apply in_app_or in I as [I|I]; [auto|].
    apply launchMarkers_fields in I as (inv & I & Q1 & Q2).
    exists (inv_expert inv). auto.
Qed.

Lemma on_team_step ev st st' :
  on_team st -> step ev st = Some st' -> on_team st'.
Proof.
  intros (A & B & C & D) H. destruct ev; simpl in H.
  - injection H as <-. unfold handleInputStringChange.
    destruct (endsWithAt val); [|destruct (_ && _)]; exact (conj A (conj B (conj C D))).
  - destruct (nth_error team k); [|discriminate]. injection H as <-.
    unfold toggleExpertSelection. destruct (has _ _); exact (conj A (conj B (conj C D))).
  - destruct (executeDisabled st); [discriminate|]. injection H as <-.
    unfold handleExecuteBatchTasks.
    destruct (length (selectedExpertIds st) =? 0); [exact (conj A (conj B (conj C D)))|].
    destruct (negb (truthy (trim (taskInput st)))); [exact (conj A (conj B (conj C D)))|].
    destruct (negb (truthy (trim projectDescription)));
      [exact (conj A (conj B (conj C D)))|].
    cbv zeta. cbn [fst]. apply on_team_launch;
      [exact (conj A (conj B (conj C D)))|reflexivity|].
    intros inv I. apply in_map_iff in I as (e & <- & I).
    apply filter_In in I as [I _]. exact I.
  - destruct (isProcessing st); [|discriminate]. injection H as <-.
    exact (conj A (conj B (conj C D))).
  - destruct (nth_error (pendingTasks st) k) as [q|]; [|discriminate].
    destruct (status q); try discriminate. injection H as <-.
    split; [exact A|split; [exact B|split; [|exact D]]]. simpl.
    intros p I. apply filter_In in I as [I _]. auto.
  - destruct (nth_error (taskResults st) k) as [r0|]; [|discriminate].
    injection H as <-.
    split; [exact A|split; [exact B|split; [exact C|]]]. simpl.
    intros r I. apply filter_In in I as [I _]. auto.
  - destruct (taskResults st); [discriminate|]. injection H as <-.
    split; [exact A|split; [exact B|split; [exact C|]]]. simpl.
    intros r [].
  - destruct (terminationMessage st); [|discriminate]. injection H as <-.
    exact (conj A (conj B (conj C D))).
  - destruct (nth_error (inflight st) i) as [inv|] eqn:N; [|discriminate].
    injection H as <-. rewrite fulfilled_eq. cbv zeta.
    assert (E : In (inv_expert inv) team)
      by (apply A; eapply nth_error_In; eauto).
    split; [|split; [|split]]; simpl.
    + intros inv' I. apply A. eapply remove_at_incl; eauto.
    + destruct (willContinue inv c _) eqn:W; [|exact B].
      intros tm I. apply in_app_or in I as [I|[<-|[]]]; [auto|]. simpl.
      split; [exact E|]. split.
      * unfold willContinue in W. apply andb_true_iff in W as [W _].
        apply andb_true_iff in W as [W _]. apply Nat.ltb_lt in W.
        intros Q. rewrite Q in W. simpl in W. lia.
      * intros t T.
        apply followUpTasks_safe in T. exact T.
    + intros p I. apply filter_In in I as [I _]. auto.
    + intros r [<-|I]; [|auto]. exists (inv_expert inv).
      destruct (storedResult_expert inv c). auto.
  - destruct (nth_error (inflight st) i) as [inv|] eqn:N; [|discriminate].
    injection H as <-. rewrite rejected_eq.
    split; [|split; [exact B|split; [|exact D]]]; simpl.
    + intros inv' I. apply A. eapply remove_at_incl; eauto.
    + intros p I. apply in_map_iff in I as (q & <- & I).
      destruct (C q I) as (x & T & Q1 & Q2). exists x.
      destruct (jsstring_eqb (pt_expertId q) (id (inv_expert inv))); auto.
  - destruct (nth_error (timers st) j) as [tm|] eqn:N; [|discriminate].
    injection H as <-. rewrite timeout_eq.
    assert (B' : forall tm', In tm' (remove_at j (timers st)) ->
              In (tm_expert tm') team /\ tm_tasks tm' <> []
              /\ forall t, In t (tm_tasks tm') ->
                   In (target t) team /\ id (target t) <> id (tm_expert tm')).
    { intros tm' I. apply B. eapply remove_at_incl; eauto. }
    destruct (stopAutoExecutionRef st) eqn:S.
    + rewrite launch_stopped by exact S.
      exact (conj A (conj B' (conj C D))).
    + apply on_team_launch; [exact (conj A (conj B' (conj C D)))|exact S|].
      intros inv I. unfold timerInvocations in I.
      apply in_map_iff in I as (t & <- & I). simpl.
      destruct (B tm (nth_error_In _ _ N)) as (_ & _ & Q).
      apply Q. exact I.
Qed.

Lemma on_team_reachable st : reachable st -> on_team st.
Proof.
  induction 1 as [|ev st st' _ IH H].
  - split; [intros ? []|split; [intros ? []|split; intros ? []]].
  - eapply on_team_step; eauto.
Qed.

(** X21: in every state the component reaches, all the engine holds
    belongs to members of the team: each suspended invocation runs for
    a member; each timer was set by a member, holds at least one task,
    and each of its tasks goes to a member other than the one who set
    it; each marker and each result carries the id and the name of a
    member. *)
Theorem engine_holdings_on_team st :
  reachable st ->
  (forall inv, In inv (inflight st) -> In (inv_expert inv) team)
  /\ (forall tm, In tm (timers st) ->
        In (tm_expert tm) team /\ tm_tasks tm <> []
        /\ forall t, In t (tm_tasks tm) ->
             In (target t) team /\ id (target t) <> id (tm_expert tm))
  /\ (forall p, In p (pendingTasks st) ->
        exists e, In e team /\ pt_expertId p = id e
                  /\ pt_expertName p = name e)
  /\ (forall r, In r (taskResults st) ->
        exists e, In e team /\ tr_expertId r = id e
                  /\ tr_expertName r = name e).
Proof. intros R. exact (on_team_reachable R). Qed.

(** ** The handlers outside the transition system *)

Lemma syncSelection_fixed prev :
  selection_ok prev -> syncSelection prev = prev.
Proof.
  intros [D T]. unfold syncSelection. cbv zeta.
  apply (fold_add_fixed (has (newSet (map id team))) prev []); [exact D|].
  intros i I. apply has_In. apply (proj2 (newSet_In _ _)).
  apply team_id_In. auto.
Qed.

Lemma setSelectedExpertIds_twice a b st :
  setSelectedExpertIds a (setSelectedExpertIds b st)
  = setSelectedExpertIds a st.
Proof. reflexivity. Qed.

Lemma setSelectedExpertIds_same st :
  setSelectedExpertIds (selectedExpertIds st) st = st.
Proof. destruct st. reflexivity. Qed.

Lemma reachable_toggle st e :
  reachable st -> In e team -> reachable (toggleExpertSelection (id e) st).
Proof.
  intros R I. apply In_nth_error in I as (k & N).
  apply (reachable_step (EvToggle k) R). unfold step. rewrite N. reflexivity.
Qed.

Lemma set_delete_shorter l x :
  has l x = true -> length (set_delete l x) < length l.
Proof.
  unfold has, set_delete. induction l as [|a l IH]; simpl; [discriminate|].
  destruct (jsstring_eqb x a); simpl.
  - intros _. apply Nat.lt_succ_r. apply filter_length_le.
  - intros H. apply -> Nat.succ_lt_mono. apply IH. exact H.
Qed.

(** Deselecting one by one reaches the empty selection. *)
Lemma reachable_clear n : forall st,
  length (selectedExpertIds st) <= n -> reachable st ->
  reachable (setSelectedExpertIds [] st).
Proof.
  induction n as [|n IH]; intros st L R.
  - destruct (selectedExpertIds st) as [|i l] eqn:Hs; [|simpl in L; lia].
    rewrite <- Hs. rewrite setSelectedExpertIds_same. exact R.
  - destruct (selectedExpertIds st) as [|i l] eqn:Hs.
    + rewrite <- Hs. rewrite setSelectedExpertIds_same. exact R.
    + destruct (selection_ok_reachable R) as [_ T].
      destruct (T i) as (e & I & E); [rewrite Hs; left; reflexivity|].
      assert (H : has (selectedExpertIds st) i = true).
      { apply has_In. rewrite Hs. left. reflexivity. }
      pose proof (@reachable_toggle st e R I) as R1.
      rewrite E in R1. unfold toggleExpertSelection in R1. rewrite H in R1.
      apply IH in R1.
      * rewrite setSelectedExpertIds_twice in R1. exact R1.
      * simpl. pose proof (set_delete_shorter _ _ H) as Q.
        rewrite Hs in Q at 2. cbn [length] in L, Q. lia.
Qed.

(** Selecting members one after the other adds their ids in order. *)
Lemma reachable_fill es : forall st,
  (forall e, In e es -> In e team) -> reachable st ->
  reachable (setSelectedExpertIds
               (fold_left set_add (map id es) (selectedExpertIds st)) st).
Proof.
  induction es as [|e es IH]; intros st T R; simpl.
  - rewrite setSelectedExpertIds_same. exact R.
  - assert (Q : reachable (setSelectedExpertIds
                             (set_add (selectedExpertIds st) (id e)) st)).
    { destruct (has (selectedExpertIds st) (id e)) eqn:H.
      - unfold set_add. rewrite H. rewrite setSelectedExpertIds_same. exact R.
      - pose proof (@reachable_toggle st e R (T e (or_introl eq_refl))) as R1.
        unfold toggleExpertSelection in R1. rewrite H in R1. exact R1. }
    apply IH in Q; [|intros x I; apply T; right; exact I].
    rewrite setSelectedExpertIds_twice in Q. exact Q.
Qed.

Lemma endsWithAt_space a : endsWithAt (a ++ [32%N]) = false.
Proof. unfold endsWithAt. rewrite rev_app_distr. reflexivity. Qed.

(** What [selectAllExperts] gives is reached by toggles. *)
Lemma reachable_selectAll st :
  reachable st -> reachable (selectAllExperts st).
Proof.
  intros R. unfold selectAllExperts.
  pose proof (reachable_clear (le_n _) R) as C.
  destruct (length (selectedExpertIds st) =? length team); [exact C|].
  pose proof (reachable_fill team (fun e I => I) C) as F.
  rewrite setSelectedExpertIds_twice in F. exact F.
Qed.

(** What [handleMentionSelect] gives is reached by typing the empty
    text, typing the text with the name appended, and a toggle when the
    expert is not selected yet. *)
Lemma reachable_mention st e :
  reachable st -> In e team -> reachable (handleMentionSelect e st).
Proof.
  intros R I.
  pose proof (reachable_step (EvInput []) R eq_refl) as R1.
  pose proof (reachable_step
                (EvInput (taskInput st ++ name e ++ [32%N])) R1 eq_refl)
    as R2.
  pose proof (reachable_fill [e]
                (fun x J => match J with
                            | or_introl E => eq_ind e (fun y => In y team) I x E
                            | or_intror F => match F with end
                            end) R2) as R3.
  replace (handleMentionSelect e st)
    with (setSelectedExpertIds
            (fold_left set_add (map id [e])
               (selectedExpertIds
                  (handleInputStringChange (taskInput st ++ name e ++ [32%N])
                     (handleInputStringChange [] st))))
            (handleInputStringChange (taskInput st ++ name e ++ [32%N])
               (handleInputStringChange [] st))); [exact R3|].
  unfold handleMentionSelect, handleInputStringChange.
  rewrite app_assoc, endsWithAt_space.
  destruct st as [sel inp res pen cnt msg shw stp inf tms]. simpl.
  destruct shw; reflexivity.
Qed.

End TeamTasks.

(** X22: the select-all button and a click in the mention list add no
    state to the transition system: what [selectAllExperts] gives is
    reached by toggling members one by one, what [handleMentionSelect]
    gives is reached by typing and, for a member not yet selected, one
    toggle.  So whatever holds in every state the transition system
    reaches holds in every state these two handlers lead to.  The
    effect that follows a change of the team leaves a reached state as
    it is whenever every selected id is on the team it runs for, as on
    mount, after the record of an expert was replaced, or after a member
    who was not selected has left; it is then the identity on the state.
    When a selected member has left, the effect does change the
    selection, and nothing is said here of the state it gives. *)
Theorem other_handlers_add_no_state toLowerCase team projectDescription st :
  reachable toLowerCase team projectDescription st ->
  reachable toLowerCase team projectDescription (selectAllExperts team st)
  /\ (forall e, In e team ->
        reachable toLowerCase team projectDescription
          (handleMentionSelect e st))
  /\ (forall team',
        (forall i, In i (selectedExpertIds st) -> In i (map id team')) ->
        setSelectedExpertIds (syncSelection team' (selectedExpertIds st)) st
        = st)
  /\ (forall team' i,
        In i (selectedExpertIds st) -> ~ In i (map id team') ->
        setSelectedExpertIds (syncSelection team' (selectedExpertIds st)) st
        <> st).
Proof.
  intros R. split; [apply reachable_selectAll; exact R|].
  split; [intros e I; apply reachable_mention; assumption|].
  assert (D : NoDup (selectedExpertIds st)).
  { eapply selection_ok_reachable. exact R. }
  split.
  - intros team' H.
    assert (K : selection_ok team' (selectedExpertIds st)).
    { split; [exact D|]. intros i I. apply team_id_In. exact (H i I). }
    apply syncSelection_fixed in K. rewrite K.
    apply setSelectedExpertIds_same.
  - intros team' i I N E.
    assert (Q : selectedExpertIds
                  (setSelectedExpertIds
                     (syncSelection team' (selectedExpertIds st)) st)
                = selectedExpertIds st) by (rewrite E; reflexivity).
    cbn [selectedExpertIds setSelectedExpertIds] in Q.
    rewrite <- Q in I. apply (proj1 (syncSelection_In _ _ _)) in I.
    exact (N (proj2 I)).
Qed.

(** * The engine at work on the team of three *)

(** C2, as stated, fails: at depth 2 the text stored for a response that
    nests one directive inside another still holds a whole directive. *)
Lemma ceiling_leaves_markup :
  snd (extractDelegations asciiLower sampleTeam alice 2 nestedText) = []
  /\ fst (extractDelegations asciiLower sampleTeam alice 2 nestedText)
     = js ":::DELEGATE:::x:::y:::"
  /\ exec_all (fst (extractDelegations asciiLower sampleTeam alice 2
                      nestedText))
     = [mkMatch (js ":::DELEGATE:::x:::y:::") (js "x") (js "y")].
Proof. repeat split. Qed.

Lemma ceiling_strips_witness :
  MAX_DEPTH <= 2
  /\ snd (extractDelegations asciiLower sampleTeam alice 2
            (responseText toBob)) = []
  /\ fst (extractDelegations asciiLower sampleTeam alice 2
            (responseText toBob)) = js "I will ask counsel. ".
Proof.
  split; [unfold MAX_DEPTH; lia|].
  destruct (@ceiling_strips_without_extracting asciiLower sampleTeam alice 2
              (responseText toBob)) as (A & B & _);
    [unfold MAX_DEPTH; lia|].
  split; [exact A|]. rewrite B. vm_compute. reflexivity.
Defined.

(** C9, as stated, fails: cleaning the nested text leaves a directive,
    and cleaning the result again removes it. *)
Lemma cleaning_not_idempotent :
  replace_all nestedText = js ":::DELEGATE:::x:::y:::"
  /\ replace_all (replace_all nestedText) = []
  /\ replace_all (replace_all nestedText) <> replace_all nestedText
  /\ exec_all (replace_all nestedText) <> [].
Proof. repeat split; vm_compute; discriminate. Qed.

Lemma cleaning_fixed_points_witness :
  exec_all (js "I will ask counsel. ") = []
  /\ replace_all (js "I will ask counsel. ") = js "I will ask counsel. ".
Proof.
  assert (E : exec_all (js "I will ask counsel. ") = [])
    by (vm_compute; reflexivity).
  split; [exact E|].
  exact (proj1 (proj1 (cleaning_fixed_points (js "I will ask counsel. "))) E).
Defined.



(** C7, as stated, fails: with Bob running twice, the failure of one of
    his invocations turns the marker of the other, still running, to
    error as well; and when the first has succeeded, the failure of the
    second finds no marker left and is recorded nowhere. *)
Lemma failure_reaches_sibling_marker :
  (exists st,
     run asciiLower sampleTeam sampleProject
       [EvInput (js "Review the budget"); EvExecute sampleClock;
        EvFulfilled 0 toBobTwice; EvTimeout 0 sampleClock;
        EvRejected 0 unauthorized]
       (initialState sampleTeam) = Some st
     /\ map inv_instruction (inflight st) = [js "check the lease"]
     /\ map status (pendingTasks st) = [error; error]
     /\ map pt_expertId (pendingTasks st) = [js "exp_2"; js "exp_2"])
  /\ (exists st,
        run asciiLower sampleTeam sampleProject
          [EvInput (js "Review the budget"); EvExecute sampleClock;
           EvFulfilled 0 toBobTwice; EvTimeout 0 sampleClock;
           EvFulfilled 0 plainReply; EvRejected 0 unauthorized]
          (initialState sampleTeam) = Some st
        /\ pendingTasks st = [] /\ inflight st = []
        /\ map tr_expertName (taskResults st) = [js "Bob"; js "Alice"]).
Proof.
  split; eexists; (split; [vm_compute; reflexivity|]); repeat split.
Qed.

Lemma failure_is_contained_witness :
  nth_error (inflight bobTwice) 1 = Some bobSecond
  /\ exists st',
       step asciiLower sampleTeam sampleProject (EvRejected 1 unauthorized)
         bobTwice = Some st'
       /\ map status (pendingTasks st') = [error; error; error]
       /\ map errorMessage (pendingTasks st')
          = [Some (js "quota exceeded"); Some (js "401 Unauthorized");
             Some (js "401 Unauthorized")]
       /\ taskResults st' = [] /\ timers st' = []
       /\ inflight st' = [bobFirst] /\ activeTaskCount st' = 1%Z.
Proof.
  assert (N : nth_error (inflight bobTwice) 1 = Some bobSecond) by reflexivity.
  split; [exact N|].
  destruct (@failure_is_contained asciiLower sampleTeam sampleProject 1
              bobSecond unauthorized bobTwice N)
    as (st' & E & P & _ & _ & _ & R & T & I & _ & C & _).
  exists st'. split; [exact E|]. rewrite P, R, T, I, C.
  vm_compute. repeat split.
Defined.



Lemma settlement_keyed_by_expert_witness :
  In (newPending 1700000001001 bobSecond) (pendingTasks bobTwice)
  /\ pt_expertId (newPending 1700000001001 bobSecond) = id (inv_expert bobFirst)
  /\ pendingTasks (executeSingleTask_fulfilled asciiLower sampleTeam bobFirst
                     plainReply bobTwice) = [carolFailed]
  /\ In (withError (newPending 1700000001001 bobSecond)
           (errMessage unauthorized))
       (pendingTasks (executeSingleTask_rejected bobFirst unauthorized
                        bobTwice)).
Proof.
  assert (I : In (newPending 1700000001001 bobSecond) (pendingTasks bobTwice))
    by (simpl; auto).
  assert (E : pt_expertId (newPending 1700000001001 bobSecond)
              = id (inv_expert bobFirst)) by reflexivity.
  destruct (settlement_keyed_by_expert asciiLower sampleTeam bobFirst bobTwice)
    as [F R].
  split; [exact I|]. split; [exact E|]. split.
  - rewrite (proj1 (F plainReply)). vm_compute. reflexivity.
  - exact (proj1 (proj2 (R unauthorized)) _ I E).
Defined.

(** Alice delegates to Bob twice: after the timer has fired, Bob runs
    twice at depth 1. *)
Lemma delegation_depth_ceiling_witness :
  exists st,
    run asciiLower sampleTeam sampleProject
      [EvInput (js "Review the budget"); EvExecute sampleClock;
       EvFulfilled 0 toBobTwice; EvTimeout 0 sampleClock]
      (initialState sampleTeam) = Some st
    /\ map inv_depth (inflight st) = [1; 1]
    /\ forall inv, In inv (inflight st) -> inv_depth inv <= MAX_DEPTH.
Proof.
  pose (r := run asciiLower sampleTeam sampleProject
               [EvInput (js "Review the budget"); EvExecute sampleClock;
                EvFulfilled 0 toBobTwice; EvTimeout 0 sampleClock]
               (initialState sampleTeam)).
  assert (R : exists st, r = Some st /\ map inv_depth (inflight st) = [1; 1]).
  { vm_compute. eexists. split; reflexivity. }
  destruct R as (st & E & D). exists st. split; [exact E|]. split; [exact D|].
  apply (proj1 (delegation_depth_ceiling asciiLower sampleTeam sampleProject)).
  exact (run_reachable _ (reachable_init _ _ _) E).
Defined.

(** Scenario B of the engine: Alice delegates to Bob; while Bob's
    invocation waits in its timer the counter is 1, and it is 0 once Bob
    has answered. *)
Lemma active_counter_drains_witness :
  exists st,
    run asciiLower sampleTeam sampleProject
      [EvInput (js "Review the budget"); EvExecute sampleClock;
       EvFulfilled 0 toBob; EvTimeout 0 sampleClock; EvFulfilled 0 plainReply]
      (initialState sampleTeam) = Some st
    /\ activeTaskCount st = 0%Z
    /\ length (taskResults st) = 2
    /\ forall p, In p (pendingTasks st) -> status p <> pending.
Proof.
  pose (r := run asciiLower sampleTeam sampleProject
               [EvInput (js "Review the budget"); EvExecute sampleClock;
                EvFulfilled 0 toBob; EvTimeout 0 sampleClock;
                EvFulfilled 0 plainReply]
               (initialState sampleTeam)).
  assert (R : exists st, r = Some st /\ activeTaskCount st = 0%Z
                         /\ length (taskResults st) = 2).
  { vm_compute. eexists. repeat split. }
  destruct R as (st & E & Z & L). exists st.
  split; [exact E|]. split; [exact Z|]. split; [exact L|].
  destruct (active_counter_drains
              (run_reachable _ (reachable_init _ _ _) E)) as (_ & _ & _ & K).
  exact (proj2 (proj2 (K Z))).
Defined.

(** C5, as stated, fails: Bob is started twice before the user stops
    the engine; with the flag set his first invocation succeeds, which
    removes both his markers, and his second fails: the failure finds
    no marker and is recorded nowhere, neither as a result nor as an
    error. *)
Lemma stopped_failure_recorded_nowhere :
  exists st0 st,
    run asciiLower sampleTeam sampleProject
      [EvInput (js "Review the budget"); EvExecute sampleClock;
       EvFulfilled 0 toBobTwice; EvTimeout 0 sampleClock]
      (initialState sampleTeam) = Some st0
    /\ stopAutoExecutionRef st0 = false
    /\ inflight st0 = [bobFirst; bobSecond]
    /\ map status (pendingTasks st0) = [pending; pending]
    /\ run asciiLower sampleTeam sampleProject
         [EvStop; EvFulfilled 0 plainReply; EvRejected 0 unauthorized] st0
       = Some st
    /\ stopAutoExecutionRef st = true
    /\ inflight st = [] /\ timers st = [] /\ activeTaskCount st = 0%Z
    /\ pendingTasks st = []
    /\ map taskDescription (taskResults st)
       = [js "check the contract"; js "Review the budget"].
Proof.
  eexists. eexists. split; [vm_compute; reflexivity|].
  split; [reflexivity|]. split; [reflexivity|]. split; [reflexivity|].
  split; [vm_compute; reflexivity|]. repeat split.
Qed.

(** The user stops the engine while Bob's invocation waits in its timer:
    when the timer fires the invocation is abandoned.  And the user
    stops the engine while Alice's call is suspended: when the call
    fails, her marker shows the error and its message. *)
Lemma cancellation_abandons_queued_witness :
  (exists st,
     run asciiLower sampleTeam sampleProject
       [EvInput (js "Review the budget"); EvExecute sampleClock;
        EvFulfilled 0 toBob; EvStop]
       (initialState sampleTeam) = Some st
     /\ stopAutoExecutionRef st = true
     /\ map (fun tm => length (tm_tasks tm)) (timers st) = [1]
     /\ activeTaskCount st = 1%Z
     /\ exists st',
          step asciiLower sampleTeam sampleProject (EvTimeout 0 sampleClock) st
          = Some st'
          /\ inflight st' = inflight st
          /\ pendingTasks st' = pendingTasks st
          /\ taskResults st' = taskResults st
          /\ activeTaskCount st' = 0%Z)
  /\ (exists st,
        run asciiLower sampleTeam sampleProject
          [EvInput (js "Review the budget"); EvExecute sampleClock; EvStop]
          (initialState sampleTeam) = Some st
        /\ stopAutoExecutionRef st = true
        /\ inflight st = [aliceRoot]
        /\ map pt_expertId (pendingTasks st) = [js "exp_1"]
        /\ exists st',
             step asciiLower sampleTeam sampleProject
               (EvRejected 0 unauthorized) st = Some st'
             /\ taskResults st' = taskResults st
             /\ map pt_expertId (pendingTasks st') = [js "exp_1"]
             /\ (forall p', In p' (pendingTasks st') ->
                   pt_expertId p' = js "exp_1" ->
                   status p' = error
                   /\ errorMessage p' = Some (js "401 Unauthorized"))
             /\ activeTaskCount st' = 0%Z).
Proof.
  split.
  - pose (r := run asciiLower sampleTeam sampleProject
                 [EvInput (js "Review the budget"); EvExecute sampleClock;
                  EvFulfilled 0 toBob; EvStop]
                 (initialState sampleTeam)).
    assert (R : exists st, r = Some st /\ stopAutoExecutionRef st = true
                  /\ map (fun tm => length (tm_tasks tm)) (timers st) = [1]
                  /\ activeTaskCount st = 1%Z
                  /\ exists tm, nth_error (timers st) 0 = Some tm
                                /\ length (tm_tasks tm) = 1).
    { vm_compute. eexists. repeat split. eexists. split; reflexivity. }
    destruct R as (st & E & S & T & C & tm & N & L). exists st.
    split; [exact E|]. split; [exact S|]. split; [exact T|]. split; [exact C|].
    destruct (cancellation_abandons_queued
                (run_reachable _ (reachable_init _ _ _) E) S)
      as (_ & F & _).
    destruct (F 0 sampleClock tm N) as (st' & E' & I & P & Q & _ & K).
    exists st'. rewrite K, C, L. repeat split; assumption.
  - pose (r := run asciiLower sampleTeam sampleProject
                 [EvInput (js "Review the budget"); EvExecute sampleClock;
                  EvStop]
                 (initialState sampleTeam)).
    assert (R : exists st, r = Some st /\ stopAutoExecutionRef st = true
                  /\ inflight st = [aliceRoot]
                  /\ map pt_expertId (pendingTasks st) = [js "exp_1"]
                  /\ activeTaskCount st = 1%Z).
    { vm_compute. eexists. repeat split. }
    destruct R as (st & E & S & I & M & C). exists st.
    split; [exact E|]. split; [exact S|]. split; [exact I|].
    split; [exact M|].
    destruct (cancellation_abandons_queued
                (run_reachable _ (reachable_init _ _ _) E) S)
      as (_ & _ & _ & _ & _ & F).
    assert (N : nth_error (inflight st) 0 = Some aliceRoot)
      by (rewrite I; reflexivity).
    destruct (F 0 aliceRoot unauthorized N)
      as (st' & E' & Q & _ & _ & X & W & _ & _ & _ & _ & _ & K).
    exists st'. split; [exact E'|]. split; [exact Q|].
    split; [rewrite X; exact M|]. split.
    + intros p' J H. destruct (W p' J H) as (W1 & W2 & _).
      split; [exact W1|]. apply W2; [reflexivity|]. vm_compute. discriminate.
    + rewrite K, C. reflexivity.
Defined.

(** Alice and Carol selected: two root invocations; with nothing typed
    in, the handler only alerts. *)
Lemma dispatch_validates_witness :
  (exists st',
     handleExecuteBatchTasks sampleTeam sampleProject sampleClock sampleReady
     = (st', None)
     /\ stopAutoExecutionRef st' = false
     /\ activeTaskCount st' = 2%Z
     /\ map inv_depth (inflight st') = [0; 0])
  /\ handleExecuteBatchTasks sampleTeam sampleProject sampleClock
       (setTaskInput (js "   ") sampleReady)
     = (setTaskInput (js "   ") sampleReady, Some alertNoTask).
Proof.
  split.
  - destruct (@dispatch_validates sampleTeam sampleProject sampleClock
                sampleReady) as (_ & V & _).
    destruct V as (st' & E & S & C & I & _);
      [discriminate | vm_compute; discriminate | vm_compute; discriminate|].
    exists st'. split; [exact E|]. split; [exact S|].
    rewrite C, I. vm_compute. split; reflexivity.
  - destruct (@dispatch_validates sampleTeam sampleProject sampleClock
                (setTaskInput (js "   ") sampleReady)) as (A & _).
    destruct A as (msg & E);
      [right; left; vm_compute; reflexivity|].
    rewrite E. f_equal. f_equal.
    assert (K : snd (handleExecuteBatchTasks sampleTeam sampleProject
                       sampleClock (setTaskInput (js "   ") sampleReady))
                = Some alertNoTask) by (vm_compute; reflexivity).
    rewrite E in K. injection K as ->. reflexivity.
Defined.

(** ** Four small batches *)

(** Alice and Carol both answer in plain text: two results, the counter
    back at 0, no marker left. *)
Example plain_batch :
  exists st,
    run asciiLower sampleTeam sampleProject
      [EvToggle 2; EvInput (js "Review the budget"); EvExecute sampleClock;
       EvFulfilled 1 plainReply; EvFulfilled 0 plainReply]
      (initialState sampleTeam) = Some st
    /\ map tr_expertName (taskResults st) = [js "Alice"; js "Carol"]
    /\ activeTaskCount st = 0%Z /\ pendingTasks st = [].
Proof. eexists. split; [vm_compute; reflexivity|]. repeat split. Qed.

(** Alice names Bob: once her result is stored, Bob is started at depth
    1 with Alice as trigger; two results in the end. *)
Example delegated_batch :
  exists st,
    run asciiLower sampleTeam sampleProject
      [EvInput (js "Review the budget"); EvExecute sampleClock;
       EvFulfilled 0 toBob; EvTimeout 0 sampleClock]
      (initialState sampleTeam) = Some st
    /\ inflight st
       = [mkInvocation bob (js "check the contract") (Some (js "Alice")) 1]
    /\ map resultContent (taskResults st) = [js "I will ask counsel. "]
    /\ activeTaskCount st = 1%Z.
Proof. eexists. split; [vm_compute; reflexivity|]. repeat split. Qed.

(** Carol's call fails with 401: her marker shows the error, she has no
    result, Alice's result is stored and the counter is back at 0. *)
Example failed_call :
  exists st,
    run asciiLower sampleTeam sampleProject
      [EvToggle 2; EvInput (js "Review the budget"); EvExecute sampleClock;
       EvRejected 1 unauthorized; EvFulfilled 0 plainReply]
      (initialState sampleTeam) = Some st
    /\ map (fun p => (pt_expertName p, status p, errorMessage p))
         (pendingTasks st)
       = [(js "Carol", error, Some (js "401 Unauthorized"))]
    /\ map tr_expertName (taskResults st) = [js "Alice"]
    /\ activeTaskCount st = 0%Z.
Proof. eexists. split; [vm_compute; reflexivity|]. repeat split. Qed.

(** A directive naming somebody who is not on the team is removed from
    the text and schedules nothing. *)
Example unknown_target :
  extractDelegations asciiLower sampleTeam bob 1
    (js "Done. :::DELEGATE:::Zed:::take over:::")
  = (js "Done. ", []).
Proof. reflexivity. Qed.

(** * The rest of the component at work *)

(** Carol joins the team of Alice and Bob, and leaves it again. *)
Lemma toggle_expert_keeps_ids_unique_witness :
  NoDup (map id (handleToggleExpert [alice; bob] carol))
  /\ handleToggleExpert [alice; bob] carol = [alice; bob; carol]
  /\ handleToggleExpert (handleToggleExpert [alice; bob] carol) carol
     = [alice; bob].
Proof.
  destruct (toggle_expert_keeps_ids_unique [alice; bob] carol)
    as (A & _ & _ & D).
  split.
  - apply A. vm_compute.
    repeat (apply NoDup_cons; [intros H; simpl in H; intuition discriminate|]).
    apply NoDup_nil.
  - apply D. vm_compute. intuition discriminate.
Defined.

(** An update for an expert who is not on the team leaves the team as it
    is. *)
Lemma expert_update_keeps_ids_witness :
  handleExpertUpdate bobby sampleTeam = sampleTeam.
Proof.
  destruct (expert_update_keeps_ids bobby sampleTeam) as (_ & _ & _ & D & _).
  apply D. vm_compute. intuition discriminate.
Defined.

(** Alice and Carol are selected: a mention of Bob selects him and keeps
    both. *)
Lemma selection_handlers_keep_ok_witness :
  selection_ok sampleTeam (selectedExpertIds (handleMentionSelect bob sampleReady))
  /\ In (id bob) (selectedExpertIds (handleMentionSelect bob sampleReady))
  /\ ~ In (id alice)
         (selectedExpertIds (toggleExpertSelection (id alice) sampleReady)).
Proof.
  assert (S : selection_ok sampleTeam (selectedExpertIds sampleReady)).
  { split.
    - vm_compute.
      repeat (apply NoDup_cons; [intros H; simpl in H; intuition discriminate|]).
      apply NoDup_nil.
    - intros i [E|[E|[]]]; subst i.
      + exists alice. split; [left; reflexivity|reflexivity].
      + exists carol. split; [right; right; left; reflexivity|reflexivity]. }
  destruct (@selection_handlers_keep_ok sampleTeam sampleReady S)
    as (T & _ & M).
  destruct (M bob (or_intror (or_introl eq_refl))) as (M1 & M2 & _).
  destruct (T alice (or_introl eq_refl)) as (_ & T2 & _).
  split; [exact M1|]. split; [exact M2|].
  apply (proj1 T2). left. reflexivity.
Defined.

(** The effect leaves a selection of Alice and Carol as it is while both
    are on the team; once the team is empty it keeps nothing. *)
Lemma sync_selection_prunes_witness :
  syncSelection sampleTeam [js "exp_1"; js "exp_3"] = [js "exp_1"; js "exp_3"]
  /\ syncSelection [] [js "exp_1"; js "exp_3"] = [].
Proof.
  split.
  - destruct (sync_selection_prunes sampleTeam [js "exp_1"; js "exp_3"])
      as (_ & _ & K & _).
    apply K. split.
    + vm_compute.
      repeat (apply NoDup_cons; [intros H; simpl in H; intuition discriminate|]).
      apply NoDup_nil.
    + intros i [E|[E|[]]]; subst i.
      * exists alice. split; [left; reflexivity|reflexivity].
      * exists carol. split; [right; right; left; reflexivity|reflexivity].
  - destruct (sync_selection_prunes [] [js "exp_1"; js "exp_3"])
      as (_ & _ & _ & K).
    apply K. reflexivity.
Defined.

(** Bob is added to the selection of Alice and an instruction is typed:
    a dispatch starts two experts. *)
Lemma selection_within_team_witness :
  reachable asciiLower sampleTeam sampleProject
    (handleInputStringChange (js "Review the budget")
       (toggleExpertSelection (id bob) (initialState sampleTeam)))
  /\ length (filter
               (fun e =>
                  has (selectedExpertIds
                         (handleInputStringChange (js "Review the budget")
                            (toggleExpertSelection (id bob)
                               (initialState sampleTeam))))
                    (id e))
               sampleTeam) = 2
  /\ activeTaskCount
       (fst (handleExecuteBatchTasks sampleTeam sampleProject sampleClock
               (handleInputStringChange (js "Review the budget")
                  (toggleExpertSelection (id bob)
                     (initialState sampleTeam))))) = 2%Z.
Proof.
  set (st := handleInputStringChange (js "Review the budget")
               (toggleExpertSelection (id bob) (initialState sampleTeam))).
  assert (R : reachable asciiLower sampleTeam sampleProject st).
  { apply (@reachable_step asciiLower sampleTeam sampleProject
             (EvInput (js "Review the budget"))
             (toggleExpertSelection (id bob) (initialState sampleTeam)));
      [|reflexivity].
    apply (@reachable_step asciiLower sampleTeam sampleProject
             (EvToggle 1) (initialState sampleTeam));
      [apply reachable_init|reflexivity]. }
  assert (U : NoDup (map id sampleTeam)).
  { vm_compute.
    repeat (apply NoDup_cons; [intros H; simpl in H; intuition discriminate|]).
    apply NoDup_nil. }
  assert (E : handleExecuteBatchTasks sampleTeam sampleProject sampleClock st
              = (fst (handleExecuteBatchTasks sampleTeam sampleProject
                        sampleClock st), None)).
  { vm_compute. reflexivity. }
  destruct (selection_within_team R) as (_ & _ & K).
  destruct (K U) as (L & _ & C).
  split; [exact R|]. split.
  - rewrite L. reflexivity.
  - rewrite (C sampleClock _ E). reflexivity.
Defined.

(** With Alice alone selected, the button selects the three members;
    pressed again it leaves nobody selected. *)
Lemma select_all_toggles_witness :
  selectedExpertIds (selectAllExperts sampleTeam (initialState sampleTeam))
  = [js "exp_1"; js "exp_2"; js "exp_3"]
  /\ selectedExpertIds
       (selectAllExperts sampleTeam
          (selectAllExperts sampleTeam (initialState sampleTeam))) = [].
Proof.
  assert (U : NoDup (map id sampleTeam)).
  { vm_compute.
    repeat (apply NoDup_cons; [intros H; simpl in H; intuition discriminate|]).
    apply NoDup_nil. }
  assert (S : selection_ok sampleTeam
                (selectedExpertIds (initialState sampleTeam))).
  { split.
    - vm_compute. apply NoDup_cons; [intros []|apply NoDup_nil].
    - intros i [E|[]]; subst i.
      exists alice. split; [left; reflexivity|reflexivity]. }
  apply (proj2 (@select_all_toggles sampleTeam (initialState sampleTeam) U S)).
  intros A. specialize (A bob (or_intror (or_introl eq_refl))).
  vm_compute in A. intuition discriminate.
Defined.

(** The one match in Alice's reply names Bob and carries his
    instruction. *)
Lemma reported_match_shape_witness :
  exists m,
    exec_all (responseText toBob) = [m]
    /\ targetNamePartial m = js "Bob"
    /\ nextInstruction m = js "check the contract"
    /\ 22 <= length (fullMatch m)
    /\ forallb dot (nextInstruction m) = true.
Proof.
  assert (R : exists m, exec_all (responseText toBob) = [m]
                /\ targetNamePartial m = js "Bob"
                /\ nextInstruction m = js "check the contract").
  { vm_compute. eexists. split; [reflexivity|]. split; reflexivity. }
  destruct R as (m & E & N & I). exists m.
  assert (M : In m (exec_all (responseText toBob))).
  { rewrite E. left. reflexivity. }
  destruct (reported_match_shape _ _ M)
    as (pre & post & _ & _ & _ & _ & _ & D & _ & L).
  split; [exact E|]. split; [exact N|]. split; [exact I|].
  split; [exact L|exact D].
Defined.

(** A plain reply holds no directive: it is shown as it is and starts
    nobody. *)
Lemma scan_finds_directives_witness :
  replace_all (responseText plainReply) = responseText plainReply
  /\ followUpTasks asciiLower sampleTeam alice 0 (responseText plainReply)
     = [].
Proof.
  destruct (scan_finds_directives asciiLower sampleTeam
              (responseText plainReply)) as (A & B).
  assert (N : ~ has_directive (responseText plainReply)).
  { apply (proj1 A). vm_compute. reflexivity. }
  destruct (B N) as (C & D). split; [exact C|exact (D alice 0)].
Defined.

(** A name of two spaces resolves to Alice, the first member. *)
Lemma target_resolves_to_first_holder_witness :
  findTarget asciiLower sampleTeam (js "  ") = Some alice.
Proof.
  destruct (target_resolves_to_first_holder asciiLower sampleTeam (js "  "))
    as (_ & _ & K).
  apply K; reflexivity.
Defined.

(** While Alice's call is suspended the counter is 1 and her call can be
    resumed; events of the engine bring the counter to 0. *)
Lemma engine_drains_witness :
  exists st,
    run asciiLower sampleTeam sampleProject
      [EvInput (js "Review the budget"); EvExecute sampleClock]
      (initialState sampleTeam) = Some st
    /\ activeTaskCount st = 1%Z
    /\ step asciiLower sampleTeam sampleProject (EvFulfilled 0 plainReply) st
       <> None
    /\ exists evs st',
         forallb engine_event evs = true
         /\ run asciiLower sampleTeam sampleProject evs st = Some st'
         /\ activeTaskCount st' = 0%Z.
Proof.
  pose (r := run asciiLower sampleTeam sampleProject
               [EvInput (js "Review the budget"); EvExecute sampleClock]
               (initialState sampleTeam)).
  assert (R : exists st, r = Some st /\ activeTaskCount st = 1%Z
                /\ timers st = []).
  { vm_compute. eexists. repeat split. }
  destruct R as (st & E & C & T). exists st.
  destruct (engine_drains (run_reachable _ (reachable_init _ _ _) E))
    as (A & _ & _ & evs & st' & F & Q & _ & Z).
  split; [exact E|]. split; [exact C|]. split.
  - assert (P : (0 < activeTaskCount st)%Z) by (rewrite C; reflexivity).
    destruct (A P) as [(inv & K)|(tm & K)].
    + rewrite (proj1 (K plainReply unauthorized)). discriminate.
    + specialize (K sampleClock). unfold step in K. rewrite T in K.
      discriminate K.
  - exists evs, st'. split; [exact F|]. split; [exact Q|exact Z].
Defined.

(** Alice delegates to Bob, whose call fails: one result is stored, for
    the one success of the run. *)
Lemma results_grow_at_head_witness :
  exists st,
    run asciiLower sampleTeam sampleProject
      [EvInput (js "Review the budget"); EvExecute sampleClock;
       EvFulfilled 0 toBob; EvTimeout 0 sampleClock;
       EvRejected 0 unauthorized]
      (initialState sampleTeam) = Some st
    /\ length (taskResults st) = 1.
Proof.
  pose (evs := [EvInput (js "Review the budget"); EvExecute sampleClock;
                EvFulfilled 0 toBob; EvTimeout 0 sampleClock;
                EvRejected 0 unauthorized]).
  pose (r := run asciiLower sampleTeam sampleProject evs
               (initialState sampleTeam)).
  assert (R : exists st, r = Some st).
  { vm_compute. eexists. reflexivity. }
  destruct R as (st & E). exists st. split; [exact E|].
  destruct (@results_grow_at_head asciiLower sampleTeam sampleProject evs
              (initialState sampleTeam) st E eq_refl) as (new & A & L).
  rewrite A, length_app, L. reflexivity.
Defined.

(** Deleting an id no result carries leaves the state as it is. *)
Lemma delete_result_removes_by_id_witness :
  handleDeleteResult (js "result_0")
    (setTaskResults (fun _ => [storedResult aliceRoot plainReply])
       aliceRunning)
  = setTaskResults (fun _ => [storedResult aliceRoot plainReply])
      aliceRunning.
Proof.
  destruct (delete_result_removes_by_id (js "result_0")
              (setTaskResults (fun _ => [storedResult aliceRoot plainReply])
                 aliceRunning)) as (_ & K & _).
  apply K. intros r [E|[]]. subst r. vm_compute. discriminate.
Defined.

(** Bob runs twice while Carol's error marker is shown: clearing Carol
    removes her marker; clearing Bob while his calls run leaves both
    counted, and the success of the first still stores its result. *)
Lemma clear_pending_removes_by_expert_witness :
  ~ In carolFailed (pendingTasks (handleClearPending (js "exp_3") bobTwice))
  /\ pendingTasks (handleClearPending (js "exp_2") bobTwice) = [carolFailed]
  /\ activeTaskCount (handleClearPending (js "exp_2") bobTwice) = 2%Z
  /\ taskResults
       (executeSingleTask_fulfilled asciiLower sampleTeam bobFirst plainReply
          (handleClearPending (js "exp_2") bobTwice))
     = [storedResult bobFirst plainReply].
Proof.
  destruct (clear_pending_removes_by_expert asciiLower sampleTeam
              (js "exp_3") bobTwice) as (A & _).
  destruct (clear_pending_removes_by_expert asciiLower sampleTeam
              (js "exp_2") bobTwice) as (_ & _ & _ & C & _ & _ & _ & F).
  split.
  - intros I. apply (proj1 (A carolFailed)) in I. destruct I as (_ & N).
    apply N. reflexivity.
  - split; [reflexivity|]. split; [rewrite C; reflexivity|].
    rewrite (F bobFirst plainReply). reflexivity.
Defined.

(** Typing an at sign at the end of the text shows the mention list;
    a text without any hides it. *)
Lemma mention_list_follows_at_sign_witness :
  showMentionList (handleInputStringChange (js "ask @") sampleReady) = true
  /\ showMentionList
       (handleInputStringChange (js "ask")
          (handleInputStringChange (js "ask @") sampleReady)) = false.
Proof.
  destruct (mention_list_follows_at_sign (js "ask @") sampleReady)
    as (_ & A & _).
  destruct (mention_list_follows_at_sign (js "ask")
              (handleInputStringChange (js "ask @") sampleReady))
    as (_ & _ & B & _).
  split; [apply A; reflexivity|apply B; reflexivity].
Defined.

(** Alice's reply names Bob: the one follow-up goes to Bob, a member of
    the team who is not Alice. *)
Lemma follow_ups_stay_on_team_witness :
  exists t,
    followUpTasks asciiLower sampleTeam alice 0 (responseText toBob) = [t]
    /\ target t = bob
    /\ In (target t) sampleTeam /\ id (target t) <> id alice
    /\ instruction t <> [].
Proof.
  assert (R : exists t,
            followUpTasks asciiLower sampleTeam alice 0 (responseText toBob)
            = [t] /\ target t = bob).
  { vm_compute. eexists. split; reflexivity. }
  destruct R as (t & E & B). exists t.
  assert (I : In t (followUpTasks asciiLower sampleTeam alice 0
                      (responseText toBob))).
  { rewrite E. left. reflexivity. }
  destruct (follow_ups_stay_on_team asciiLower sampleTeam alice 0
              (responseText toBob)) as (K & _).
  destruct (K t I) as (_ & M & N & O & _).
  split; [exact E|]. split; [exact B|]. split; [exact M|].
  split; [exact N|exact O].
Defined.

(** Alice has delegated to Bob and his timer waits: the timer was set by
    a member of the team and its task goes to a member. *)
Lemma engine_holdings_on_team_witness :
  exists st,
    run asciiLower sampleTeam sampleProject
      [EvInput (js "Review the budget"); EvExecute sampleClock;
       EvFulfilled 0 toBob]
      (initialState sampleTeam) = Some st
    /\ length (timers st) = 1 /\ length (taskResults st) = 1
    /\ (forall tm, In tm (timers st) ->
          In (tm_expert tm) sampleTeam
          /\ forall t, In t (tm_tasks tm) -> In (target t) sampleTeam)
    /\ forall r, In r (taskResults st) ->
         exists e, In e sampleTeam /\ tr_expertId r = id e.
Proof.
  pose (r := run asciiLower sampleTeam sampleProject
               [EvInput (js "Review the budget"); EvExecute sampleClock;
                EvFulfilled 0 toBob]
               (initialState sampleTeam)).
  assert (R : exists st, r = Some st /\ length (timers st) = 1
                /\ length (taskResults st) = 1).
  { vm_compute. eexists. repeat split. }
  destruct R as (st & E & T & L). exists st.
  destruct (engine_holdings_on_team
              (run_reachable _ (reachable_init _ _ _) E)) as (_ & B & _ & D).
  split; [exact E|]. split; [exact T|]. split; [exact L|]. split.
  - intros tm I. destruct (B tm I) as (B1 & _ & B3).
    split; [exact B1|]. intros t J. exact (proj1 (B3 t J)).
  - intros x I. destruct (D x I) as (e & D1 & D2 & _).
    exists e. split; [exact D1|exact D2].
Defined.

(** With Alice alone selected, the state after the select-all button and
    the state after a mention of Bob are both reached by the transition
    system; the effect leaves the state as it is when Carol, who is not
    selected, leaves the team, and changes it when Alice does. *)
Lemma other_handlers_add_no_state_witness :
  reachable asciiLower sampleTeam sampleProject
    (selectAllExperts sampleTeam (initialState sampleTeam))
  /\ reachable asciiLower sampleTeam sampleProject
       (handleMentionSelect bob (initialState sampleTeam))
  /\ selectedExpertIds (handleMentionSelect bob (initialState sampleTeam))
     = [js "exp_1"; js "exp_2"]
  /\ setSelectedExpertIds
       (syncSelection [alice; bob]
          (selectedExpertIds (initialState sampleTeam)))
       (initialState sampleTeam)
     = initialState sampleTeam
  /\ setSelectedExpertIds
       (syncSelection [bob; carol]
          (selectedExpertIds (initialState sampleTeam)))
       (initialState sampleTeam)
     <> initialState sampleTeam.
Proof.
  destruct (@other_handlers_add_no_state asciiLower sampleTeam sampleProject
              (initialState sampleTeam) (reachable_init _ _ _))
    as (A & B & C & D).
  split; [exact A|]. split; [apply B; right; left; reflexivity|].
  split; [reflexivity|]. split.
  - apply C. intros i [<-|[]]. left. reflexivity.
  - apply (D [bob; carol] (js "exp_1")); [left; reflexivity|].
    vm_compute. intuition discriminate.
Defined.

(** * The service: retries, routes and the text to parse *)

(** ** [withRetry] *)

Lemma retryLoop_bounds {T} (operation : nat -> Outcome T) baseDelay n :
  forall attempt lastError,
  rr_calls (retryLoop operation baseDelay n attempt lastError) <= n
  /\ length (rr_waits (retryLoop operation baseDelay n attempt lastError))
     <= rr_calls (retryLoop operation baseDelay n attempt lastError).
Proof.
  induction n as [|n IH]; intros attempt lastError; simpl; [lia|].
  destruct (operation attempt) as [v|e]; simpl; [lia|].
  destruct (retryable e); simpl; [|lia].
  destruct (IH (S attempt) (Some e)). lia.
Qed.

Lemma fail_retryably_tail {T} (operation : nat -> Outcome T) attempt k :
  fail_retryably operation attempt (S k) ->
  fail_retryably operation (S attempt) k.
Proof.
  intros H j J. destruct (H (S j)) as (e & E & R); [lia|].
  exists e. rewrite <- E, <- R. split; [f_equal; lia|reflexivity].
Qed.

Lemma retryLoop_skip {T} (operation : nat -> Outcome T) baseDelay k :
  forall n attempt lastError,
  fail_retryably operation attempt k ->
  exists lastError',
    retryLoop operation baseDelay (k + n) attempt lastError
    = (let r := retryLoop operation baseDelay n (attempt + k) lastError' in
       mkRetryRun (rr_end r) (k + rr_calls r)
         (backoff baseDelay attempt k ++ rr_waits r))
    /\ match k with
       | O => lastError' = lastError
       | S k' => operation (attempt + k') = Rejected
                   (match lastError' with
                    | Some e => e
                    | None => mkRetryError None None
                    end)
                 /\ lastError' <> None
       end.
Proof.
  induction k as [|k IH]; intros n attempt lastError F.
  - exists lastError. rewrite Nat.add_0_r. simpl.
    destruct (retryLoop operation baseDelay n attempt lastError);
      split; reflexivity.
  - destruct (F 0) as (e & E & R); [lia|]. rewrite Nat.add_0_r in E.
    destruct (IH n (S attempt) (Some e) (fail_retryably_tail F))
      as (le & Q & L).
    exists le. split.
    + rewrite <- Nat.add_succ_comm. simpl. rewrite E, R, Q. reflexivity.
    + destruct k as [|k].
      * subst le. rewrite Nat.add_0_r. split; [exact E|discriminate].
      * replace (attempt + S k) with (S attempt + k) by lia. exact L.
Qed.

(** X15: [withRetry] returns a value exactly when some call among the
    first [maxRetries] resolves after calls that all failed with an
    error worth a retry; it then returns the value of that call, has
    made no call after it, and has waited once for every failed call,
    [baseDelay] doubled each time.  It never makes more than
    [maxRetries] calls. *)
Theorem retry_returns_first_success {T} (operation : nat -> Outcome T)
  maxRetries baseDelay v :
  (rr_end (withRetry operation maxRetries baseDelay) = Returned v <->
   exists k, k < maxRetries /\ operation k = Resolved v
             /\ fail_retryably operation 0 k)
  /\ (forall k, k < maxRetries -> operation k = Resolved v ->
        fail_retryably operation 0 k ->
        withRetry operation maxRetries baseDelay
        = mkRetryRun (Returned v) (S k) (backoff baseDelay 0 k))
  /\ rr_calls (withRetry operation maxRetries baseDelay) <= maxRetries.
Proof.
  assert (A : forall k, k < maxRetries -> operation k = Resolved v ->
                fail_retryably operation 0 k ->
                withRetry operation maxRetries baseDelay
                = mkRetryRun (Returned v) (S k) (backoff baseDelay 0 k)).
  { intros k K E F. unfold withRetry.
    replace maxRetries with (k + S (maxRetries - S k)) by lia.
    destruct (retryLoop_skip baseDelay (S (maxRetries - S k)) None F)
      as (le & -> & _).
    cbv zeta. simpl. rewrite E. simpl.
    rewrite app_nil_r, Nat.add_1_r. reflexivity. }
  split; [|split; [exact A|apply retryLoop_bounds]].
  split.
  - unfold withRetry.
    assert (G : forall n attempt lastError,
              rr_end (retryLoop operation baseDelay n attempt lastError)
              = Returned v ->
              exists k, k < n /\ operation (attempt + k) = Resolved v
                        /\ fail_retryably operation attempt k).
    { induction n as [|n IH]; intros attempt lastError H; simpl in H;
        [discriminate|].
      destruct (operation attempt) as [w|e] eqn:E.
      - simpl in H. injection H as ->. exists 0. rewrite Nat.add_0_r.
        split; [lia|]. split; [exact E|]. intros j J. lia.
      - destruct (retryable e) eqn:R; [|discriminate]. simpl in H.
        destruct (IH _ _ H) as (k & K & Q & F). exists (S k).
        split; [lia|]. split.
        + rewrite <- Q. f_equal. lia.
        + intros j J. destruct j as [|j].
          * exists e. rewrite Nat.add_0_r. auto.
          * destruct (F j) as (e' & E' & R'); [lia|]. exists e'.
            rewrite <- E'. split; [f_equal; lia|exact R']. }
    intros H. apply G in H. exact H.
  - intros (k & K & E & F). rewrite (A k K E F). reflexivity.
Qed.

(** X16: [withRetry] throws in two ways.  An error not worth a retry is
    thrown at once, as it is, with no further call and no wait after
    it.  When all [maxRetries] calls fail with errors worth a retry, it
    has made exactly [maxRetries] calls, has waited after each of them,
    the last one included, and throws the error of the last call; with
    [maxRetries] = 0 it makes no call and throws [undefined]. *)
Theorem retry_throws {T} (operation : nat -> Outcome T) maxRetries baseDelay :
  (forall k e, k < maxRetries -> operation k = Rejected e ->
     retryable e = false -> fail_retryably operation 0 k ->
     withRetry operation maxRetries baseDelay
     = mkRetryRun (Thrown (Some e)) (S k) (backoff baseDelay 0 k))
  /\ (fail_retryably operation 0 maxRetries ->
      rr_calls (withRetry operation maxRetries baseDelay) = maxRetries
      /\ rr_waits (withRetry operation maxRetries baseDelay)
         = backoff baseDelay 0 maxRetries
      /\ match maxRetries with
         | O => rr_end (withRetry operation maxRetries baseDelay)
                = Thrown None
         | S last =>
             exists e, operation last = Rejected e
               /\ rr_end (withRetry operation maxRetries baseDelay)
                  = Thrown (Some e)
         end).
Proof.
  split.
  - intros k e K E R F. unfold withRetry.
    replace maxRetries with (k + S (maxRetries - S k)) by lia.
    destruct (retryLoop_skip baseDelay (S (maxRetries - S k)) None F)
      as (le & -> & _).
    cbv zeta. simpl. rewrite E, R. simpl.
    rewrite app_nil_r, Nat.add_1_r. reflexivity.
  - intros F. unfold withRetry.
    destruct (retryLoop_skip baseDelay 0 None F) as (le & Q & L).
    rewrite Nat.add_0_r in Q. rewrite Q. cbv zeta. simpl.
    rewrite app_nil_r, Nat.add_0_r. split; [reflexivity|].
    split; [reflexivity|].
    destruct maxRetries as [|last].
    + subst le. reflexivity.
    + destruct L as [L N]. destruct le as [e|]; [|congruence].
      exists e. auto.
Qed.
(** ** [callAIProvider] *)

Lemma endsWithSlash_split s :
  endsWithSlash s = true -> exists b, s = b ++ [47%N] /\ removelast s = b.
Proof.
  unfold endsWithSlash. intros H.
  destruct (rev s) as [|c r] eqn:E; [discriminate|].
  apply N.eqb_eq in H. subst c. exists (rev r).
  assert (Q : s = rev r ++ [47%N]).
  { rewrite <- (rev_involutive s), E. reflexivity. }
  split; [exact Q|]. rewrite Q. apply removelast_last.
Qed.

Lemma endsWithSlash_last b : endsWithSlash (b ++ [47%N]) = true.
Proof. unfold endsWithSlash. rewrite rev_app_distr. reflexivity. Qed.

Lemma includes_suffix a sub : includes (a ++ sub) sub = true.
Proof.
  apply includes_spec. exists a, []. rewrite app_nil_r. reflexivity.
Qed.

Lemma fixEndpoint_names_path endpoint :
  includes (fixEndpoint endpoint) chatPath = true
  \/ includes (fixEndpoint endpoint) generatePath = true.
Proof.
  unfold fixEndpoint.
  destruct (includes endpoint chatPath) eqn:C; [left; exact C|].
  destruct (includes endpoint generatePath) eqn:G; [right; exact G|].
  left. apply includes_suffix.
Qed.

(** X17: the endpoint [callAIProvider] fixes always names a path: it
    holds [/chat/completions] or [generateContent].  An endpoint that
    already holds one of them is left as it is, so fixing twice is
    fixing once; otherwise [/chat/completions] is appended, after one
    trailing slash, and only one, is dropped: no double slash is made
    at the junction of an endpoint that ends with a single slash. *)
Theorem fixed_endpoint_names_path endpoint :
  (includes (fixEndpoint endpoint) chatPath = true
   \/ includes (fixEndpoint endpoint) generatePath = true)
  /\ fixEndpoint (fixEndpoint endpoint) = fixEndpoint endpoint
  /\ (includes endpoint chatPath = true
      \/ includes endpoint generatePath = true ->
      fixEndpoint endpoint = endpoint)
  /\ (includes endpoint chatPath = false ->
      includes endpoint generatePath = false ->
      (forall b, endpoint = b ++ [47%N] ->
         fixEndpoint endpoint = b ++ chatPath)
      /\ (endsWithSlash endpoint = false ->
          fixEndpoint endpoint = endpoint ++ chatPath)).
Proof.
  assert (K : forall e, includes e chatPath = true
                        \/ includes e generatePath = true ->
                        fixEndpoint e = e).
  { intros e [H|H]; unfold fixEndpoint; rewrite H; simpl;
      [reflexivity|rewrite andb_false_r; reflexivity]. }
  split; [apply fixEndpoint_names_path|].
  split; [apply K, fixEndpoint_names_path|]. split; [apply K|].
  intros C G. unfold fixEndpoint. rewrite C, G. simpl. split.
  - intros b ->. now rewrite endsWithSlash_last, removelast_last.
  - intros ->. reflexivity.
Qed.

Lemma proxyUrl_slash p : endsWithSlash (proxyUrl p) = true.
Proof.
  unfold proxyUrl. destruct (endsWithSlash (trim p)) eqn:E; [exact E|].
  apply endsWithSlash_last.
Qed.

(** X18: where [callAIProvider] sends a request.  Without an API key,
    absent or empty, it throws before any request, naming the model;
    with a key and no CORS proxy it hands over to the backend proxy,
    whatever the base URL; with a key and a proxy it posts to the
    trimmed proxy, ended by a slash, followed by the fixed base URL,
    which names a path, with the trimmed key as bearer and the
    X-Requested-With header, and asks for a JSON object exactly in JSON
    mode with a provider other than Moonshot. *)
Theorem provider_route config jsonMode :
  (present (apiKey config) = false ->
   callAIProvider_route config jsonMode
   = MissingKey (js "Model " ++ m_name config ++ js " is missing API Key"))
  /\ (present (apiKey config) = true -> present (corsProxy config) = false ->
      callAIProvider_route config jsonMode = Backend jsonMode)
  /\ (forall key proxy,
        apiKey config = Some key -> key <> [] ->
        corsProxy config = Some proxy -> proxy <> [] ->
        exists base,
          callAIProvider_route config jsonMode
          = Direct (proxyUrl proxy ++ fixEndpoint base)
              (trim (modelId config))
              (jsonMode && negb (isMoonshot (provider config)))
              (js "Bearer " ++ trim key) true
          /\ base = match baseUrl config with
                    | Some b => trim b
                    | None => []
                    end
          /\ endsWithSlash (proxyUrl proxy) = true
          /\ (exists q, proxyUrl proxy = trim proxy ++ q)
          /\ (includes (fixEndpoint base) chatPath = true
              \/ includes (fixEndpoint base) generatePath = true)).
Proof.
  unfold callAIProvider_route. split; [|split].
  - intros ->. reflexivity.
  - intros -> ->. reflexivity.
  - intros key proxy K NK P NP. rewrite K, P.
    destruct key as [|k0 key]; [congruence|].
    destruct proxy as [|p0 proxy]; [congruence|].
    cbn [present truthy negb].
    exists (match baseUrl config with Some b => trim b | None => [] end).
    split.
    + f_equal. f_equal. f_equal. destruct (baseUrl config) as [b|];
        [|reflexivity].
      destruct (trim b); reflexivity.
    + split; [reflexivity|]. split; [apply proxyUrl_slash|].
      split; [|apply fixEndpoint_names_path].
      unfold proxyUrl. destruct (endsWithSlash (trim (p0 :: proxy))).
      * exists []. rewrite app_nil_r. reflexivity.
      * eexists. reflexivity.
Qed.

(** ** [runTeamAnalysis]: from the first opening brace to the last
    closing one *)

Lemma upToLastBrace_none s : upToLastBrace s = None <-> ~ In 125%N s.
Proof.
  induction s as [|c s IH]; simpl.
  - tauto.
  - destruct (upToLastBrace s) as [p|].
    + split; [discriminate|]. intros H. exfalso.
      assert (N : ~ In 125%N s) by tauto.
      apply IH in N. discriminate.
    + destruct (N.eqb_spec c 125) as [->|N].
      * split; [discriminate|]. intros H. exfalso. auto.
      * split; [|reflexivity]. intros _ [H|H]; [congruence|].
        destruct IH as [IH _]. apply (IH eq_refl). exact H.
Qed.

Lemma upToLastBrace_some s : forall p,
  upToLastBrace s = Some p ->
  exists mid post, p = mid ++ [125%N] /\ s = p ++ post /\ ~ In 125%N post.
Proof.
  induction s as [|c s IH]; intros p H; simpl in H; [discriminate|].
  destruct (upToLastBrace s) as [q|] eqn:E.
  - injection H as <-. destruct (IH q eq_refl) as (mid & post & -> & -> & N).
    exists (c :: mid), post. repeat split; auto.
  - destruct (N.eqb_spec c 125) as [->|N]; [|discriminate].
    injection H as <-. exists [], s. repeat split.
    apply upToLastBrace_none. exact E.
Qed.

Lemma upToLastBrace_whole mid : 
  upToLastBrace (mid ++ [125%N]) = Some (mid ++ [125%N]).
Proof.
  induction mid as [|c mid IH]; simpl; [reflexivity|].
  rewrite IH. reflexivity.
Qed.

Lemma jsonMatch_some s : forall m,
  jsonMatch s = Some m ->
  exists pre mid post,
    s = pre ++ m ++ post /\ m = [123%N] ++ mid ++ [125%N]
    /\ ~ In 125%N post
    /\ (In 123%N pre -> ~ In 125%N (m ++ post)).
Proof.
  induction s as [|c s IH]; intros m H; simpl in H; [discriminate|].
  assert (K : jsonMatch s = Some m -> ~ In 125%N s \/ c <> 123%N ->
              exists pre mid post,
                c :: s = pre ++ m ++ post /\ m = [123%N] ++ mid ++ [125%N]
                /\ ~ In 125%N post
                /\ (In 123%N pre -> ~ In 125%N (m ++ post))).
  { intros J W. destruct (IH m J) as (pre & mid & post & -> & -> & N & L).
    exists (c :: pre), mid, post. repeat split; auto.
    intros [Q|Q]; [|auto]. destruct W as [W|W]; [|congruence].
    intros B. apply W. apply in_or_app. right. exact B. }
  destruct (N.eqb_spec c 123) as [->|N]; [|apply K; auto].
  destruct (upToLastBrace s) as [p|] eqn:E.
  - injection H as <-.
    apply upToLastBrace_some in E as (mid & post & -> & -> & N).
    exists [], mid, post. repeat split; auto.
  - apply K; [exact H|]. left. apply upToLastBrace_none. exact E.
Qed.

Lemma jsonMatch_none s :
  jsonMatch s = None <->
  ~ exists pre mid post, s = pre ++ [123%N] ++ mid ++ [125%N] ++ post.
Proof.
  induction s as [|c s IH]; simpl.
  - split; [|reflexivity]. intros _ (pre & mid & post & H).
    destruct pre; discriminate.
  - assert (T : (exists pre mid post,
                   s = pre ++ [123%N] ++ mid ++ [125%N] ++ post) ->
                exists pre mid post,
                  c :: s = pre ++ [123%N] ++ mid ++ [125%N] ++ post).
    { intros (pre & mid & post & ->). exists (c :: pre), mid, post.
      reflexivity. }
    destruct (N.eqb_spec c 123) as [->|N].
    + destruct (upToLastBrace s) as [p|] eqn:E.
      * split; [discriminate|]. intros H. exfalso. apply H.
        apply upToLastBrace_some in E as (mid & post & -> & -> & _).
        exists [], mid, post. rewrite <- app_assoc. reflexivity.
      * rewrite IH. split.
        -- intros H (pre & mid & post & Q). destruct pre as [|a pre].
           ++ simpl in Q. injection Q as Q.
              apply upToLastBrace_none in E. apply E. rewrite Q.
              apply in_or_app. right. left. reflexivity.
           ++ simpl in Q. injection Q as _ Q. apply H.
              exists pre, mid, post. exact Q.
        -- intros H Q. apply H, T, Q.
    + rewrite IH. split.
      * intros H (pre & mid & post & Q). destruct pre as [|a pre].
        -- simpl in Q. injection Q as Q _. congruence.
        -- simpl in Q. injection Q as _ Q. apply H.
           exists pre, mid, post. exact Q.
      * intros H Q. apply H, T, Q.
Qed.

(** X19: the text [runTeamAnalysis] hands to the JSON parser runs from
    the first opening brace of the reply to its last closing brace, when
    that brace comes later: what comes before and after, such as a
    Markdown fence, is dropped, and several objects in one reply are
    taken as one text.  A reply with no opening brace followed by a
    closing one is handed over whole.  Extracting from the extracted
    text gives the same text. *)
Theorem json_text_spans_braces responseText :
  (forall m, jsonMatch responseText = Some m ->
     jsonStr responseText = m
     /\ exists pre mid post,
          responseText = pre ++ m ++ post
          /\ m = [123%N] ++ mid ++ [125%N]
          /\ ~ In 123%N pre /\ ~ In 125%N post)
  /\ (jsonMatch responseText = None <->
      ~ exists pre mid post,
          responseText = pre ++ [123%N] ++ mid ++ [125%N] ++ post)
  /\ (jsonMatch responseText = None -> jsonStr responseText = responseText)
  /\ jsonStr (jsonStr responseText) = jsonStr responseText.
Proof.
  split; [|split; [apply jsonMatch_none|split]].
  - intros m H. split; [unfold jsonStr; rewrite H; reflexivity|].
    destruct (jsonMatch_some _ H) as (pre & mid & post & A & B & C & D).
    exists pre, mid, post.
    split; [exact A|]. split; [exact B|]. split; [|exact C].
    intros I. apply (D I). rewrite B. apply in_or_app. left.
    apply in_or_app. right. apply in_or_app. right. left. reflexivity.
  - intros H. unfold jsonStr. rewrite H. reflexivity.
  - unfold jsonStr at 2 3.
    destruct (jsonMatch responseText) as [m|] eqn:E.
    + apply jsonMatch_some in E as (pre & mid & post & _ & -> & _).
      unfold jsonStr. simpl. rewrite upToLastBrace_whole. reflexivity.
    + unfold jsonStr. rewrite E. reflexivity.
Qed.

(** * The service at work *)

(** Rate-limited twice, the operation answers at the third call, after
    waits of two and four seconds. *)
Lemma retry_returns_first_success_witness :
  withRetry flaky 3 2000
  = mkRetryRun (Returned (js "ok")) 3 [2000%N; 4000%N].
Proof.
  assert (F : fail_retryably flaky 0 2).
  { intros j J. destruct j as [|[|j]].
    - exists rateLimited. split; reflexivity.
    - exists rateLimited. split; reflexivity.
    - exfalso. lia. }
  destruct (retry_returns_first_success flaky 3 2000 (js "ok"))
    as (_ & K & _).
  assert (L : 2 < 3) by lia.
  exact (K 2 L eq_refl F).
Defined.

(** A refusal is thrown at the first call; an overloaded model is
    called three times and waited for three times. *)
Lemma retry_throws_witness :
  withRetry denied 3 2000 = mkRetryRun (Thrown (Some refused)) 1 []
  /\ rr_calls (withRetry swamped 3 2000) = 3
  /\ rr_waits (withRetry swamped 3 2000) = [2000%N; 4000%N; 8000%N]
  /\ rr_end (withRetry swamped 3 2000) = Thrown (Some overloaded).
Proof.
  split.
  - destruct (retry_throws denied 3 2000) as (K & _).
    assert (L : 0 < 3) by lia.
    assert (F : fail_retryably denied 0 0).
    { intros j J. exfalso. lia. }
    exact (K 0 refused L eq_refl eq_refl F).
  - destruct (retry_throws swamped 3 2000) as (_ & K).
    assert (F : fail_retryably swamped 0 3).
    { intros j J. exists overloaded. split; reflexivity. }
    destruct (K F) as (A & B & e & C & D).
    split; [exact A|]. split; [exact B|].
    rewrite D. injection C as <-. reflexivity.
Defined.

(** The chat path is appended after the trailing slash is dropped. *)
Lemma fixed_endpoint_names_path_witness :
  fixEndpoint (js "https://api.deepseek.com/")
  = js "https://api.deepseek.com/chat/completions".
Proof.
  destruct (fixed_endpoint_names_path (js "https://api.deepseek.com/"))
    as (_ & _ & _ & K).
  destruct (K eq_refl eq_refl) as (A & _).
  exact (A (js "https://api.deepseek.com") eq_refl).
Defined.

(** With key and proxy the request goes through the proxy to the chat
    path of the base URL; without a key no request is made. *)
Lemma provider_route_witness :
  callAIProvider_route proxied true
  = Direct
      (js "https://cors.example.org/https://api.deepseek.com/chat/completions")
      (js "deepseek-chat") true (js "Bearer sk-1") true
  /\ callAIProvider_route keyless true
     = MissingKey (js "Model DeepSeek V3 is missing API Key").
Proof.
  split.
  - destruct (provider_route proxied true) as (_ & _ & K).
    destruct (K (js " sk-1 ") (js "https://cors.example.org") eq_refl
                ltac:(discriminate) eq_refl ltac:(discriminate))
      as (base & E & B & _).
    rewrite E, B. reflexivity.
  - destruct (provider_route keyless true) as (K & _).
    exact (K eq_refl).
Defined.

(** The fence and the words around the braces are dropped; the two
    objects are handed over as one text. *)
Lemma json_text_spans_braces_witness :
  jsonStr fencedReply = js "{overallScore: 70} ``` and {more: 1}".
Proof.
  destruct (json_text_spans_braces fencedReply) as (K & _).
  exact (proj1 (K (js "{overallScore: 70} ``` and {more: 1}") eq_refl)).
Defined.
